(** * PCjs core: bus, segment registers and debugger breakpoints

    A shallow embedding of three pieces of the PCjs sources:

    - [modules/devices/bus.js]: the block-paged [Bus] with its trap API;
    - the X86 segment registers ([X86Seg]): real and protected mode loads,
      descriptor checks and [updateMode];
    - the debugger ([DbgIO]): [truncate], the operators of the expression
      evaluator ([evalOps], [parseUnary]) and the breakpoint tables.

    JavaScript numbers are modelled by [Z] wherever the code keeps them
    integral; the 32-bit operators are written out in module [JS].
    The first part of the file holds the definitions, the second part the
    lemmas and theorems about them. *)

From Stdlib Require Import ZArith Lia Bool List.
From stdpp Require Import base option list strings pretty.

Local Open Scope Z_scope.

(* ===================================================================== *)
(** * Part I: definitions                                                 *)
(* ===================================================================== *)

(** ** JavaScript integer operators *)

Module JS.

(** [ToInt32] and [ToUint32] of ECMAScript, on integral values. *)
Definition ToInt32 (z : Z) : Z := (z + 2 ^ 31) mod 2 ^ 32 - 2 ^ 31.
Definition ToUint32 (z : Z) : Z := z mod 2 ^ 32.

(** Shift counts are taken modulo 32. *)
Definition count (n : Z) : Z := ToUint32 n mod 32.

(** [a & b], [a | b], [a ^ b], [~a]. *)
Definition and (a b : Z) : Z := Z.land (ToInt32 a) (ToInt32 b).
Definition or (a b : Z) : Z := Z.lor (ToInt32 a) (ToInt32 b).
Definition xor (a b : Z) : Z := Z.lxor (ToInt32 a) (ToInt32 b).
Definition not (a : Z) : Z := Z.lnot (ToInt32 a).

(** [a << n], [a >> n], [a >>> n]. *)
Definition shl (a n : Z) : Z := ToInt32 (Z.shiftl (ToInt32 a) (count n)).
Definition sar (a n : Z) : Z := Z.shiftr (ToInt32 a) (count n).
Definition shr (a n : Z) : Z := Z.shiftr (ToUint32 a) (count n).

(** [a % b]: the remainder has the sign of the dividend. *)
Definition rem (a b : Z) : Z := Z.rem a b.

(** [(a / b)|0]: the quotient truncated toward zero, then [ToInt32]. *)
Definition divToInt32 (a b : Z) : Z := ToInt32 (Z.quot a b).

(** Truthiness of a number. *)
Definition truthy (a : Z) : bool := negb (a =? 0).

End JS.

(** ** The debugger's numeric helper *)

Module NumIO.
Definition TWO_POW32 : Z := 2 ^ 32.
End NumIO.

Module DbgNum.

(** [DbgIO.truncate(v, nBits, fUnsigned)].  An omitted [nBits] is passed as
    [0] (the callers write [0] themselves); [nDefaultBits] is the debugger's
    field.  The MAXDEBUG warning is left out.

    JavaScript numbers are doubles; the model computes on integers.  The two
    agree where every intermediate value is an integer of at most 53 bits:
    for [|v| <= 2^53] and [nBits <= 53] the remainder [v % limit], the
    quotient [v / limit] before [|0] and the sums with [limit] are exact.
    The theorems about [truncate] carry these bounds as hypotheses; outside
    them (for instance [truncate(-1, 54, true)], where [-1 + 2^54] rounds to
    [2^54]) the model says nothing about the code. *)
Definition truncate (nDefaultBits : Z) (v nBits : Z) (fUnsigned : bool) : Z :=
  let nBits := if JS.truthy nBits then nBits else nDefaultBits in
  let vNew :=
    if fUnsigned then
      if nBits =? 32 then JS.shr v 0
      else if nBits <? 32 then JS.and v (JS.shl 1 nBits - 1)
      else
        let limit := 2 ^ nBits in
        if (v <? 0) || (v >=? limit) then
          let vNew := JS.rem v limit in
          if vNew <? 0 then vNew + limit else vNew
        else v
    else
      if nBits <=? 32 then JS.sar (JS.shl v (32 - nBits)) (32 - nBits)
      else
        let limit := 2 ^ (nBits - 1) in
        if v >=? limit then
          let vNew := JS.rem v limit in
          if JS.truthy (JS.and (JS.divToInt32 v limit) 1) then vNew - limit else vNew
        else if v <? - limit then
          let vNew := JS.rem v limit in
          if JS.truthy (JS.and (JS.divToInt32 (- v - 1) limit) 1)
          then (if JS.truthy vNew then vNew + limit else vNew)
          else (if negb (JS.truthy vNew) then vNew - limit else vNew)
        else v
  in
  if negb (v =? vNew) then vNew else v.

(** [evalAND(dst, src)], [evalIOR(dst, src)], [evalXOR(dst, src)]: the
    32-bit operator on a debugger of at most 32 bits, else the operator on
    the high and on the low 32 bits of the unsigned operands. *)
Definition evalAND (nDefaultBits dst src : Z) : Z :=
  if nDefaultBits <=? 32 then JS.and dst src
  else
    let dst := truncate nDefaultBits dst 0 true in
    let src := truncate nDefaultBits src 0 true in
    JS.and (JS.divToInt32 dst NumIO.TWO_POW32) (JS.divToInt32 src NumIO.TWO_POW32)
      * NumIO.TWO_POW32
    + JS.shr (JS.and dst src) 0.

Definition evalIOR (nDefaultBits dst src : Z) : Z :=
  if nDefaultBits <=? 32 then JS.or dst src
  else
    let dst := truncate nDefaultBits dst 0 true in
    let src := truncate nDefaultBits src 0 true in
    JS.or (JS.divToInt32 dst NumIO.TWO_POW32) (JS.divToInt32 src NumIO.TWO_POW32)
      * NumIO.TWO_POW32
    + JS.shr (JS.or dst src) 0.

Definition evalXOR (nDefaultBits dst src : Z) : Z :=
  if nDefaultBits <=? 32 then JS.xor dst src
  else
    let dst := truncate nDefaultBits dst 0 true in
    let src := truncate nDefaultBits src 0 true in
    JS.xor (JS.divToInt32 dst NumIO.TWO_POW32) (JS.divToInt32 src NumIO.TWO_POW32)
      * NumIO.TWO_POW32
    + JS.shr (JS.xor dst src) 0.

(** [evalMUL(dst, src)]. *)
Definition evalMUL (dst src : Z) : Z := dst * src.

(** [a.pop()] on an array used as a stack: the last element, and the array
    without it. *)
Definition pop {A} (l : list A) : option (A * list A) :=
  match reverse l with
  | x :: r => Some (x, reverse r)
  | [] => None
  end.

(** The [switch] of [evalOps] on the operator [chOp], for the operands
    [val1] and [val2]: the new value, or [None] where the code returns
    false.  [Math.trunc(a / b)] is the quotient rounded toward zero. *)
Definition evalOp (nDefaultBits : Z) (chOp : string) (val1 val2 : Z) : option Z :=
  if String.eqb chOp "*" then Some (evalMUL val1 val2)
  else if String.eqb chOp "/" then
    if negb (JS.truthy val2) then None else Some (Z.quot val1 val2)
  else if String.eqb chOp "^/" then
    if negb (JS.truthy val2) then None else Some (JS.rem val1 val2)
  else if String.eqb chOp "+" then Some (val1 + val2)
  else if String.eqb chOp "-" then Some (val1 - val2)
  else if String.eqb chOp "<<" then Some (JS.shl val1 val2)
  else if String.eqb chOp ">>" then Some (JS.sar val1 val2)
  else if String.eqb chOp ">>>" then Some (JS.shr val1 val2)
  else if String.eqb chOp "<" then Some (if val1 <? val2 then 1 else 0)
  else if String.eqb chOp "<=" then Some (if val1 <=? val2 then 1 else 0)
  else if String.eqb chOp ">" then Some (if val1 >? val2 then 1 else 0)
  else if String.eqb chOp ">=" then Some (if val1 >=? val2 then 1 else 0)
  else if String.eqb chOp "==" then Some (if val1 =? val2 then 1 else 0)
  else if String.eqb chOp "!=" then Some (if val1 =? val2 then 0 else 1)
  else if String.eqb chOp "&" then Some (evalAND nDefaultBits val1 val2)
  else if String.eqb chOp "!" || String.eqb chOp "|" then Some (evalIOR nDefaultBits val1 val2)
  else if String.eqb chOp "^!" then Some (evalXOR nDefaultBits val1 val2)
  else if String.eqb chOp "&&" then Some (if JS.truthy val1 && JS.truthy val2 then 1 else 0)
  else if String.eqb chOp "||" then Some (if JS.truthy val1 || JS.truthy val2 then 1 else 0)
  else if String.eqb chOp ",," then
    Some (truncate nDefaultBits val1 18 true * 2 ^ 18 + truncate nDefaultBits val2 18 true)
  else if String.eqb chOp "_" || String.eqb chOp "^_" then
    let val2 := if String.eqb chOp "^_" then 35 - JS.and val2 0xFF else val2 in
    if JS.truthy val2 then
      let valNew := truncate nDefaultBits val1 0 true in
      Some (if val2 >? 0 then valNew * 2 ^ val2 else Z.quot valNew (2 ^ (- val2)))
    else Some val1
  else None.

(** The loop of [evalOps].  [rOps] is the operator stack, its top (the end
    of the array [aOps]) first; every turn pops one operator.  The result is
    the value returned and the two arrays as the call leaves them. *)
Fixpoint evalOps_loop (nDefaultBits : Z) (aVals : list Z) (rOps : list string) (cOps : Z)
    : bool * list Z * list string :=
  match rOps with
  | [] => (true, aVals, [])
  | chOp :: rOps' =>
      if JS.truthy cOps then
        if (length aVals <? 2)%nat then (false, aVals, rOps')
        else
          match pop aVals with
          | None => (false, aVals, rOps')
          | Some (val2, aVals1) =>
              match pop aVals1 with
              | None => (false, aVals1, rOps')
              | Some (val1, aVals2) =>
                  match evalOp nDefaultBits chOp val1 val2 with
                  | None => (false, aVals2, rOps')
                  | Some valNew =>
                      evalOps_loop nDefaultBits
                                   (aVals2 ++ [truncate nDefaultBits valNew 0 false])
                                   rOps' (cOps - 1)
                  end
              end
          end
      else (true, aVals, rOps)
  end.

(** [evalOps(aVals, aOps, cOps)]; [cOps] is [-1] when left out. *)
Definition evalOps (nDefaultBits : Z) (aVals : list Z) (aOps : list string) (cOps : Z)
    : bool * list Z * list string :=
  let '(ok, aVals, rOps) := evalOps_loop nDefaultBits aVals (reverse aOps) cOps in
  (ok, aVals, reverse rOps).

(** The loop of case 3 of [parseUnary]: [while (bit >= 0 &&
    !this.evalAND(value, Math.pow(2, bit))) bit--].  It starts at bit 35, so
    36 turns are all it can take. *)
Fixpoint leadingZeros_loop (fuel : nat) (nDefaultBits value bit : Z) : Z :=
  match fuel with
  | O => bit
  | S fuel' =>
      if (bit >=? 0) && negb (JS.truthy (evalAND nDefaultBits value (2 ^ bit)))
      then leadingZeros_loop fuel' nDefaultBits value (bit - 1)
      else bit
  end.

(** The [switch (nUnary & 0o3)] of [parseUnary]: 1 negates, 2 complements,
    3 counts the leading zero bits of a 36-bit word, and 0 leaves the value
    as it is. *)
Definition unaryOp (nDefaultBits code value : Z) : Z :=
  if code =? 1 then - truncate nDefaultBits value 0 false
  else if code =? 2 then evalXOR nDefaultBits value (-1)
  else if code =? 3 then 35 - leadingZeros_loop 36 nDefaultBits value 35
  else value.

(** The loop of [parseUnary].  [nUnary >>>= 2] leaves less than [2^30]
    after the first turn and a quarter of it after every other: 17 turns are
    all the loop can take. *)
Fixpoint parseUnary_loop (fuel : nat) (nDefaultBits value nUnary : Z) : Z :=
  match fuel with
  | O => value
  | S fuel' =>
      if JS.truthy nUnary then
        parseUnary_loop fuel' nDefaultBits
                        (unaryOp nDefaultBits (JS.and nUnary 3) value) (JS.shr nUnary 2)
      else value
  end.

(** [parseUnary(value, nUnary)]. *)
Definition parseUnary (nDefaultBits value nUnary : Z) : Z :=
  parseUnary_loop 17 nDefaultBits value nUnary.

(** How [parseArray] records a unary operator in front of a value: the test
    [!(nUnary & (0xC0000000|0))] that there is room for one more, and the
    assignment [nUnary = (nUnary << 2) | code], with [code] 1 for [-], 2 for
    [~] and [^-], 3 for [^L]. *)
Definition unaryRoom (nUnary : Z) : bool :=
  negb (JS.truthy (JS.and nUnary (JS.or 0xC0000000 0))).

Definition pushUnary (nUnary code : Z) : Z := JS.or (JS.shl nUnary 2) code.

End DbgNum.

(** ** Outcomes of calls

    A call returns a value or throws.  [OutOfFuel] stands for a recursion the
    model cut off (unbounded recursion in the program). *)

(** The texts the debugger builds with [sprintf], kept by their parts (the
    layout of the numbers in the text is not modelled).  An address may be
    [NaN], which is [None]. *)
Inductive Message : Type :=
| MsgAlready (index : Z) (cmd : string) (addrPrint : Z) (action : string)
| MsgChanged (index : Z) (cmd : string) (addrPrint : Z) (action : string)
| MsgMissingIndex
| MsgSet (index : Z) (cmd : string) (off : Z)
| MsgAlreadySet (cmd : string) (off : Z)
| MsgMissingAddress
| MsgReadBreak (addr : option Z)
| MsgWriteBreak (value : Z) (addr : option Z)
| MsgCleared (index : Z) (cmd : string) (addr : Z)
| MsgInvalidAddress (addr : Z)
| MsgInvalidIndex (index : Z).

Inductive Exn : Type :=
| TypeError
| RangeError
| OutOfFuel
| Thrown (message : Message).

Inductive Outcome (A : Type) : Type :=
| Ret (a : A)
| Exc (e : Exn).
Arguments Ret {A} a.
Arguments Exc {A} e.

(** ** Memory blocks

    A block is an object on a heap of blocks: the bus table and the trap
    closures hold locations, so that a block installed at several indices (the
    shared NONE block) is one object. *)

Module Memory.

(** Locations on the heap of blocks. *)
Abbreviation loc := nat (only parsing).

(** A trap callback is known by its identity (the code compares callbacks
    with [==]). *)
Abbreviation Callback := nat (only parsing).

Module TYPE.
(** Modelled from the spec: the constants of [Memory.TYPE] are not among the
    sources; [NONE] is the falsy default of a block's type. *)
Definition NONE : Z := 0.
Definition ROM : Z := 1.
Definition RAM : Z := 2.
End TYPE.

(** The plain attributes of a block. [addr] is [None] where the code passes
    [undefined] (the shared NONE block). *)
Record Data : Type := mkData {
  idDevice : string;
  addr : option Z;
  size : Z;
  type : Z;
  values : option (list Z);
  fDirty : bool
}.

(** What a function slot can hold: a method of the block itself, which sees
    the attributes of the block it is called on, or the wrapper closure that
    [Bus.trapRead] / [Bus.trapWrite] builds around a captured block. *)
Inductive ReadFn : Type :=
| ReadPrim (f : Data -> Z -> Z)
| ReadTrapFn (block : loc).

Inductive WriteFn : Type :=
| WritePrim (g : Data -> Z -> Z -> Data)
| WriteTrapFn (block : loc).

(** The trap counters are [undefined] or a number in the code; both
    [undefined] and [0] are falsy and are modelled by [0]. *)
Record t : Type := mk {
  data : Data;
  readData : option ReadFn;
  readPrev : option ReadFn;
  readTrap : option Callback;
  nReadTraps : nat;
  writeData : option WriteFn;
  writePrev : option WriteFn;
  writeTrap : option Callback;
  nWriteTraps : nat
}.

Definition setRead (m : t) (rd rp : option ReadFn) (rt : option Callback) (n : nat) : t :=
  mk (data m) rd rp rt n (writeData m) (writePrev m) (writeTrap m) (nWriteTraps m).

Definition setWrite (m : t) (wd wp : option WriteFn) (wt : option Callback) (n : nat) : t :=
  mk (data m) (readData m) (readPrev m) (readTrap m) (nReadTraps m) wd wp wt n.

Definition setData (m : t) (d : Data) : t :=
  mk d (readData m) (readPrev m) (readTrap m) (nReadTraps m)
     (writeData m) (writePrev m) (writeTrap m) (nWriteTraps m).

(** The configuration object handed to [new Memory(..)] by the bus. *)
Record Config : Type := mkConfig {
  cfg_type : option Z;
  cfg_addr : option Z;
  cfg_size : Z;
  cfg_values : option (list Z)
}.

(** Modelled from the spec: the methods of class [Memory] (memory.js) are not
    among the sources.  A NONE block reads as a sentinel (all ones of the
    default 8-bit data width) and drops writes; RAM and ROM read their
    values; only RAM stores, marking the block dirty. *)
Definition readNone (d : Data) (offset : Z) : Z := 255.

Definition readValue (d : Data) (offset : Z) : Z :=
  match values d with
  | Some vs => nth (Z.to_nat offset) vs 255
  | None => 255
  end.

Definition writeNone (d : Data) (offset value : Z) : Data := d.

Definition writeValue (d : Data) (offset value : Z) : Data :=
  mkData (idDevice d) (addr d) (size d) (type d)
         (match values d with
          | Some vs => Some (<[Z.to_nat offset := value]> vs)
          | None => None
          end)
         true.

(** Modelled from the spec: the constructor [new Memory(idMachine, idDevice,
    config)]: a block with the configured attributes, values defaulting to
    [size] zeroes, the access methods chosen by type and no trap. *)
Definition create (idMachine idDev : string) (cfg : Config) : t :=
  let ty := match cfg_type cfg with Some ty => ty | None => TYPE.NONE end in
  let vs := match cfg_values cfg with
            | Some vs => vs
            | None => replicate (Z.to_nat (cfg_size cfg)) 0
            end in
  mk (mkData idDev (cfg_addr cfg) (cfg_size cfg) ty (Some vs) false)
     (Some (ReadPrim (if ty =? TYPE.NONE then readNone else readValue)))
     None None 0%nat
     (Some (WritePrim (if ty =? TYPE.RAM then writeValue else writeNone)))
     None None 0%nat.

End Memory.

(** ** The bus *)

Module Bus.

Import Memory.

Abbreviation Heap := (list Memory.t) (only parsing).

(** [new Memory(..)] puts a new object on the heap. *)
Definition alloc (h : Heap) (m : Memory.t) : loc * Heap := (length h, h ++ [m]).

Record Config : Type := mkConfig {
  cfg_addrWidth : option Z;
  cfg_dataWidth : option Z;
  cfg_blockSize : option Z
}.

(** [blocks] is the JavaScript array: [None] is a slot never assigned. *)
Record t : Type := mk {
  idMachine : string;
  idDevice : string;
  addrWidth : Z;
  dataWidth : Z;
  addrTotal : Z;
  addrLimit : Z;
  blockSize : Z;
  blockTotal : Z;
  blockShift : Z;
  blockLimit : Z;
  blocks : list (option loc)
}.

Definition setBlocks (bus : t) (bs : list (option loc)) : t :=
  mk (idMachine bus) (idDevice bus) (addrWidth bus) (dataWidth bus) (addrTotal bus)
     (addrLimit bus) (blockSize bus) (blockTotal bus) (blockShift bus) (blockLimit bus) bs.

(** [this.blocks[i]] as an object: [None] for an index outside the array, a
    slot never assigned, or a location that names no object. *)
Definition blockAt (bus : t) (h : Heap) (i : Z) : option (loc * Memory.t) :=
  if i <? 0 then None else
  match blocks bus !! Z.to_nat i with
  | Some (Some l) => match h !! l with Some m => Some (l, m) | None => None end
  | _ => None
  end.

(** [config[key] || dflt]. *)
Definition orDefault (o : option Z) (dflt : Z) : Z :=
  match o with
  | Some v => if JS.truthy v then v else dflt
  | None => dflt
  end.

(** [a.slice(b, e)] for integral bounds. *)
Definition slice {A} (l : list A) (b e : Z) : list A :=
  let len := Z.of_nat (length l) in
  let k := if b <? 0 then Z.max (len + b) 0 else Z.min b len in
  let final := if e <? 0 then Z.max (len + e) 0 else Z.min e len in
  take (Z.to_nat (final - k)) (drop (Z.to_nat k) l).

Section Allocation.

(** The constructor of class [Memory] is not among the sources: the bus is
    modelled over any constructor ([Memory.create] is one). *)
Variable newMemory : string -> string -> Memory.Config -> Memory.t.

(** The [while] loop of [addBlocks].  Every iteration moves [iBlock] one
    slot up the table, so [S (length blocks)] units of fuel always suffice
    (lemma [addBlocks_loop_fuel]). *)
Fixpoint addBlocks_loop (fuel : nat) (type : Z) (block : option loc)
    (addrNext sizeLeft offset nBlocks iBlock : Z) (bus : t) (h : Heap)
    : Outcome (bool * t * Heap) :=
  if (sizeLeft >? 0) && (iBlock <? Z.of_nat (length (blocks bus))) then
    match fuel with
    | O => Exc OutOfFuel
    | S fuel' =>
      let addrBlock := iBlock * blockSize bus in
      let sizeBlock := blockSize bus - (addrNext - addrBlock) in
      let sizeBlock := if sizeBlock >? sizeLeft then sizeLeft else sizeBlock in
      let blockExisting := blockAt bus h iBlock in
      let conflict :=
        match blockExisting with
        | Some (_, m) => negb (Memory.type (data m) =? TYPE.NONE)
        | None => false
        end in
      if conflict then Ret (false, bus, h)
      else
        let made : Outcome (loc * Heap) :=
          match block with
          | None =>
              Ret (alloc h (newMemory (idMachine bus)
                     (idDevice bus +:+ ".block" +:+ pretty nBlocks)
                     (Memory.mkConfig (Some type) (Some addrNext) sizeBlock None)))
          | Some b =>
              match h !! b with
              | None => Exc TypeError
              | Some mb =>
                  if size (data mb) =? blockSize bus then Ret (b, h)
                  else
                    let values :=
                      match Memory.values (data mb) with
                      | Some vs => Some (slice vs offset (offset + sizeBlock))
                      | None => None
                      end in
                    Ret (alloc h (newMemory (idMachine bus)
                           (Memory.idDevice (data mb) +:+ ".block" +:+ pretty nBlocks)
                           (Memory.mkConfig (Some type) (Some addrNext) sizeBlock values)))
              end
          end in
        match made with
        | Exc e => Exc e
        | Ret (blockNew, h') =>
            let bus' := setBlocks bus (<[Z.to_nat iBlock := Some blockNew]> (blocks bus)) in
            addBlocks_loop fuel' type block (addrBlock + blockSize bus) (sizeLeft - sizeBlock)
                           (offset + sizeBlock) (nBlocks + 1) (iBlock + 1) bus' h'
        end
    end
  else Ret (true, bus, h).

(** [addBlocks(addr, size, type, block)]. *)
Definition addBlocks (addr size type : Z) (block : option loc) (bus : t) (h : Heap)
    : Outcome (bool * t * Heap) :=
  addBlocks_loop (S (length (blocks bus))) type block
                 addr size 0 0 (JS.shr addr (blockShift bus)) bus h.

(** The [for] loop of the constructor. *)
Fixpoint constructor_loop (fuel : nat) (memory : loc) (addr : Z) (bus : t) (h : Heap)
    : Outcome (t * Heap) :=
  if addr <? addrTotal bus then
    match fuel with
    | O => Exc OutOfFuel
    | S fuel' =>
        match addBlocks addr (blockSize bus) TYPE.NONE (Some memory) bus h with
        | Exc e => Exc e
        | Ret (_, bus', h') => constructor_loop fuel' memory (addr + blockSize bus) bus' h'
        end
    end
  else Ret (bus, h).

(** [new Bus(idMachine, idDevice, config)], on a heap [h].  [Math.pow(2,
    addrWidth)] is [2 ^ addrWidth] for the nonnegative widths the model
    covers, and [Math.log2(blockSize)|0] the integer logarithm.  The loop
    runs at most [addrTotal] times when [blockSize >= 1]. *)
Definition constructor (idM idD : string) (config : Config) (h : Heap) : Outcome (t * Heap) :=
  let addrWidth := orDefault (cfg_addrWidth config) 16 in
  let dataWidth := orDefault (cfg_dataWidth config) 8 in
  let addrTotal := 2 ^ addrWidth in
  let addrLimit := JS.ToInt32 (addrTotal - 1) in
  let blockSize := orDefault (cfg_blockSize config) 1024 in
  let blockTotal := JS.divToInt32 addrTotal blockSize in
  let blockShift := JS.ToInt32 (Z.log2 blockSize) in
  let blockLimit := JS.shl 1 blockShift - 1 in
  if blockTotal <? 0 then Exc RangeError
  else
    let bus := mk idM idD addrWidth dataWidth addrTotal addrLimit blockSize blockTotal
                  blockShift blockLimit (replicate (Z.to_nat blockTotal) None) in
    let '(memory, h1) :=
      alloc h (newMemory idM (idD +:+ ".none") (Memory.mkConfig None None blockSize None)) in
    constructor_loop (S (Z.to_nat addrTotal)) memory 0 bus h1.

End Allocation.

(** [trapRead(addr, func)].  The wrapper closure [readTrap] captures the
    block found at [addr]; it is installed only when the block has no read
    trap yet. *)
Definition trapRead (addr : Z) (func : Callback) (bus : t) (h : Heap) : Outcome (bool * Heap) :=
  let iBlock := JS.shr addr (blockShift bus) in
  match blockAt bus h iBlock with
  | None => Exc TypeError
  | Some (l, block) =>
      if (nReadTraps block =? 0)%nat then
        Ret (true, <[l := setRead block (Some (ReadTrapFn l)) (readData block) (Some func) 1%nat]> h)
      else if decide (readTrap block = Some func) then
        Ret (true, <[l := setRead block (readData block) (readPrev block) (readTrap block)
                                  (S (nReadTraps block))]> h)
      else Ret (false, h)
  end.

(** [trapWrite(addr, func)]. *)
Definition trapWrite (addr : Z) (func : Callback) (bus : t) (h : Heap) : Outcome (bool * Heap) :=
  let iBlock := JS.shr addr (blockShift bus) in
  match blockAt bus h iBlock with
  | None => Exc TypeError
  | Some (l, block) =>
      if (nWriteTraps block =? 0)%nat then
        Ret (true, <[l := setWrite block (Some (WriteTrapFn l)) (writeData block) (Some func) 1%nat]> h)
      else if decide (writeTrap block = Some func) then
        Ret (true, <[l := setWrite block (writeData block) (writePrev block) (writeTrap block)
                                   (S (nWriteTraps block))]> h)
      else Ret (false, h)
  end.

(** [untrapRead(addr, func)]. *)
Definition untrapRead (addr : Z) (func : Callback) (bus : t) (h : Heap) : Outcome (bool * Heap) :=
  let iBlock := JS.shr addr (blockShift bus) in
  match blockAt bus h iBlock with
  | None => Exc TypeError
  | Some (l, block) =>
      if negb (nReadTraps block =? 0)%nat && bool_decide (readTrap block = Some func) then
        let n := pred (nReadTraps block) in
        if (n =? 0)%nat then
          Ret (true, <[l := setRead block (readPrev block) None None n]> h)
        else
          Ret (true, <[l := setRead block (readData block) (readPrev block) (readTrap block) n]> h)
      else Ret (false, h)
  end.

(** [untrapWrite(addr, func)]. *)
Definition untrapWrite (addr : Z) (func : Callback) (bus : t) (h : Heap) : Outcome (bool * Heap) :=
  let iBlock := JS.shr addr (blockShift bus) in
  match blockAt bus h iBlock with
  | None => Exc TypeError
  | Some (l, block) =>
      if negb (nWriteTraps block =? 0)%nat && bool_decide (writeTrap block = Some func) then
        let n := pred (nWriteTraps block) in
        if (n =? 0)%nat then
          Ret (true, <[l := setWrite block (writePrev block) None None n]> h)
        else
          Ret (true, <[l := setWrite block (writeData block) (writePrev block) (writeTrap block) n]> h)
      else Ret (false, h)
  end.

(** [block.addr + offset]: [NaN] ([None]) when the block has no address. *)
Definition addrPlus (a : option Z) (offset : Z) : option Z :=
  match a with
  | Some a => Some (a + offset)
  | None => None
  end.

Section Access.

(** Trap callbacks act on a world outside the bus (the debugger, the clock):
    a callback receives the address and the value, can look at the memory as
    it stands when it is called, and returns or throws. *)
Context {World : Type}.
Variable invoke : Callback -> option Z -> Z -> Heap -> World -> Outcome unit * World.

(** Calling a read slot [fn] as a method of block [this].  The wrapper reads
    [block.readPrev] and [block.readTrap] of its captured block when it
    runs. *)
Fixpoint callRead (fuel : nat) (this : loc) (fn : ReadFn) (offset : Z) (h : Heap) (w : World)
    : Outcome Z * World :=
  match fn with
  | ReadPrim f =>
      match h !! this with
      | Some m => (Ret (f (data m) offset), w)
      | None => (Exc TypeError, w)
      end
  | ReadTrapFn b =>
      match fuel with
      | O => (Exc OutOfFuel, w)
      | S fuel' =>
          match h !! b with
          | None => (Exc TypeError, w)
          | Some block =>
              match readPrev block with
              | None => (Exc TypeError, w)
              | Some prev =>
                  match callRead fuel' b prev offset h w with
                  | (Exc e, w1) => (Exc e, w1)
                  | (Ret value, w1) =>
                      match readTrap block with
                      | None => (Exc TypeError, w1)
                      | Some cb =>
                          match invoke cb (addrPlus (addr (data block)) offset) value h w1 with
                          | (Exc e, w2) => (Exc e, w2)
                          | (Ret _, w2) => (Ret value, w2)
                          end
                      end
                  end
              end
          end
      end
  end.

(** Calling a write slot [fn] as a method of block [this]. *)
Fixpoint callWrite (fuel : nat) (this : loc) (fn : WriteFn) (offset value : Z)
    (h : Heap) (w : World) : Outcome unit * Heap * World :=
  match fn with
  | WritePrim g =>
      match h !! this with
      | Some m => (Ret tt, <[this := setData m (g (data m) offset value)]> h, w)
      | None => (Exc TypeError, h, w)
      end
  | WriteTrapFn b =>
      match fuel with
      | O => (Exc OutOfFuel, h, w)
      | S fuel' =>
          match h !! b with
          | None => (Exc TypeError, h, w)
          | Some block =>
              match writeTrap block with
              | None => (Exc TypeError, h, w)
              | Some cb =>
                  match invoke cb (addrPlus (addr (data block)) offset) value h w with
                  | (Exc e, w1) => (Exc e, h, w1)
                  | (Ret _, w1) =>
                      match writePrev block with
                      | None => (Exc TypeError, h, w1)
                      | Some prev => callWrite fuel' b prev offset value h w1
                      end
                  end
              end
          end
      end
  end.

(** [readData(addr)]. *)
Definition readData (fuel : nat) (addr : Z) (bus : t) (h : Heap) (w : World) : Outcome Z * World :=
  match blockAt bus h (JS.shr (JS.and addr (addrLimit bus)) (blockShift bus)) with
  | None => (Exc TypeError, w)
  | Some (l, block) =>
      match Memory.readData block with
      | None => (Exc TypeError, w)
      | Some fn => callRead fuel l fn (JS.and addr (blockLimit bus)) h w
      end
  end.

(** [writeData(addr, value)]. *)
Definition writeData (fuel : nat) (addr value : Z) (bus : t) (h : Heap) (w : World)
    : Outcome unit * Heap * World :=
  match blockAt bus h (JS.shr (JS.and addr (addrLimit bus)) (blockShift bus)) with
  | None => (Exc TypeError, h, w)
  | Some (l, block) =>
      match Memory.writeData block with
      | None => (Exc TypeError, h, w)
      | Some fn => callWrite fuel l fn (JS.and addr (blockLimit bus)) value h w
      end
  end.

End Access.

(** *** Vocabulary for the properties of the bus *)

(** The test of [addBlocks] on the block at index [i]: a block is there and
    its type is not NONE. *)
Definition conflictAt (bus : t) (h : Heap) (i : Z) : bool :=
  match blockAt bus h i with
  | Some (_, m) => negb (Memory.type (data m) =? TYPE.NONE)
  | None => false
  end.

(** Index [i] is covered by the request [[addr, addr + size)]: the byte range
    of block [i] meets it. *)
Definition covered (bus : t) (addr size i : Z) : Prop :=
  0 < size /\ i * blockSize bus < addr + size /\ addr < (i + 1) * blockSize bus.

(** Every location in the table names an object of the heap (a reference is
    never dangling in the program). *)
Definition tableValid (bus : t) (h : Heap) : Prop :=
  forall (i : nat) (l : loc), blocks bus !! i = Some (Some l) -> (l < length h)%nat.

(** The block size is a power of two that a 32-bit shift can express. *)
Definition blockGeometry (bus : t) : Prop :=
  0 <= blockShift bus <= 31 /\ blockSize bus = 2 ^ blockShift bus.

(** The geometry a constructor call with an address width of at most 32 bits
    and a power-of-two block size sets up. *)
Definition wellSized (bus : t) : Prop :=
  blockGeometry bus /\
  blockShift bus <= addrWidth bus <= 32 /\
  addrTotal bus = 2 ^ addrWidth bus /\
  addrLimit bus = JS.ToInt32 (2 ^ addrWidth bus - 1) /\
  blockLimit bus = JS.shl 1 (blockShift bus) - 1 /\
  Z.of_nat (length (blocks bus)) = 2 ^ (addrWidth bus - blockShift bus).

(** The trap state of a block at location [l], as the data model has it:
    without a trap the slot holds a method of the block and the trap fields
    are unset; with one, the slot holds the wrapper of this very block, and
    the previous function and the callback are recorded. *)
Definition readSlotsOk (l : loc) (m : Memory.t) : Prop :=
  (nReadTraps m = 0%nat ->
     readPrev m = None /\ readTrap m = None /\ exists f, Memory.readData m = Some (ReadPrim f)) /\
  (nReadTraps m <> 0%nat ->
     Memory.readData m = Some (ReadTrapFn l) /\
     exists f cb, readPrev m = Some (ReadPrim f) /\ readTrap m = Some cb).

Definition writeSlotsOk (l : loc) (m : Memory.t) : Prop :=
  (nWriteTraps m = 0%nat ->
     writePrev m = None /\ writeTrap m = None /\ exists g, Memory.writeData m = Some (WritePrim g)) /\
  (nWriteTraps m <> 0%nat ->
     Memory.writeData m = Some (WriteTrapFn l) /\
     exists g cb, writePrev m = Some (WritePrim g) /\ writeTrap m = Some cb).

Definition heapOk (h : Heap) : Prop :=
  forall l m, h !! l = Some m -> readSlotsOk l m /\ writeSlotsOk l m.

(** Every index of the table holds a block. *)
Definition populated (bus : t) (h : Heap) : Prop :=
  forall i : nat, (i < length (blocks bus))%nat ->
    exists l m, blocks bus !! i = Some (Some l) /\ h !! l = Some m.

(** A block as its constructor leaves it: no trap, the trap fields unset,
    and a method of the block in each slot. *)
Definition untrapped (m : Memory.t) : Prop :=
  nReadTraps m = 0%nat /\ readPrev m = None /\ readTrap m = None /\
  (exists f, Memory.readData m = Some (ReadPrim f)) /\
  nWriteTraps m = 0%nat /\ writePrev m = None /\ writeTrap m = None /\
  (exists g, Memory.writeData m = Some (WritePrim g)).

(** [n] calls of an operation in a row, with the values they return. *)
Fixpoint repeatOp (op : Heap -> Outcome (bool * Heap)) (n : nat) (h : Heap)
    : Outcome (list bool * Heap) :=
  match n with
  | O => Ret ([], h)
  | S n' =>
      match op h with
      | Exc e => Exc e
      | Ret (b, h1) =>
          match repeatOp op n' h1 with
          | Exc e => Exc e
          | Ret (bs, h2) => Ret (b :: bs, h2)
          end
      end
  end.

End Bus.

(** ** X86 constants *)

Module X86.

(** Modelled from the spec: the constants of [x86.js] are not among the
    sources.  The descriptor bits follow the layout the comments of
    [loadProt] and [loadDesc8] give (base bits 16-23 in bits 0-7 of word 2,
    segment type in bits 8-11, descriptor type in bit 12, DPL in bits 13-14,
    present in bit 15); selectors carry the RPL in bits 0-1 and the table bit
    in bit 2; the task state offsets are those of the 80286 TSS. *)
Definition ADDR_INVALID : Z := -1.
Definition MODEL_80386 : Z := 80386.

Module SEL.
Definition RPL : Z := 0x0003.
Definition LDT : Z := 0x0004.
Definition MASK : Z := 0xFFF8.
End SEL.

Module DESC.
Definition LIMIT_OFFSET : Z := 0x0.
Definition BASE_OFFSET : Z := 0x2.
Definition EXT_OFFSET : Z := 0x6.
Definition EXT_LIMIT1619 : Z := 0x000F.
Definition EXT_BIG : Z := 0x0040.
Definition EXT_LIMITPAGES : Z := 0x0080.
Definition EXT_BASE2431 : Z := 0xFF00.
Module ACC.
Definition OFFSET : Z := 0x4.
Definition BASE1623 : Z := 0x00FF.
Definition DPL_MASK : Z := 0x6000.
Definition DPL_SHIFT : Z := 13.
Definition PRESENT : Z := 0x8000.
Module TYPE.
Definition OFFSET : Z := 0x5.
Definition MASK : Z := 0x1F00.
Definition SEG : Z := 0x1000.
Definition CODE : Z := 0x0800.
Definition CODE_EXECONLY : Z := 0x1800.
Definition CODE_READABLE : Z := 0x1A00.
Definition CONFORMING : Z := 0x0400.
Definition EXPDOWN : Z := 0x0400.
Definition WRITABLE : Z := 0x0200.
Definition READABLE : Z := 0x0200.
Definition ACCESSED : Z := 0x0100.
Definition TSS : Z := 0x0100.
Definition LDT : Z := 0x0200.
Definition TSS_BUSY : Z := 0x0300.
Definition GATE_CALL : Z := 0x0400.
Definition GATE_TASK : Z := 0x0500.
Definition GATE_INT : Z := 0x0600.
Definition GATE_TRAP : Z := 0x0700.
End TYPE.
End ACC.
End DESC.

Module PS.
Definition TF : Z := 0x0100.
Definition IF : Z := 0x0200.
Definition NT : Z := 0x4000.
End PS.

Module CR0.
Definition PE : Z := 0x0001.
Definition TS : Z := 0x0008.
End CR0.

Module EXCEPTION.
Definition TS_FAULT : Z := 0x0A.
Definition NP_FAULT : Z := 0x0B.
Definition SS_FAULT : Z := 0x0C.
Definition GP_FAULT : Z := 0x0D.
End EXCEPTION.

Module ERRCODE.
Definition EXT : Z := 0x0001.
Definition IDT : Z := 0x0002.
End ERRCODE.

Module TSS.
Definition PREV_TSS : Z := 0x00.
Definition CPL0_SP : Z := 0x02.
Definition TASK_IP : Z := 0x0E.
Definition TASK_PS : Z := 0x10.
Definition TASK_AX : Z := 0x12.
Definition TASK_CX : Z := 0x14.
Definition TASK_DX : Z := 0x16.
Definition TASK_BX : Z := 0x18.
Definition TASK_SP : Z := 0x1A.
Definition TASK_BP : Z := 0x1C.
Definition TASK_SI : Z := 0x1E.
Definition TASK_DI : Z := 0x20.
Definition TASK_ES : Z := 0x22.
Definition TASK_CS : Z := 0x24.
Definition TASK_SS : Z := 0x26.
Definition TASK_DS : Z := 0x28.
Definition TASK_LDT : Z := 0x2A.
End TSS.

End X86.

(** ** Segment registers *)

Module X86Seg.

(** [X86Seg.ID]. *)
Module ID.
Definition NULL : Z := 0.
Definition CODE : Z := 1.
Definition DATA : Z := 2.
Definition STACK : Z := 3.
Definition TSS : Z := 4.
Definition LDT : Z := 5.
Definition OTHER : Z := 6.
Definition DEBUG : Z := 7.
End ID.

(** The function slots of a segment register, as tags. *)
Inductive LoadFn : Type := loadRealFn | loadProtFn.
Inductive LoadIDTFn : Type := loadIDTRealFn | loadIDTProtFn.
Inductive CheckReadFn : Type :=
| checkReadRealFn | checkReadProtFn | checkReadProtDownFn | checkReadProtDisallowedFn.
Inductive CheckWriteFn : Type :=
| checkWriteRealFn | checkWriteProtFn | checkWriteProtDownFn | checkWriteProtDisallowedFn.

(** [fCall] is [null], [true] or [false]: [None] is [null]. *)
Record t : Type := mk {
  id : Z;
  sName : string;
  sel : Z;
  limit : Z;
  offMax : Z;
  base : Z;
  acc : Z;
  type : Z;
  ext : Z;
  cpl : Z;
  dpl : Z;
  addrDesc : Z;
  dataSize : Z;
  addrSize : Z;
  dataMask : Z;
  addrMask : Z;
  awParms : list Z;
  fCall : option bool;
  fStackSwitch : bool;
  fExpDown : bool;
  load : LoadFn;
  loadIDT : LoadIDTFn;
  checkRead : CheckReadFn;
  checkWrite : CheckWriteFn
}.

(** Field assignments. *)
Definition setSel (s : t) (v : Z) : t :=
  mk (id s) (sName s) v (limit s) (offMax s) (base s) (acc s) (type s) (ext s) (cpl s) (dpl s)
     (addrDesc s) (dataSize s) (addrSize s) (dataMask s) (addrMask s) (awParms s) (fCall s)
     (fStackSwitch s) (fExpDown s) (load s) (loadIDT s) (checkRead s) (checkWrite s).

Definition setBase (s : t) (v : Z) : t :=
  mk (id s) (sName s) (sel s) (limit s) (offMax s) v (acc s) (type s) (ext s) (cpl s) (dpl s)
     (addrDesc s) (dataSize s) (addrSize s) (dataMask s) (addrMask s) (awParms s) (fCall s)
     (fStackSwitch s) (fExpDown s) (load s) (loadIDT s) (checkRead s) (checkWrite s).

(** [this.sel = sel; this.base = base; this.limit = limit; this.offMax =
    offMax; this.acc = acc; this.type = type; this.ext = ext; this.addrDesc =
    addrDesc]. *)
Definition setDesc (s : t) (sel' base' limit' offMax' acc' type' ext' addrDesc' : Z) : t :=
  mk (id s) (sName s) sel' limit' offMax' base' acc' type' ext' (cpl s) (dpl s)
     addrDesc' (dataSize s) (addrSize s) (dataMask s) (addrMask s) (awParms s) (fCall s)
     (fStackSwitch s) (fExpDown s) (load s) (loadIDT s) (checkRead s) (checkWrite s).

Definition setAccType (s : t) (acc' type' : Z) : t :=
  mk (id s) (sName s) (sel s) (limit s) (offMax s) (base s) acc' type' (ext s) (cpl s) (dpl s)
     (addrDesc s) (dataSize s) (addrSize s) (dataMask s) (addrMask s) (awParms s) (fCall s)
     (fStackSwitch s) (fExpDown s) (load s) (loadIDT s) (checkRead s) (checkWrite s).

Definition setPriv (s : t) (cpl' dpl' : Z) : t :=
  mk (id s) (sName s) (sel s) (limit s) (offMax s) (base s) (acc s) (type s) (ext s) cpl' dpl'
     (addrDesc s) (dataSize s) (addrSize s) (dataMask s) (addrMask s) (awParms s) (fCall s)
     (fStackSwitch s) (fExpDown s) (load s) (loadIDT s) (checkRead s) (checkWrite s).

Definition setAddrDesc (s : t) (v : Z) : t :=
  mk (id s) (sName s) (sel s) (limit s) (offMax s) (base s) (acc s) (type s) (ext s) (cpl s) (dpl s)
     v (dataSize s) (addrSize s) (dataMask s) (addrMask s) (awParms s) (fCall s)
     (fStackSwitch s) (fExpDown s) (load s) (loadIDT s) (checkRead s) (checkWrite s).

(** [dataSize], [dataMask], and [addrSize = dataSize], [addrMask = dataMask]. *)
Definition setSizes (s : t) (size mask : Z) : t :=
  mk (id s) (sName s) (sel s) (limit s) (offMax s) (base s) (acc s) (type s) (ext s) (cpl s) (dpl s)
     (addrDesc s) size size mask mask (awParms s) (fCall s)
     (fStackSwitch s) (fExpDown s) (load s) (loadIDT s) (checkRead s) (checkWrite s).

Definition setAwParms (s : t) (v : list Z) : t :=
  mk (id s) (sName s) (sel s) (limit s) (offMax s) (base s) (acc s) (type s) (ext s) (cpl s) (dpl s)
     (addrDesc s) (dataSize s) (addrSize s) (dataMask s) (addrMask s) v (fCall s)
     (fStackSwitch s) (fExpDown s) (load s) (loadIDT s) (checkRead s) (checkWrite s).

Definition setFCall (s : t) (v : option bool) : t :=
  mk (id s) (sName s) (sel s) (limit s) (offMax s) (base s) (acc s) (type s) (ext s) (cpl s) (dpl s)
     (addrDesc s) (dataSize s) (addrSize s) (dataMask s) (addrMask s) (awParms s) v
     (fStackSwitch s) (fExpDown s) (load s) (loadIDT s) (checkRead s) (checkWrite s).

Definition setFStackSwitch (s : t) (v : bool) : t :=
  mk (id s) (sName s) (sel s) (limit s) (offMax s) (base s) (acc s) (type s) (ext s) (cpl s) (dpl s)
     (addrDesc s) (dataSize s) (addrSize s) (dataMask s) (addrMask s) (awParms s) (fCall s)
     v (fExpDown s) (load s) (loadIDT s) (checkRead s) (checkWrite s).

Definition setFExpDown (s : t) (v : bool) : t :=
  mk (id s) (sName s) (sel s) (limit s) (offMax s) (base s) (acc s) (type s) (ext s) (cpl s) (dpl s)
     (addrDesc s) (dataSize s) (addrSize s) (dataMask s) (addrMask s) (awParms s) (fCall s)
     (fStackSwitch s) v (load s) (loadIDT s) (checkRead s) (checkWrite s).

Definition setSlots (s : t) (ld : LoadFn) (li : LoadIDTFn) (cr : CheckReadFn) (cw : CheckWriteFn) : t :=
  mk (id s) (sName s) (sel s) (limit s) (offMax s) (base s) (acc s) (type s) (ext s) (cpl s) (dpl s)
     (addrDesc s) (dataSize s) (addrSize s) (dataMask s) (addrMask s) (awParms s) (fCall s)
     (fStackSwitch s) (fExpDown s) ld li cr cw.

Definition setCheckRead (s : t) (cr : CheckReadFn) : t :=
  setSlots s (load s) (loadIDT s) cr (checkWrite s).

Definition setCheckWrite (s : t) (cw : CheckWriteFn) : t :=
  setSlots s (load s) (loadIDT s) (checkRead s) cw.

(** The segment register objects the code reaches through the CPU, and the
    auxiliary one ([segVER], of id OTHER). *)
Inductive Name : Type := segCS | segDS | segES | segSS | segTSS | segLDT | segVER.

#[global] Instance Name_eq_dec : EqDecision Name.
Proof. solve_decision. Defined.

(** The CPU as the segment code sees it.  [mem] is the linear memory, a byte
    per address. *)
Record CPU : Type := mkCPU {
  model : Z;
  regCR0 : Z;
  regPS : Z;
  regEIP : Z;
  regEAX : Z;
  regECX : Z;
  regEDX : Z;
  regEBX : Z;
  regESP : Z;
  regEBP : Z;
  regESI : Z;
  regEDI : Z;
  addrGDT : Z;
  addrGDTLimit : Z;
  addrIDT : Z;
  addrIDTLimit : Z;
  nStepCycles : Z;
  mem : Z -> Z;
  faults : list (Z * option Z * option bool);
  seg : Name -> t
}.

Definition setSeg (r : Name) (s : t) (c : CPU) : CPU :=
  mkCPU (model c) (regCR0 c) (regPS c) (regEIP c) (regEAX c) (regECX c) (regEDX c) (regEBX c)
        (regESP c) (regEBP c) (regESI c) (regEDI c) (addrGDT c) (addrGDTLimit c) (addrIDT c)
        (addrIDTLimit c) (nStepCycles c) (mem c) (faults c)
        (fun r' => if decide (r' = r) then s else seg c r').

Definition setMem (m : Z -> Z) (c : CPU) : CPU :=
  mkCPU (model c) (regCR0 c) (regPS c) (regEIP c) (regEAX c) (regECX c) (regEDX c) (regEBX c)
        (regESP c) (regEBP c) (regESI c) (regEDI c) (addrGDT c) (addrGDTLimit c) (addrIDT c)
        (addrIDTLimit c) (nStepCycles c) m (faults c) (seg c).

Definition setCR0 (v : Z) (c : CPU) : CPU :=
  mkCPU (model c) v (regPS c) (regEIP c) (regEAX c) (regECX c) (regEDX c) (regEBX c)
        (regESP c) (regEBP c) (regESI c) (regEDI c) (addrGDT c) (addrGDTLimit c) (addrIDT c)
        (addrIDTLimit c) (nStepCycles c) (mem c) (faults c) (seg c).

Definition setPSreg (v : Z) (c : CPU) : CPU :=
  mkCPU (model c) (regCR0 c) v (regEIP c) (regEAX c) (regECX c) (regEDX c) (regEBX c)
        (regESP c) (regEBP c) (regESI c) (regEDI c) (addrGDT c) (addrGDTLimit c) (addrIDT c)
        (addrIDTLimit c) (nStepCycles c) (mem c) (faults c) (seg c).

Definition setEIP (v : Z) (c : CPU) : CPU :=
  mkCPU (model c) (regCR0 c) (regPS c) v (regEAX c) (regECX c) (regEDX c) (regEBX c)
        (regESP c) (regEBP c) (regESI c) (regEDI c) (addrGDT c) (addrGDTLimit c) (addrIDT c)
        (addrIDTLimit c) (nStepCycles c) (mem c) (faults c) (seg c).

Definition setESP (v : Z) (c : CPU) : CPU :=
  mkCPU (model c) (regCR0 c) (regPS c) (regEIP c) (regEAX c) (regECX c) (regEDX c) (regEBX c)
        v (regEBP c) (regESI c) (regEDI c) (addrGDT c) (addrGDTLimit c) (addrIDT c)
        (addrIDTLimit c) (nStepCycles c) (mem c) (faults c) (seg c).

(** [regEAX .. regEDI] as loaded from a task state ([regESP] apart). *)
Definition setGeneral (ax cx dx bx bp si di : Z) (c : CPU) : CPU :=
  mkCPU (model c) (regCR0 c) (regPS c) (regEIP c) ax cx dx bx
        (regESP c) bp si di (addrGDT c) (addrGDTLimit c) (addrIDT c)
        (addrIDTLimit c) (nStepCycles c) (mem c) (faults c) (seg c).

Definition setStepCycles (v : Z) (c : CPU) : CPU :=
  mkCPU (model c) (regCR0 c) (regPS c) (regEIP c) (regEAX c) (regECX c) (regEDX c) (regEBX c)
        (regESP c) (regEBP c) (regESI c) (regEDI c) (addrGDT c) (addrGDTLimit c) (addrIDT c)
        (addrIDTLimit c) v (mem c) (faults c) (seg c).

Definition setFaults (v : list (Z * option Z * option bool)) (c : CPU) : CPU :=
  mkCPU (model c) (regCR0 c) (regPS c) (regEIP c) (regEAX c) (regECX c) (regEDX c) (regEBX c)
        (regESP c) (regEBP c) (regESI c) (regEDI c) (addrGDT c) (addrGDTLimit c) (addrIDT c)
        (addrIDTLimit c) (nStepCycles c) (mem c) v (seg c).

Definition modSeg (r : Name) (f : t -> t) (c : CPU) : CPU := setSeg r (f (seg c r)) c.

(** Modelled from the spec: the memory accessors of the CPU ([getByte],
    [setByte], [getShort], [setShort]) are not among the sources.  Memory is
    read and written byte by byte at the linear address given, words in
    little-endian order. *)
Definition getByte (c : CPU) (a : Z) : Z := Z.land (mem c a) 0xFF.

Definition setByte (a v : Z) (c : CPU) : CPU :=
  setMem (fun a' => if a' =? a then Z.land v 0xFF else mem c a') c.

Definition getShort (c : CPU) (a : Z) : Z :=
  Z.lor (getByte c a) (Z.shiftl (getByte c (a + 1)) 8).

Definition setShort (a v : Z) (c : CPU) : CPU :=
  setByte (a + 1) (Z.shiftr v 8) (setByte a v c).

(** The rest of the CPU the segment code calls is not among the sources:
    the fault dispatcher [X86.fnFault], the stack and the flag and
    instruction pointer accessors.  The segment code is modelled over any
    implementation of them. *)
Record Ext : Type := mkExt {
  fnFault : Z -> option Z -> option bool -> CPU -> CPU;
  popWord : CPU -> Z * CPU;
  pushWord : Z -> CPU -> CPU;
  getSP : CPU -> Z;
  setSP : Z -> CPU -> CPU;
  getSS : CPU -> Z;
  setSS : Z -> bool -> CPU -> CPU;
  getIP : CPU -> Z;
  getPS : CPU -> Z;
  setPS : Z -> CPU -> CPU;
  setCSIP : Z -> Z -> CPU -> CPU;
  getSOWord : Name -> Z -> CPU -> Z * CPU
}.

(** [a[i] = v] on a JavaScript array: an index past the end grows it. *)
Definition arraySet (l : list Z) (i : nat) (v : Z) : list Z :=
  if (i <? length l)%nat then <[i := v]> l
  else l ++ replicate (i - length l) 0 ++ [v].

Section Segments.

Variable ext_ : Ext.

(** The compile-time switch [I386]. *)
Variable I386 : bool.

(** [loadReal(sel, fSuppress)]. *)
Definition loadReal (r : Name) (sel' : Z) (fSuppress : bool) (c : CPU) : Z * CPU :=
  let s1 := setSel (seg c r) (JS.and sel' 0xFFFF) in
  let base' := JS.shl (sel s1) 4 in
  (base', setSeg r (setBase s1 base') c).

(** [checkReadReal], [checkWriteReal]. *)
Definition checkReadReal (r : Name) (off cb : Z) (fSuppress : bool) (c : CPU) : Z * CPU :=
  (JS.or (base (seg c r) + off) 0, c).

Definition checkWriteReal (r : Name) (off cb : Z) (fSuppress : bool) (c : CPU) : Z * CPU :=
  (JS.or (base (seg c r) + off) 0, c).

(** [checkReadProtDisallowed], [checkWriteProtDisallowed]. *)
Definition checkReadProtDisallowed (r : Name) (off cb : Z) (fSuppress : bool) (c : CPU)
    : Z * CPU :=
  (X86.ADDR_INVALID,
   if negb fSuppress then fnFault ext_ X86.EXCEPTION.GP_FAULT (Some 0) None c else c).

Definition checkWriteProtDisallowed (r : Name) (off cb : Z) (fSuppress : bool) (c : CPU)
    : Z * CPU :=
  (X86.ADDR_INVALID,
   if negb fSuppress then fnFault ext_ X86.EXCEPTION.GP_FAULT (Some 0) None c else c).

(** [checkReadProt], [checkReadProtDown], [checkWriteProt],
    [checkWriteProtDown]. *)
Definition checkReadProt (r : Name) (off cb : Z) (fSuppress : bool) (c : CPU) : Z * CPU :=
  if JS.shr off 0 + cb <=? offMax (seg c r) then (JS.or (base (seg c r) + off) 0, c)
  else checkReadProtDisallowed r off cb fSuppress c.

Definition checkReadProtDown (r : Name) (off cb : Z) (fSuppress : bool) (c : CPU) : Z * CPU :=
  if JS.shr off 0 + cb >? offMax (seg c r) then (JS.or (base (seg c r) + off) 0, c)
  else checkReadProtDisallowed r off cb fSuppress c.

Definition checkWriteProt (r : Name) (off cb : Z) (fSuppress : bool) (c : CPU) : Z * CPU :=
  if JS.shr off 0 + cb <=? offMax (seg c r) then (JS.or (base (seg c r) + off) 0, c)
  else checkWriteProtDisallowed r off cb fSuppress c.

Definition checkWriteProtDown (r : Name) (off cb : Z) (fSuppress : bool) (c : CPU) : Z * CPU :=
  if JS.shr off 0 + cb >? offMax (seg c r) then (JS.or (base (seg c r) + off) 0, c)
  else checkWriteProtDisallowed r off cb fSuppress c.

(** [this.checkRead(off, cb, fSuppress)] and [this.checkWrite(..)]: the call
    goes to the function the slot holds. *)
Definition callCheckRead (r : Name) (off cb : Z) (fSuppress : bool) (c : CPU) : Z * CPU :=
  match checkRead (seg c r) with
  | checkReadRealFn => checkReadReal r off cb fSuppress c
  | checkReadProtFn => checkReadProt r off cb fSuppress c
  | checkReadProtDownFn => checkReadProtDown r off cb fSuppress c
  | checkReadProtDisallowedFn => checkReadProtDisallowed r off cb fSuppress c
  end.

Definition callCheckWrite (r : Name) (off cb : Z) (fSuppress : bool) (c : CPU) : Z * CPU :=
  match checkWrite (seg c r) with
  | checkWriteRealFn => checkWriteReal r off cb fSuppress c
  | checkWriteProtFn => checkWriteProt r off cb fSuppress c
  | checkWriteProtDownFn => checkWriteProtDown r off cb fSuppress c
  | checkWriteProtDisallowedFn => checkWriteProtDisallowed r off cb fSuppress c
  end.

(** The access functions [updateMode] chooses in protected mode, from the
    selector and the access rights of the segment. *)
Definition protChecks (s : t) : CheckReadFn * CheckWriteFn * bool :=
  if negb (JS.truthy (JS.and (sel s) (JS.not X86.SEL.RPL))) then
    (checkReadProtDisallowedFn, checkWriteProtDisallowedFn, false)
  else if JS.truthy (JS.and (acc s) X86.DESC.ACC.TYPE.SEG) then
    let cr :=
      if JS.and (acc s) X86.DESC.ACC.TYPE.CODE_READABLE =? X86.DESC.ACC.TYPE.CODE_EXECONLY
      then checkReadProtDisallowedFn else checkReadProtFn in
    let cw :=
      if JS.truthy (JS.and (acc s) X86.DESC.ACC.TYPE.CODE)
         || negb (JS.truthy (JS.and (acc s) X86.DESC.ACC.TYPE.WRITABLE))
      then checkWriteProtDisallowedFn else checkWriteProtFn in
    if JS.and (acc s) (JS.or X86.DESC.ACC.TYPE.CODE X86.DESC.ACC.TYPE.EXPDOWN)
       =? X86.DESC.ACC.TYPE.EXPDOWN
    then
      (match cr with checkReadProtFn => checkReadProtDownFn | _ => cr end,
       match cw with checkWriteProtFn => checkWriteProtDownFn | _ => cw end,
       true)
    else (cr, cw, false)
  else (checkReadProtFn, checkWriteProtFn, false).

(** [updateMode(fLoad, fProt)]; [fProt] is [None] when the argument is left
    out. *)
Definition updateMode (r : Name) (fLoad : bool) (fProt : option bool) (c : CPU) : bool * CPU :=
  let fProt :=
    match fProt with
    | Some b => b
    | None => JS.truthy (JS.and (regCR0 c) X86.CR0.PE)
    end in
  let c := modSeg r (fun s => setFExpDown s false) c in
  if fProt then
    let c := modSeg r (fun s =>
               let '(cr, cw, down) := protChecks s in
               setFExpDown (setSlots s loadProtFn loadIDTProtFn cr cw) down) c in
    if fLoad then
      let s := seg c r in
      let c :=
        if JS.truthy (JS.and (sel s) (JS.not X86.SEL.RPL))
           && negb (addrDesc s =? X86.ADDR_INVALID)
        then
          let addrACC := addrDesc s + X86.DESC.ACC.TYPE.OFFSET in
          setByte addrACC (JS.or (getByte c addrACC) (JS.sar X86.DESC.ACC.TYPE.ACCESSED 8)) c
        else c in
      let c := modSeg r (fun s =>
                 setPriv s (JS.and (sel s) X86.SEL.RPL)
                         (JS.sar (JS.and (acc s) X86.DESC.ACC.DPL_MASK) X86.DESC.ACC.DPL_SHIFT)) c in
      let c := modSeg r (fun s =>
                 if (model c <? X86.MODEL_80386)
                    || negb (JS.truthy (JS.and (ext s) X86.DESC.EXT_BIG))
                 then setSizes s 2 0xFFFF
                 else setSizes s 4 (JS.or 0xFFFFFFFF 0)) c in
      (fProt, c)
    else (fProt, c)
  else
    let c := modSeg r (fun s =>
               setAddrDesc
                 (setPriv (setSlots s loadRealFn loadIDTRealFn checkReadRealFn checkWriteRealFn) 0 0)
                 X86.ADDR_INVALID) c in
    (fProt, c).

(** The segment register [new X86Seg(cpu, id, sName, fProt)] makes. *)
Definition create (r : Name) (id' : Z) (sName' : string) (fProt : option bool) (c : CPU) : CPU :=
  let s := mk id' sName' 0 0xFFFF (0xFFFF + 1) 0 0 0 0 0 0 X86.ADDR_INVALID 2 2 0xFFFF 0xFFFF
              (if id' =? ID.CODE then replicate 32 0 else []) None false false
              loadRealFn loadIDTRealFn checkReadRealFn checkWriteRealFn in
  snd (updateMode r true fProt (setSeg r s c)).

(** What the body of the [while (true)] block of [loadDesc8] ends in: it
    falls to the assignments that install the descriptor, it breaks out with
    [base = addrDesc = ADDR_INVALID], or it returns a value at once. *)
Inductive Exit : Type :=
| Install
| Invalid
| Return (v : Z).

Section WithLoad.

(** [this.load(sel, fSuppress)] for the calls the functions below make on
    segment registers: [None] when the recursion is cut off. *)
Variable loadf : Name -> Z -> bool -> CPU -> option (Z * CPU).

(** [switchTSS(selNew, fNest)]. *)
Definition switchTSS (r : Name) (selNew : Z) (fNest : bool) (c : CPU) : option (bool * CPU) :=
  let addrOld := base (seg c segTSS) in
  let cplOld := cpl (seg c r) in
  let selOld := sel (seg c segTSS) in
  let busy := negb fNest && negb (type (seg c segTSS) =? X86.DESC.ACC.TYPE.TSS_BUSY) in
  if busy then
    Some (false, fnFault ext_ X86.EXCEPTION.TS_FAULT (Some selNew) (Some true) c)
  else
    let c :=
      if negb fNest then
        setShort (addrDesc (seg c segTSS) + X86.DESC.ACC.OFFSET)
                 (JS.or (JS.and (acc (seg c segTSS)) (JS.not X86.DESC.ACC.TYPE.TSS_BUSY))
                        X86.DESC.ACC.TYPE.TSS) c
      else c in
    match loadf segTSS selNew false c with
    | None => None
    | Some (res, c) =>
      if res =? X86.ADDR_INVALID then Some (false, c)
      else
        let addrNew := base (seg c segTSS) in
        if fNest && (type (seg c segTSS) =? X86.DESC.ACC.TYPE.TSS_BUSY) then
          Some (false, fnFault ext_ X86.EXCEPTION.GP_FAULT (Some selNew) (Some true) c)
        else
          let c :=
            if fNest then
              let acc' := JS.or (acc (seg c segTSS)) X86.DESC.ACC.TYPE.TSS_BUSY in
              let c := modSeg segTSS (fun s => setAccType s acc' (type s)) c in
              let c := setShort (addrDesc (seg c segTSS) + X86.DESC.ACC.OFFSET) acc' c in
              modSeg segTSS (fun s => setAccType s (acc s) X86.DESC.ACC.TYPE.TSS_BUSY) c
            else c in
          let c := setShort (addrOld + X86.TSS.TASK_IP) (getIP ext_ c) c in
          let c := setShort (addrOld + X86.TSS.TASK_PS) (getPS ext_ c) c in
          let c := setShort (addrOld + X86.TSS.TASK_AX) (regEAX c) c in
          let c := setShort (addrOld + X86.TSS.TASK_CX) (regECX c) c in
          let c := setShort (addrOld + X86.TSS.TASK_DX) (regEDX c) c in
          let c := setShort (addrOld + X86.TSS.TASK_BX) (regEBX c) c in
          let c := setShort (addrOld + X86.TSS.TASK_SP) (getSP ext_ c) c in
          let c := setShort (addrOld + X86.TSS.TASK_BP) (regEBP c) c in
          let c := setShort (addrOld + X86.TSS.TASK_SI) (regESI c) c in
          let c := setShort (addrOld + X86.TSS.TASK_DI) (regEDI c) c in
          let c := setShort (addrOld + X86.TSS.TASK_ES) (sel (seg c segES)) c in
          let c := setShort (addrOld + X86.TSS.TASK_CS) (sel (seg c segCS)) c in
          let c := setShort (addrOld + X86.TSS.TASK_SS) (sel (seg c segSS)) c in
          let c := setShort (addrOld + X86.TSS.TASK_DS) (sel (seg c segDS)) c in
          let c := setPS ext_ (JS.or (getShort c (addrNew + X86.TSS.TASK_PS))
                                     (if fNest then X86.PS.NT else 0)) c in
          let c := setGeneral (getShort c (addrNew + X86.TSS.TASK_AX))
                              (getShort c (addrNew + X86.TSS.TASK_CX))
                              (getShort c (addrNew + X86.TSS.TASK_DX))
                              (getShort c (addrNew + X86.TSS.TASK_BX))
                              (getShort c (addrNew + X86.TSS.TASK_BP))
                              (getShort c (addrNew + X86.TSS.TASK_SI))
                              (getShort c (addrNew + X86.TSS.TASK_DI)) c in
          match loadf segES (getShort c (addrNew + X86.TSS.TASK_ES)) false c with
          | None => None
          | Some (_, c) =>
          match loadf segDS (getShort c (addrNew + X86.TSS.TASK_DS)) false c with
          | None => None
          | Some (_, c) =>
            let c := setCSIP ext_ (getShort c (addrNew + X86.TSS.TASK_IP))
                                  (getShort c (addrNew + X86.TSS.TASK_CS)) c in
            let '(offSP, offSS) :=
              if cpl (seg c r) <? cplOld then
                let offSP := JS.shl (cpl (seg c r)) 2 + X86.TSS.CPL0_SP in (offSP, offSP + 2)
              else (X86.TSS.TASK_SP, X86.TSS.TASK_SS) in
            let c := setSS ext_ (getShort c (addrNew + offSS)) true c in
            let c := setSP ext_ (getShort c (addrNew + offSP)) c in
            match loadf segLDT (getShort c (addrNew + X86.TSS.TASK_LDT)) false c with
            | None => None
            | Some (_, c) =>
              let c := if fNest then setShort (addrNew + X86.TSS.PREV_TSS) selOld c else c in
              Some (true, setCR0 (JS.or (regCR0 c) X86.CR0.TS) c)
            end
          end
          end
    end.

(** The copy of [nWords] parameters from the old stack into [awParms]. *)
Fixpoint copyParms (r : Name) (nWords : nat) (i : nat) (regSP : Z) (c : CPU) : nat * CPU :=
  match nWords with
  | O => (i, c)
  | S n =>
      let '(w, c) := getSOWord ext_ segSS regSP c in
      let c := modSeg r (fun s => setAwParms s (arraySet (awParms s) i w)) c in
      copyParms r n (S i) (regSP + 2) c
  end.

(** [while (i) cpu.pushWord(this.awParms[--i])]. *)
Fixpoint pushParms (r : Name) (i : nat) (c : CPU) : CPU :=
  match i with
  | O => c
  | S i' => pushParms r i' (pushWord ext_ (nth i' (awParms (seg c r)) 0) c)
  end.

(** The gate transfer of [loadDesc8]: the branch [if (fGate)]. *)
Definition throughGate (r : Name) (sel' base' limit' acc' rpl dpl' regPSMask nFaultError : Z)
    (fCall' : option bool) (fSuppress : bool) (c : CPU) : option (Exit * CPU) :=
  let selCode := JS.and base' 0xFFFF in
  if rpl <=? dpl' then
    let cplPrev := cpl (seg c r) in
    match loadf r selCode true c with
    | None => None
    | Some (res, c) =>
      if res =? X86.ADDR_INVALID then Some (Invalid, c)
      else
        let c := setEIP limit' c in
        if cpl (seg c r) <? cplPrev then
          match fCall' with
          | Some true =>
              let regSP := getSP ext_ c in
              let '(i, c) := copyParms r (Z.to_nat (JS.and acc' 0x1F)) 0 regSP c in
              let addrTSS := base (seg c segTSS) in
              let offSP := JS.shl (cpl (seg c r)) 2 + X86.TSS.CPL0_SP in
              let offSS := offSP + 2 in
              let regSSPrev := getSS ext_ c in
              let regSPPrev := getSP ext_ c in
              let c := setSS ext_ (getShort c (addrTSS + offSS)) true c in
              let c := setSP ext_ (getShort c (addrTSS + offSP)) c in
              let c := pushWord ext_ regSSPrev c in
              let c := pushWord ext_ regSPPrev c in
              let c := pushParms r i c in
              let c := modSeg r (fun s => setFStackSwitch s true) c in
              let c := setPSreg (JS.and (regPS c) regPSMask) c in
              Some (Return (base (seg c r)), c)
          | _ => Some (Invalid, c)
          end
        else
          let c := setPSreg (JS.and (regPS c) regPSMask) c in
          Some (Return (base (seg c r)), c)
    end
  else
    Some (Invalid,
          if negb fSuppress
          then fnFault ext_ X86.EXCEPTION.GP_FAULT (Some nFaultError) (Some true) c
          else c).

(** The body of the [while (true)] block of [loadDesc8] for a CODE segment
    register. *)
Definition loadCode (r : Name) (sel' base' limit' acc' type' : Z) (fSuppress : bool) (c : CPU)
    : option (Exit * CPU) :=
  let selMasked := JS.and sel' X86.SEL.MASK in
  let c := modSeg r (fun s => setFStackSwitch s false) c in
  let fCall' := fCall (seg c r) in
  let rpl := JS.and sel' X86.SEL.RPL in
  let dpl' := JS.sar (JS.and acc' X86.DESC.ACC.DPL_MASK) X86.DESC.ACC.DPL_SHIFT in
  if JS.truthy selMasked && negb (JS.truthy (JS.and acc' X86.DESC.ACC.PRESENT)) then
    Some (Invalid,
          if negb fSuppress then fnFault ext_ X86.EXCEPTION.NP_FAULT (Some sel') None c else c)
  else if type' >=? X86.DESC.ACC.TYPE.CODE_EXECONLY then
    let rpl := JS.and sel' X86.SEL.RPL in
    if rpl >? cpl (seg c r) then
      if negb (bool_decide (fCall' = Some false))
         && negb ((dpl' =? cpl (seg c r))
                  || (JS.truthy (JS.and acc' X86.DESC.ACC.TYPE.CONFORMING)
                      && (dpl' <=? cpl (seg c r))))
      then Some (Invalid, c)
      else
        let '(regSP, c) := popWord ext_ c in
        let '(ss, c) := popWord ext_ c in
        let c := setSS ext_ ss true c in
        let c := setSP ext_ regSP c in
        let c := modSeg r (fun s => setFStackSwitch s true) c in
        Some (Install, c)
    else Some (Install, c)
  else if type' =? X86.DESC.ACC.TYPE.GATE_CALL then
    let rpl := if rpl <? cpl (seg c r) then cpl (seg c r) else rpl in
    throughGate r sel' base' limit' acc' rpl dpl' (JS.not 0) sel' fCall' fSuppress c
  else if type' =? X86.DESC.ACC.TYPE.GATE_INT then
    throughGate r sel' base' limit' acc' rpl dpl'
                (JS.not (JS.or (JS.or X86.PS.NT X86.PS.TF) X86.PS.IF))
                (JS.or sel' X86.ERRCODE.EXT) fCall' fSuppress c
  else if type' =? X86.DESC.ACC.TYPE.GATE_TRAP then
    throughGate r sel' base' limit' acc' rpl dpl'
                (JS.not (JS.or X86.PS.NT X86.PS.TF))
                (JS.or sel' X86.ERRCODE.EXT) fCall' fSuppress c
  else if type' =? X86.DESC.ACC.TYPE.GATE_TASK then
    match switchTSS r (JS.and base' 0xFFFF) true c with
    | None => None
    | Some (false, c) => Some (Invalid, c)
    | Some (true, c) => Some (Return (base (seg c r)), c)
    end
  else
    Some (Invalid,
          if negb fSuppress then fnFault ext_ X86.EXCEPTION.GP_FAULT (Some sel') (Some true) c
          else c).

(** The body of the block for the other segment registers. *)
Definition loadOther (r : Name) (sel' acc' type' : Z) (fSuppress : bool) (c : CPU) : Exit * CPU :=
  let selMasked := JS.and sel' X86.SEL.MASK in
  let fault nFault fHalt c :=
    if negb fSuppress then fnFault ext_ nFault (Some sel') fHalt c else c in
  let id' := id (seg c r) in
  if id' =? ID.DATA then
    if JS.truthy selMasked then
      if negb (JS.truthy (JS.and acc' X86.DESC.ACC.PRESENT)) then
        (Invalid, fault X86.EXCEPTION.NP_FAULT None c)
      else if (type' <? X86.DESC.ACC.TYPE.SEG)
              || (JS.and type' (JS.or X86.DESC.ACC.TYPE.CODE X86.DESC.ACC.TYPE.READABLE)
                  =? X86.DESC.ACC.TYPE.CODE)
      then (Invalid, fault X86.EXCEPTION.GP_FAULT (Some (JS.truthy acc')) c)
      else (Install, c)
    else (Install, c)
  else if id' =? ID.STACK then
    if negb (JS.truthy (JS.and acc' X86.DESC.ACC.PRESENT)) then
      (Invalid, fault X86.EXCEPTION.SS_FAULT None c)
    else if negb (JS.truthy selMasked)
            || (type' <? X86.DESC.ACC.TYPE.SEG)
            || negb (JS.and type' (JS.or X86.DESC.ACC.TYPE.CODE X86.DESC.ACC.TYPE.WRITABLE)
                     =? X86.DESC.ACC.TYPE.WRITABLE)
    then (Invalid, fault X86.EXCEPTION.GP_FAULT (Some true) c)
    else (Install, c)
  else if id' =? ID.TSS then
    if negb (JS.truthy selMasked)
       || (negb (type' =? X86.DESC.ACC.TYPE.TSS) && negb (type' =? X86.DESC.ACC.TYPE.TSS_BUSY))
    then (Invalid, fault X86.EXCEPTION.TS_FAULT (Some true) c)
    else (Install, c)
  else if id' =? ID.OTHER then
    if negb (JS.truthy (JS.and acc' X86.DESC.ACC.TYPE.SEG))
       && (type' >? X86.DESC.ACC.TYPE.TSS_BUSY)
    then (Invalid, c)
    else (Install, c)
  else (Install, c).

(** [loadDesc8(addrDesc, sel, fSuppress)].  The build modelled is the one
    without DEBUG: [cpu.assert] and [messageSeg] do nothing there. *)
Definition loadDesc8 (r : Name) (addrDesc' sel' : Z) (fSuppress : bool) (c : CPU)
    : option (Z * CPU) :=
  let limit' := getShort c (addrDesc' + X86.DESC.LIMIT_OFFSET) in
  let acc' := getShort c (addrDesc' + X86.DESC.ACC.OFFSET) in
  let type' := JS.and acc' X86.DESC.ACC.TYPE.MASK in
  let base' := JS.or (getShort c (addrDesc' + X86.DESC.BASE_OFFSET))
                     (JS.shl (JS.and acc' X86.DESC.ACC.BASE1623) 16) in
  let ext' := getShort c (addrDesc' + X86.DESC.EXT_OFFSET) in
  let '(base', limit') :=
    if I386 && (model c >=? X86.MODEL_80386) then
      let base' := JS.or base' (JS.shl (JS.and ext' X86.DESC.EXT_BASE2431) 16) in
      let limit' := JS.or limit' (JS.shl (JS.and ext' X86.DESC.EXT_LIMIT1619) 16) in
      let limit' := if JS.truthy (JS.and ext' X86.DESC.EXT_LIMITPAGES)
                    then JS.or (JS.shl limit' 12) 0xFFF else limit' in
      (base', limit')
    else (base', limit') in
  let body :=
    if id (seg c r) =? ID.CODE
    then loadCode r sel' base' limit' acc' type' fSuppress c
    else Some (loadOther r sel' acc' type' fSuppress c) in
  match body with
  | None => None
  | Some (Return v, c) => Some (v, c)
  | Some (Invalid, c) => Some (X86.ADDR_INVALID, c)
  | Some (Install, c) =>
      let c := modSeg r (fun s =>
                 setDesc s sel' base' limit' (JS.shr limit' 0 + 1) acc' type' ext' addrDesc') c in
      let '(_, c) := updateMode r true None c in
      Some (base', c)
  end.

(** [loadProt(sel, fSuppress)].  In the test [(addrDTLimit - addrDesc)|0 >=
    7] the comparison binds tighter than [|]: the value tested is
    [(addrDTLimit - addrDesc) | (0 >= 7)]. *)
Definition loadProt (r : Name) (sel' : Z) (fSuppress : bool) (c : CPU) : option (Z * CPU) :=
  let sel' := JS.and sel' 0xFFFF in
  let '(addrDT, addrDTLimit) :=
    if negb (JS.truthy (JS.and sel' X86.SEL.LDT)) then (addrGDT c, addrGDTLimit c)
    else
      let addrDT := base (seg c segLDT) in
      (addrDT, JS.or (addrDT + limit (seg c segLDT)) 0) in
  if negb fSuppress || JS.truthy addrDT then
    let addrDesc' := JS.or (addrDT + JS.and sel' X86.SEL.MASK) 0 in
    if JS.truthy (JS.or (addrDTLimit - addrDesc') (if 0 >=? 7 then 1 else 0)) then
      let c := if negb fSuppress then setStepCycles (nStepCycles c - 15) c else c in
      loadDesc8 r addrDesc' sel' fSuppress c
    else
      Some (X86.ADDR_INVALID,
            if negb fSuppress then fnFault ext_ X86.EXCEPTION.GP_FAULT (Some sel') None c else c)
  else Some (X86.ADDR_INVALID, c).

(** [this.load(sel, fSuppress)]: the call goes to the function the slot
    holds. *)
Definition callLoad (r : Name) (sel' : Z) (fSuppress : bool) (c : CPU) : option (Z * CPU) :=
  match load (seg c r) with
  | loadRealFn => Some (loadReal r sel' fSuppress c)
  | loadProtFn => loadProt r sel' fSuppress c
  end.

End WithLoad.

(** [load] with its recursion (a gate leads to a further [load]) bounded by
    [fuel]. *)
Fixpoint loadN (fuel : nat) (r : Name) (sel' : Z) (fSuppress : bool) (c : CPU)
    : option (Z * CPU) :=
  match fuel with
  | O => None
  | S fuel' => callLoad (loadN fuel') r sel' fSuppress c
  end.

End Segments.

(** *** Vocabulary for the properties of segment registers *)

(** The mode [updateMode] selects: its argument, or the PE bit of CR0 when
    the argument is left out. *)
Definition inProtectedMode (fProt : option bool) (c : CPU) : bool :=
  match fProt with
  | Some b => b
  | None => JS.truthy (JS.and (regCR0 c) X86.CR0.PE)
  end.

(** A selector is null when its bits other than the RPL are zero. *)
Definition nonNull (sel' : Z) : bool := JS.truthy (JS.and sel' (JS.not X86.SEL.RPL)).

(** A data descriptor with EXPDOWN set and CODE clear, as [updateMode] tests
    it; and one that is writable besides. *)
Definition expandDown (acc' : Z) : Prop :=
  JS.truthy (JS.and acc' X86.DESC.ACC.TYPE.SEG) = true /\
  JS.and acc' (JS.or X86.DESC.ACC.TYPE.CODE X86.DESC.ACC.TYPE.EXPDOWN)
    = X86.DESC.ACC.TYPE.EXPDOWN.

Definition writable (acc' : Z) : Prop :=
  JS.truthy (JS.and acc' X86.DESC.ACC.TYPE.WRITABLE) = true.

(** The ACCESSED bit of the descriptor at [addrDesc'], in memory: bit 0 of
    the byte at offset 5 ([ACCESSED >> 8] is 1). *)
Definition accessedInMemory (c : CPU) (addrDesc' : Z) : Prop :=
  Z.testbit (getByte c (addrDesc' + X86.DESC.ACC.TYPE.OFFSET)) 0 = true.

(** The type field of the descriptor at [addrDesc']. *)
Definition descType (c : CPU) (addrDesc' : Z) : Z :=
  JS.and (getShort c (addrDesc' + X86.DESC.ACC.OFFSET)) X86.DESC.ACC.TYPE.MASK.

(** [loadDesc8] installs the descriptor it is given (rather than going
    through a gate to another one, or rejecting the type) for every segment
    register but CODE, and for CODE when the descriptor is a code segment. *)
Definition installs (r : Name) (c : CPU) (addrDesc' : Z) : Prop :=
  id (seg c r) <> ID.CODE \/ X86.DESC.ACC.TYPE.CODE_EXECONLY <= descType c addrDesc'.

End X86Seg.

(** ** The debugger's breakpoints *)

Module DbgIO.

(** The debugger, as far as the breakpoint code goes.  [regPC] is the CPU's
    register, [fRunning] the clock of the [Time] device and [output] what
    [println] has printed.  A table slot is [None] where the array holds
    [undefined] (a cleared entry, or a hole). *)
Record t : Type := mk {
  aBreakReadAddr : list (option Z);
  aBreadWriteAddr : list (option Z);
  historyBuffer : list (option Z);
  historyNext : Z;
  fBreakException : bool;
  regPC : Z;
  fRunning : bool;
  output : list Message
}.

Definition setReadTable (d : t) (l : list (option Z)) : t :=
  mk l (aBreadWriteAddr d) (historyBuffer d) (historyNext d) (fBreakException d) (regPC d)
     (fRunning d) (output d).

Definition setWriteTable (d : t) (l : list (option Z)) : t :=
  mk (aBreakReadAddr d) l (historyBuffer d) (historyNext d) (fBreakException d) (regPC d)
     (fRunning d) (output d).

Definition setHistory (d : t) (l : list (option Z)) (next : Z) : t :=
  mk (aBreakReadAddr d) (aBreadWriteAddr d) l next (fBreakException d) (regPC d)
     (fRunning d) (output d).

(** The callbacks [this.readBusCheck] and [this.writeBusCheck], by identity. *)
Definition readBusCheck : nat := 1.
Definition writeBusCheck : nat := 2.

(** [a[i]], [a[i] = v] (for [i >= 0]) and [a.indexOf(x)] on an array of
    numbers with holes.  [indexOf] compares with [===]: a hole equals no
    number, and [NaN] equals nothing. *)
Definition arrayGet (l : list (option Z)) (i : Z) : option Z :=
  if i <? 0 then None
  else match l !! Z.to_nat i with
       | Some e => e
       | None => None
       end.

Definition arrayPut (l : list (option Z)) (i : Z) (v : Z) : list (option Z) :=
  if i <? Z.of_nat (length l) then <[Z.to_nat i := Some v]> l
  else l ++ replicate (Z.to_nat i - length l) None ++ [Some v].

Fixpoint indexOfFrom (l : list (option Z)) (x : Z) (i : Z) : Z :=
  match l with
  | [] => -1
  | e :: l' => if bool_decide (e = Some x) then i else indexOfFrom l' x (i + 1)
  end.

Definition indexOf (l : list (option Z)) (x : option Z) : Z :=
  match x with
  | Some x => indexOfFrom l x 0
  | None => -1
  end.

(** Modelled from the spec: [time.stop()] of the [Time] device, which is not
    among the sources, stops the clock; [println] prints a line. *)
Definition timeStop (d : t) : t :=
  mk (aBreakReadAddr d) (aBreadWriteAddr d) (historyBuffer d) (historyNext d)
     (fBreakException d) (regPC d) false (output d).

Definition println (message : Message) (d : t) : t :=
  mk (aBreakReadAddr d) (aBreadWriteAddr d) (historyBuffer d) (historyNext d)
     (fBreakException d) (regPC d) (fRunning d) (output d ++ [message]).

(** [stopCPU(message)]. *)
Definition stopCPU (message : Message) (d : t) : Outcome unit * t :=
  if fBreakException d then (Exc (Thrown message), d)
  else (Ret tt, timeStop (println message d)).

(** [checkBusRead(addr, value)]. *)
Definition checkBusRead (addr : option Z) (value : Z) (d : t) : Outcome unit * t :=
  let d :=
    if negb (length (historyBuffer d) =? 0)%nat && bool_decide (addr = Some (regPC d)) then
      let buffer := arrayPut (historyBuffer d) (historyNext d) (regPC d) in
      let next := historyNext d + 1 in
      setHistory d buffer (if next =? Z.of_nat (length buffer) then 0 else next)
    else d in
  if indexOf (aBreakReadAddr d) addr >=? 0 then stopCPU (MsgReadBreak addr) d
  else (Ret tt, d).

(** [checkBusWrite(addr, value)]. *)
Definition checkBusWrite (addr : option Z) (value : Z) (d : t) : Outcome unit * t :=
  if indexOf (aBreadWriteAddr d) addr >=? 0 then stopCPU (MsgWriteBreak value addr) d
  else (Ret tt, d).

(** The debugger's callbacks as the bus calls them. *)
Definition invoke (cb : nat) (addr : option Z) (value : Z) (h : list Memory.t) (d : t)
    : Outcome unit * t :=
  if (cb =? readBusCheck)%nat then checkBusRead addr value d
  else if (cb =? writeBusCheck)%nat then checkBusWrite addr value d
  else (Ret tt, d).

(** [enableBreak(index, enable)] for [index >= -1]. *)
Definition enableBreak1 (index : Z) (enable : bool) (d : t) : list Message * t :=
  let '(result, d) :=
    if index >=? 0 then
      let inWrite := index >=? Z.of_nat (length (aBreakReadAddr d)) in
      let i := if inWrite then index - Z.of_nat (length (aBreakReadAddr d)) else index in
      let cmd := if inWrite then "bw" else "br" in
      let aBreakAddr := if inWrite then aBreadWriteAddr d else aBreakReadAddr d in
      if i >=? 0 then
        let action := if enable then "enabled" else "disabled" in
        let '(success, addr, addrPrint) :=
          match arrayGet aBreakAddr i with
          | Some a =>
              if a <? NumIO.TWO_POW32 then
                (negb enable, (if enable then a else JS.shr a 0 + NumIO.TWO_POW32), a)
              else
                let addrPrint := JS.or (a - NumIO.TWO_POW32) 0 in
                (enable, (if enable then addrPrint else a), addrPrint)
          | None => (enable, 0, 0)
          end in
        if negb success then ([MsgAlready index cmd addrPrint action], d)
        else
          ([MsgChanged index cmd addrPrint action],
           if inWrite then setWriteTable d (arrayPut aBreakAddr i addr)
           else setReadTable d (arrayPut aBreakAddr i addr))
      else ([], d)
    else ([], d) in
  (match result with [] => [MsgMissingIndex] | _ => result end, d).

(** The loop of [enumBreak] over one table, from slot [i]: it calls [func]
    for every slot that is not [undefined].  The table is read again at every
    turn; [n] bounds the turns by the table's length, which [enableBreak]
    keeps. *)
Fixpoint enumBreakAddr (func : Z -> t -> list Message * t) (write : bool) (index : Z)
    (n : nat) (i : Z) (d : t) : list Message * t :=
  match n with
  | O => ([], d)
  | S n' =>
      let table := if write then aBreadWriteAddr d else aBreakReadAddr d in
      if i <? Z.of_nat (length table) then
        let '(r1, d) :=
          match arrayGet table i with
          | Some _ => func (index + i) d
          | None => ([], d)
          end in
        let '(r2, d) := enumBreakAddr func write index n' (i + 1) d in
        (r1 ++ r2, d)
      else ([], d)
  end.

(** [enumBreak(func, option)], with [option] already given to [func]. *)
Definition enumBreak (func : Z -> t -> list Message * t) (d : t) : list Message * t :=
  let '(r1, d) := enumBreakAddr func false 0 (length (aBreakReadAddr d)) 0 d in
  let '(r2, d) :=
    enumBreakAddr func true (Z.of_nat (length (aBreakReadAddr d)))
                  (length (aBreadWriteAddr d)) 0 d in
  (r1 ++ r2, d).

(** [enableBreak(index, enable)]. *)
Definition enableBreak (index : Z) (enable : bool) (d : t) : list Message * t :=
  if index <? -1 then enumBreak (fun i => enableBreak1 i enable) d
  else enableBreak1 index enable d.

(** The search for a free slot in [addBreak]. *)
Fixpoint firstFree (l : list (option Z)) (i : Z) : Z :=
  match l with
  | [] => i
  | None :: _ => i
  | Some _ :: l' => firstFree l' (i + 1)
  end.

(** [addBreak(aBreakAddr, address)]: the index and the table afterwards. *)
Definition addBreak (aBreakAddr : list (option Z)) (off : Z) : Z * list (option Z) :=
  let i := indexOf aBreakAddr (Some off) in
  let i := if i <? 0 then indexOf aBreakAddr (Some (JS.shr off 0 + NumIO.TWO_POW32)) else i in
  if i >=? 0 then (- (i + 1), aBreakAddr)
  else
    let i := firstFree aBreakAddr 0 in
    (i, arrayPut aBreakAddr i off).

(** [setBreak(address, write)] on the debugger and its memory bus; [address]
    is [None] when none is given, else the offset [address.off]. *)
Definition setBreak (address : option Z) (write : bool) (bus : Bus.t)
    (d : t) (h : list Memory.t) : Outcome (list Message) * t * list Memory.t :=
  match address with
  | None => (Ret [MsgMissingAddress], d, h)
  | Some off =>
      let cmd := if write then "bw" else "br" in
      let '(i, table) := addBreak (if write then aBreadWriteAddr d else aBreakReadAddr d) off in
      let d := if write then setWriteTable d table else setReadTable d table in
      if i >=? 0 then
        match (if write then Bus.trapWrite off writeBusCheck bus h
               else Bus.trapRead off readBusCheck bus h) with
        | Exc e => (Exc e, d, h)
        | Ret (_, h) =>
            let i := if write then i + Z.of_nat (length (aBreakReadAddr d)) else i in
            (Ret [MsgSet i cmd off], d, h)
        end
      else (Ret [MsgAlreadySet cmd off], d, h)
  end.

(** The local function [isEmpty] of [clearBreak]: no slot of the table holds
    an address. *)
Definition isEmpty (aBreakAddr : list (option Z)) : bool :=
  forallb (fun e => match e with None => true | Some _ => false end) aBreakAddr.

(** [clearBreak(index)] for [index >= -1], on the debugger and its memory
    bus.  The slot is set to [undefined] only if the bus took the trap off;
    when the last write breakpoint goes, the table of write breakpoints is
    replaced by an empty array, and so is the table of read breakpoints if
    it holds no address either. *)
Definition clearBreak1 (index : Z) (bus : Bus.t) (d : t) (h : list Memory.t)
    : Outcome (list Message) * t * list Memory.t :=
  let inWrite := index >=? Z.of_nat (length (aBreakReadAddr d)) in
  let i := if inWrite then index - Z.of_nat (length (aBreakReadAddr d)) else index in
  let aBreakAddr := if inWrite then aBreadWriteAddr d else aBreakReadAddr d in
  if i >=? 0 then
    match arrayGet aBreakAddr i with
    | Some addr =>
        if negb inWrite then
          match Bus.untrapRead addr readBusCheck bus h with
          | Exc e => (Exc e, d, h)
          | Ret (true, h) =>
              (Ret [MsgCleared index "br" addr],
               setReadTable d (<[Z.to_nat i := None]> (aBreakReadAddr d)), h)
          | Ret (false, h) => (Ret [MsgInvalidAddress addr], d, h)
          end
        else
          match Bus.untrapWrite addr writeBusCheck bus h with
          | Exc e => (Exc e, d, h)
          | Ret (true, h) =>
              let d := setWriteTable d (<[Z.to_nat i := None]> (aBreadWriteAddr d)) in
              let d :=
                if isEmpty (aBreadWriteAddr d) then
                  let d := setWriteTable d [] in
                  if isEmpty (aBreakReadAddr d) then setReadTable d [] else d
                else d in
              (Ret [MsgCleared index "bw" addr], d, h)
          | Ret (false, h) => (Ret [MsgInvalidAddress addr], d, h)
          end
    | None => (Ret [MsgInvalidIndex index], d, h)
    end
  else (Ret [MsgMissingIndex], d, h).

(** *** Vocabulary for the properties of breakpoints *)

(** A breakpoint's address as the tables hold it when it is set: a 32-bit
    integer in JavaScript's sense (the debugger's parser truncates addresses
    to the signed width of the bus). *)
Definition int32 (a : Z) : Prop := - 2 ^ 31 <= a < 2 ^ 31.

(** An address a bus hands to a trap callback: a number of at most 32 bits
    (signed or unsigned), or [NaN]. *)
Definition busAddress (x : option Z) : Prop :=
  match x with
  | Some x => - 2 ^ 31 <= x < 2 ^ 32
  | None => True
  end.

(** The table of read or of write breakpoints, the index by which the
    debugger's commands name slot [i] of it, and the callback that consults
    it. *)
Definition tableOf (write : bool) (d : t) : list (option Z) :=
  if write then aBreadWriteAddr d else aBreakReadAddr d.

Definition slotIndex (write : bool) (d : t) (i : nat) : Z :=
  if write then Z.of_nat (length (aBreakReadAddr d)) + Z.of_nat i else Z.of_nat i.

Definition check (write : bool) (addr : option Z) (value : Z) (d : t) : Outcome unit * t :=
  invoke (if write then writeBusCheck else readBusCheck) addr value [] d.

(** A run of bus accesses, each reported to the callback as (address,
    value); the run ends early if a callback throws. *)
Fixpoint accesses (write : bool) (l : list (option Z * Z)) (d : t) : Outcome unit * t :=
  match l with
  | [] => (Ret tt, d)
  | (x, value) :: l' =>
      match check write x value d with
      | (Ret _, d') => accesses write l' d'
      | r => r
      end
  end.

(** No slot other than [i] holds the address [x]. *)
Definition noOtherEntry (l : list (option Z)) (i : nat) (x : option Z) : Prop :=
  forall (j : nat) (y : Z), j <> i -> l !! j = Some (Some y) -> x <> Some y.

(** The clock has been stopped, or the break has been thrown. *)
Definition stopped (r : Outcome unit * t) : Prop :=
  match r with
  | (Ret _, d) => fRunning d = false
  | (Exc _, _) => True
  end.

(** The callback returned and left the clock as it was. *)
Definition notStopped (d : t) (r : Outcome unit * t) : Prop :=
  exists d', r = (Ret tt, d') /\ fRunning d' = fRunning d /\ output d' = output d.

End DbgIO.

(** ** A small machine for examples

    A bus of 4 KB in blocks of 1 KB, built by the constructor over
    [Memory.create]; then 1 KB of RAM at 0x400. *)

Module Demo.

Definition config : Bus.Config := Bus.mkConfig (Some 12) (Some 8) (Some 1024).

Definition noBus : Bus.t := Bus.mk "" "" 0 0 0 0 0 0 0 0 [].

(** The bus as constructed: every index holds the shared NONE block. *)
Definition fresh : Bus.t * list Memory.t :=
  match Bus.constructor Memory.create "pc" "bus" config [] with
  | Ret s => s
  | Exc _ => (noBus, [])
  end.

(** After [addBlocks(0x400, 1024, RAM)]. *)
Definition withRAM : Bus.t * list Memory.t :=
  match Bus.addBlocks Memory.create 0x400 1024 Memory.TYPE.RAM None (fst fresh) (snd fresh) with
  | Ret (_, bus, h) => (bus, h)
  | Exc _ => (noBus, [])
  end.

Definition bus : Bus.t := fst withRAM.
Definition heap : list Memory.t := snd withRAM.

(** A callback world that records the calls: callback, address, value. *)
Definition record (cb : nat) (a : option Z) (v : Z) (h : list Memory.t)
    (w : list (nat * option Z * Z)) : Outcome unit * list (nat * option Z * Z) :=
  (Ret tt, w ++ [(cb, a, v)]).

(** The blocks after [trapRead(0x450, 7)] and [trapWrite(0x450, 7)]. *)
Definition trapped : list Memory.t :=
  match Bus.trapRead 0x450 7 bus heap with
  | Ret (_, h) =>
      match Bus.trapWrite 0x450 7 bus h with
      | Ret (_, h') => h'
      | Exc _ => h
      end
  | Exc _ => heap
  end.

(** A debugger with no breakpoints and the clock running; then the debugger
    and the blocks after [setBreak] of a read breakpoint at 0x450. *)
Definition dbg : DbgIO.t := DbgIO.mk [] [] [] 0 false 0 true [].

Definition withBreak : DbgIO.t * list Memory.t :=
  match DbgIO.setBreak (Some 0x450) false bus dbg heap with
  | (_, d, h) => (d, h)
  end.

(** A stand-in for the CPU beside the segment registers: a fault log, and a
    plain stack at [SS.base + SP].  (These are examples of the accessors the
    segment code calls, not those of PCjs.) *)
Definition ext : X86Seg.Ext :=
  X86Seg.mkExt
    (fun nFault nError fHalt c =>
       X86Seg.setFaults (X86Seg.faults c ++ [(nFault, nError, fHalt)]) c)
    (fun c =>
       (X86Seg.getShort c (X86Seg.base (X86Seg.seg c X86Seg.segSS) + X86Seg.regESP c),
        X86Seg.setESP (X86Seg.regESP c + 2) c))
    (fun v c =>
       let c := X86Seg.setESP (X86Seg.regESP c - 2) c in
       X86Seg.setShort (X86Seg.base (X86Seg.seg c X86Seg.segSS) + X86Seg.regESP c) v c)
    X86Seg.regESP
    X86Seg.setESP
    (fun c => X86Seg.sel (X86Seg.seg c X86Seg.segSS))
    (fun v _ c => X86Seg.modSeg X86Seg.segSS (fun s => X86Seg.setSel s v) c)
    X86Seg.regEIP
    X86Seg.regPS
    X86Seg.setPSreg
    (fun off _ c => X86Seg.setEIP off c)
    (fun r off c => (X86Seg.getShort c (X86Seg.base (X86Seg.seg c r) + off), c)).

(** A descriptor table at 0x1000:
    - 0x08: a call gate (DPL 0) to selector 0x10, offset 0x1234;
    - 0x10: a readable code segment, base 0x040000, limit 0xFFFF, DPL 0;
    - 0x18: a writable expand-down data segment, base 0x020000, limit 0x0FFF;
    - 0x20: a read-only expand-down data segment, same base and limit;
    - 0x28: a readable code segment, base 0x050000, DPL 0. *)
Definition gdt : list Z :=
  [ 0x00; 0x00; 0x00; 0x00; 0x00; 0x00; 0x00; 0x00;
    0x34; 0x12; 0x10; 0x00; 0x00; 0x84; 0x00; 0x00;
    0xFF; 0xFF; 0x00; 0x00; 0x04; 0x9A; 0x00; 0x00;
    0xFF; 0x0F; 0x00; 0x00; 0x02; 0x96; 0x00; 0x00;
    0xFF; 0x0F; 0x00; 0x00; 0x02; 0x94; 0x00; 0x00;
    0xFF; 0xFF; 0x00; 0x00; 0x05; 0x9A; 0x00; 0x00 ].

Definition memory (a : Z) : Z :=
  if (0x1000 <=? a) && (a <? 0x1030) then nth (Z.to_nat (a - 0x1000)) gdt 0 else 0.

Definition noSeg : X86Seg.t :=
  X86Seg.mk 0 "" 0 0 0 0 0 0 0 0 0 0 0 0 0 0 [] None false false
            X86Seg.loadRealFn X86Seg.loadIDTRealFn X86Seg.checkReadRealFn X86Seg.checkWriteRealFn.

(** An 80286 with the given [CR0] and the segment registers as their
    constructor leaves them. *)
Definition cpuWith (cr0 : Z) : X86Seg.CPU :=
  let c := X86Seg.mkCPU 80286 cr0 0 0 0 0 0 0 0x0100 0 0 0 0x1000 0x102F 0 0x3FF 0
                        memory [] (fun _ => noSeg) in
  let c := X86Seg.create X86Seg.segCS X86Seg.ID.CODE "CS" None c in
  let c := X86Seg.create X86Seg.segDS X86Seg.ID.DATA "DS" None c in
  let c := X86Seg.create X86Seg.segES X86Seg.ID.DATA "ES" None c in
  let c := X86Seg.create X86Seg.segSS X86Seg.ID.STACK "SS" None c in
  let c := X86Seg.create X86Seg.segTSS X86Seg.ID.TSS "TSS" (Some true) c in
  let c := X86Seg.create X86Seg.segLDT X86Seg.ID.LDT "LDT" (Some true) c in
  X86Seg.create X86Seg.segVER X86Seg.ID.OTHER "VER" None c.

Definition realCPU : X86Seg.CPU := cpuWith 0.
Definition protCPU : X86Seg.CPU := cpuWith X86.CR0.PE.

Definition after (o : option (Z * X86Seg.CPU)) : X86Seg.CPU :=
  match o with
  | Some (_, c) => c
  | None => protCPU
  end.

(** The protected-mode CPU after [CS.load(0x10)] (a jump inside ring 0),
    after [SS.load(0x18)], and after [DS.load(0x20)]. *)
Definition protCPU_CS : X86Seg.CPU :=
  after (X86Seg.loadN ext false 2 X86Seg.segCS 0x10 false protCPU).

Definition protCPU_SS : X86Seg.CPU :=
  after (X86Seg.loadN ext false 2 X86Seg.segSS 0x18 false protCPU).

Definition protCPU_DS : X86Seg.CPU :=
  after (X86Seg.loadN ext false 2 X86Seg.segDS 0x20 false protCPU).

(** A descriptor table at 0x1000 whose entry 0 is in use:
    - 0x00: a readable code segment, base 0x060000, limit 0xFFFF, DPL 0,
      not accessed yet;
    - 0x08: a call gate (DPL 0) to selector 0x00, offset 0x1234. *)
Definition gdtNull : list Z :=
  [ 0xFF; 0xFF; 0x00; 0x00; 0x06; 0x9A; 0x00; 0x00;
    0x34; 0x12; 0x00; 0x00; 0x00; 0x84; 0x00; 0x00 ].

Definition memoryNull (a : Z) : Z :=
  if (0x1000 <=? a) && (a <? 0x1010) then nth (Z.to_nat (a - 0x1000)) gdtNull 0 else 0.

(** The protected-mode CPU with that table in memory. *)
Definition protCPU_null : X86Seg.CPU := X86Seg.setMem memoryNull protCPU.

End Demo.

(* ===================================================================== *)
(** * Part II: lemmas and theorems                                        *)
(* ===================================================================== *)

(** ** Facts about the JavaScript operators *)

Lemma ToInt32_range z : - 2 ^ 31 <= JS.ToInt32 z < 2 ^ 31.
Proof. unfold JS.ToInt32. pose proof (Z.mod_pos_bound (z + 2 ^ 31) (2 ^ 32)). lia. Qed.

Lemma ToInt32_small z : - 2 ^ 31 <= z < 2 ^ 31 -> JS.ToInt32 z = z.
Proof. intros H. unfold JS.ToInt32. rewrite Z.mod_small; lia. Qed.

Lemma ToUint32_small z : 0 <= z < 2 ^ 32 -> JS.ToUint32 z = z.
Proof. intros H. unfold JS.ToUint32. apply Z.mod_small; lia. Qed.

Lemma ToInt32_mod z : JS.ToInt32 z mod 2 ^ 32 = z mod 2 ^ 32.
Proof.
  unfold JS.ToInt32.
  rewrite Zminus_mod_idemp_l.
  replace (z + 2 ^ 31 - 2 ^ 31) with z by lia. reflexivity.
Qed.

Lemma ToUint32_ToInt32 z : JS.ToUint32 (JS.ToInt32 z) = JS.ToUint32 z.
Proof. apply ToInt32_mod. Qed.

Lemma ToInt32_ToUint32 z : JS.ToInt32 (JS.ToUint32 z) = JS.ToInt32 z.
Proof.
  unfold JS.ToInt32, JS.ToUint32.
  rewrite Zplus_mod_idemp_l. reflexivity.
Qed.

(** The low [n] bits of [ToInt32 z] are those of [z], for [n <= 32]. *)
Lemma ToInt32_mod_pow2 z n : 0 <= n <= 32 -> JS.ToInt32 z mod 2 ^ n = z mod 2 ^ n.
Proof.
  intros Hn.
  assert (E : 2 ^ 32 = 2 ^ n * 2 ^ (32 - n)).
  { rewrite <- Z.pow_add_r by lia. f_equal; lia. }
  assert (Hp : 0 < 2 ^ n) by (apply Z.pow_pos_nonneg; lia).
  assert (Hq : 0 < 2 ^ (32 - n)) by (apply Z.pow_pos_nonneg; lia).
  pose proof (ToInt32_mod z) as H.
  rewrite E in H.
  rewrite !Z.rem_mul_r in H by lia.
  assert (H' : (JS.ToInt32 z mod 2 ^ n + 2 ^ n * ((JS.ToInt32 z / 2 ^ n) mod 2 ^ (32 - n))) mod 2 ^ n
             = (z mod 2 ^ n + 2 ^ n * ((z / 2 ^ n) mod 2 ^ (32 - n))) mod 2 ^ n) by (rewrite H; reflexivity).
  rewrite !(Z.mul_comm (2 ^ n)), !Z.mod_add, !Z.mod_mod in H' by lia.
  exact H'.
Qed.

Lemma and_ones v n : 0 <= n < 32 -> JS.and v (2 ^ n - 1) = v mod 2 ^ n.
Proof.
  intros Hn. unfold JS.and.
  assert (Hp : 0 < 2 ^ n) by (apply Z.pow_pos_nonneg; lia).
  assert (Hlt : 2 ^ n <= 2 ^ 31) by (apply Z.pow_le_mono_r; lia).
  rewrite (ToInt32_small (2 ^ n - 1)) by lia.
  replace (2 ^ n - 1) with (Z.ones n) by (rewrite Z.ones_equiv; lia).
  rewrite Z.land_ones by lia.
  apply ToInt32_mod_pow2; lia.
Qed.

(** [(1 << n) - 1] is a mask of [n] ones, also for [n = 31], where [1 << 31]
    is negative. *)
Lemma and_shl_mask v n : 0 <= n < 32 -> JS.and v (JS.shl 1 n - 1) = v mod 2 ^ n.
Proof.
  intros Hn.
  assert (Hc : JS.count n = n).
  { unfold JS.count. rewrite ToUint32_small by lia. apply Z.mod_small; lia. }
  destruct (Z.eq_dec n 31) as [->|Hne].
  - unfold JS.and. replace (JS.shl 1 31 - 1) with (- 2 ^ 31 - 1) by reflexivity.
    replace (JS.ToInt32 (- 2 ^ 31 - 1)) with (Z.ones 31) by reflexivity.
    rewrite Z.land_ones by lia. apply ToInt32_mod_pow2; lia.
  - assert (Hs : JS.shl 1 n = 2 ^ n).
    { unfold JS.shl. rewrite Hc. rewrite (ToInt32_small 1) by lia.
      rewrite Z.shiftl_1_l.
      assert (2 ^ n <= 2 ^ 30) by (apply Z.pow_le_mono_r; lia).
      assert (0 < 2 ^ n) by (apply Z.pow_pos_nonneg; lia).
      apply ToInt32_small; lia. }
    rewrite Hs. apply and_ones; lia.
Qed.

(** ** [truncate] *)

Lemma rem_bounds x b : 0 < b -> - b < Z.rem x b < b /\ (0 <= x -> 0 <= Z.rem x b) /\ (x <= 0 -> Z.rem x b <= 0).
Proof.
  intros Hb. destruct (Z.le_gt_cases 0 x) as [Hx|Hx].
  - pose proof (Z.rem_bound_pos x b Hx Hb). repeat split; try lia.
    intros ?. assert (x = 0) as -> by lia. rewrite Z.rem_0_l; lia.
  - replace x with (- - x) by lia. rewrite Z.rem_opp_l by lia.
    pose proof (Z.rem_bound_pos (- x) b ltac:(lia) Hb). lia.
Qed.

Lemma rem_plus_mod x b : 0 < b -> (Z.rem x b + b) mod b = x mod b.
Proof.
  intros Hb.
  rewrite <- (Z.mul_1_l b) at 2. rewrite Z.mod_add by lia.
  pose proof (Z.quot_rem' x b) as Hq.
  rewrite Hq at 2.
  rewrite Z.add_comm, Z.mul_comm, Z.mod_add by lia. reflexivity.
Qed.

(** C8.  For every integer [x] that a JavaScript number holds exactly
    ([|x| <= 2^53]) and every bit count [1 <= n <= 53], the unsigned
    truncation [truncate(x, n, true)] is [((x mod 2^n) + 2^n) mod 2^n], with
    [mod] read either as JavaScript's [%] or as the mathematical modulus:
    the unique value of [[0, 2^n)] congruent to [x] modulo [2^n].  Inside
    these bounds [v % limit] and [vNew + limit] are exact, so the integer the
    model computes is the number the code computes. *)
Theorem truncate_unsigned_mod (nDefaultBits x n : Z) :
  1 <= n <= 53 ->
  - 2 ^ 53 <= x <= 2 ^ 53 ->
  let r := DbgNum.truncate nDefaultBits x n true in
  r = (Z.rem x (2 ^ n) + 2 ^ n) mod 2 ^ n /\
  r = Z.rem (Z.rem x (2 ^ n) + 2 ^ n) (2 ^ n) /\
  r = (x mod 2 ^ n + 2 ^ n) mod 2 ^ n /\
  0 <= r < 2 ^ n /\
  (r - x) mod 2 ^ n = 0.
Proof.
  intros [Hn _] _ r.
  assert (Hp : 0 < 2 ^ n) by (apply Z.pow_pos_nonneg; lia).
  assert (Hr : r = x mod 2 ^ n).
  { subst r. unfold DbgNum.truncate, JS.truthy.
    replace (n =? 0) with false by (symmetry; apply Z.eqb_neq; lia).
    cbn [negb].
    assert (Hv : forall w, (if negb (x =? w) then w else x) = w).
    { intros w. destruct (Z.eqb_spec x w); cbn; congruence. }
    rewrite Hv.
    destruct (Z.eqb_spec n 32) as [->|Hne].
    - unfold JS.shr, JS.count. cbn [Z.shiftr]. unfold JS.ToUint32.
      replace (0 mod 2 ^ 32 mod 32) with 0 by reflexivity.
      rewrite Z.shiftr_0_r. reflexivity.
    - destruct (Z.ltb_spec n 32) as [Hlt|Hge].
      + apply and_shl_mask; lia.
      + unfold JS.rem.
        pose proof (rem_bounds x (2 ^ n) Hp) as (Hb & Hb1 & Hb2).
        pose proof (rem_plus_mod x (2 ^ n) Hp) as Hm.
        pose proof (Z.mod_pos_bound x (2 ^ n) Hp) as Hmb.
        destruct (Z.ltb_spec x 0) as [Hneg|Hpos]; cbn [orb].
        * destruct (Z.ltb_spec (Z.rem x (2 ^ n)) 0) as [Hl|Hl].
          -- rewrite <- Hm. symmetry. apply Z.mod_small. lia.
          -- assert (Hz : Z.rem x (2 ^ n) = 0) by lia.
             rewrite Hz. apply Z.rem_mod_eq_0 in Hz; lia.
        * destruct (Z.geb_spec x (2 ^ n)) as [Hbig|Hsmall].
          -- rewrite Z.rem_mod_nonneg by lia.
             destruct (Z.ltb_spec (x mod 2 ^ n) 0); [lia | reflexivity].
          -- symmetry. apply Z.mod_small; lia. }
  pose proof (Z.mod_pos_bound x (2 ^ n) Hp) as Hb.
  pose proof (rem_plus_mod x (2 ^ n) Hp) as Hrem.
  pose proof (rem_bounds x (2 ^ n) Hp) as (Hrb & _ & _).
  repeat split.
  - rewrite Hrem. exact Hr.
  - rewrite Z.rem_mod_nonneg.
    + rewrite Hrem. exact Hr.
    + lia.
    + lia.
  - rewrite <- (Z.mul_1_l (2 ^ n)) at 2. rewrite Z.mod_add, Z.mod_mod by lia. exact Hr.
  - lia.
  - lia.
  - rewrite Hr. rewrite Zminus_mod_idemp_l. rewrite Z.sub_diag. reflexivity.
Qed.

Lemma truncate_unsigned_mod_witness :
  (1 <= 36 <= 53 /\ - 2 ^ 53 <= -1 <= 2 ^ 53)
  /\ DbgNum.truncate 16 (-1) 36 true = (Z.rem (-1) (2 ^ 36) + 2 ^ 36) mod 2 ^ 36
  /\ DbgNum.truncate 16 (-1) 36 true = 2 ^ 36 - 1
  /\ DbgNum.truncate 16 0x12345 16 true = 0x2345.
Proof.
  split; [split; lia | split; [| split; reflexivity]].
  exact (proj1 (truncate_unsigned_mod 16 (-1) 36 ltac:(lia) ltac:(lia))).
Defined.

(** ** The block table: [addBlocks] *)

Lemma count_small k : 0 <= k <= 31 -> JS.count k = k.
Proof. intros H. unfold JS.count. rewrite ToUint32_small by lia. apply Z.mod_small; lia. Qed.

Lemma shr_div a k : 0 <= a < 2 ^ 32 -> 0 <= k <= 31 -> JS.shr a k = a / 2 ^ k.
Proof.
  intros Ha Hk. unfold JS.shr. rewrite count_small, ToUint32_small by lia.
  apply Z.shiftr_div_pow2; lia.
Qed.

Lemma shr_nonneg a k : 0 <= JS.shr a k.
Proof.
  unfold JS.shr. apply Z.shiftr_nonneg. unfold JS.ToUint32.
  apply Z.mod_pos_bound. lia.
Qed.

Section AddBlocksFacts.

Import Memory Bus.

Variable newMemory : string -> string -> Memory.Config -> Memory.t.

Lemma blockAt_lookup bus h (i : nat) :
  blockAt bus h (Z.of_nat i)
  = match blocks bus !! i with
    | Some (Some l) => match h !! l with Some m => Some (l, m) | None => None end
    | _ => None
    end.
Proof.
  unfold blockAt. destruct (Z.ltb_spec (Z.of_nat i) 0); [lia|].
  rewrite Nat2Z.id. reflexivity.
Qed.

(** Entries and objects that one step of the loop leaves alone read the
    same afterwards. *)
Lemma conflictAt_step bus h h' (i0 : nat) (l0 : loc) (i : Z) :
  tableValid bus h ->
  (forall l m, h !! l = Some m -> h' !! l = Some m) ->
  i <> Z.of_nat i0 ->
  conflictAt (setBlocks bus (<[i0 := Some l0]> (blocks bus))) h' i = conflictAt bus h i.
Proof.
  intros Hv Hext Hne. unfold conflictAt, blockAt. cbn [blocks setBlocks].
  destruct (Z.ltb_spec i 0); [reflexivity|].
  rewrite list_lookup_insert_ne by lia.
  destruct (blocks bus !! Z.to_nat i) as [[l|]|] eqn:E; try reflexivity.
  pose proof (Hv _ _ E) as Hl.
  destruct (lookup_lt_is_Some_2 h l Hl) as [m Hm].
  rewrite Hm, (Hext _ _ Hm). reflexivity.
Qed.

Lemma tableValid_step bus h h' (i0 : nat) (l0 : loc) :
  tableValid bus h ->
  (length h <= length h')%nat ->
  (l0 < length h')%nat ->
  tableValid (setBlocks bus (<[i0 := Some l0]> (blocks bus))) h'.
Proof.
  intros Hv Hlen Hl0 i l. cbn [blocks setBlocks].
  rewrite list_lookup_insert. case_decide as Hd.
  - intros [= <-]. exact Hl0.
  - intros E. pose proof (Hv _ _ E). lia.
Qed.

Lemma addBlocks_loop_conflict (j : nat) :
  forall fuel type block addrNext sizeLeft offset nBlocks (i0 : nat) bus h,
  (j < fuel)%nat ->
  0 < blockSize bus ->
  (i0 + j < length (blocks bus))%nat ->
  0 < sizeLeft ->
  (j <> 0%nat -> Z.of_nat (i0 + j) * blockSize bus < addrNext + sizeLeft) ->
  tableValid bus h ->
  (forall b, block = Some b -> (b < length h)%nat) ->
  (forall i : nat, (i0 <= i < i0 + j)%nat -> conflictAt bus h (Z.of_nat i) = false) ->
  conflictAt bus h (Z.of_nat (i0 + j)) = true ->
  exists bus' h',
    addBlocks_loop newMemory fuel type block addrNext sizeLeft offset nBlocks (Z.of_nat i0) bus h
      = Ret (false, bus', h')
    /\ bus' = setBlocks bus (blocks bus')
    /\ length (blocks bus') = length (blocks bus)
    /\ (forall i : nat, (i < i0 \/ i0 + j <= i)%nat -> blocks bus' !! i = blocks bus !! i)
    /\ (forall i : nat, (i0 <= i < i0 + j)%nat ->
          exists l, blocks bus' !! i = Some (Some l) /\ (block = Some l \/ (length h <= l)%nat))
    /\ (forall l m, h !! l = Some m -> h' !! l = Some m)
    /\ (j = 0%nat -> bus' = bus /\ h' = h).
Proof.
  induction j as [|j IH]; intros fuel type block addrNext sizeLeft offset nBlocks i0 bus h
    Hfuel Hbs Hlen Hsz HE Hv Hb Hfree Hconf.
  - destruct fuel as [|fuel]; [lia|].
    rewrite Nat.add_0_r in *.
    cbn [addBlocks_loop].
    replace (sizeLeft >? 0) with true by (symmetry; apply Z.gtb_lt; lia).
    replace (Z.of_nat i0 <? Z.of_nat (length (blocks bus))) with true
      by (symmetry; apply Z.ltb_lt; lia).
    cbn [andb]. unfold conflictAt in Hconf.
    destruct (blockAt bus h (Z.of_nat i0)) as [[l m]|]; [|discriminate].
    rewrite Hconf.
    exists bus, h.
    split; [reflexivity|]. split; [|split; [|split; [|split; [|split]]]]; auto.
    + destruct bus; reflexivity.
    + intros i Hi; lia.
  - destruct fuel as [|fuel]; [lia|].
    cbn [addBlocks_loop].
    replace (sizeLeft >? 0) with true by (symmetry; apply Z.gtb_lt; lia).
    replace (Z.of_nat i0 <? Z.of_nat (length (blocks bus))) with true
      by (symmetry; apply Z.ltb_lt; lia).
    cbn [andb].
    pose proof (Hfree i0 ltac:(lia)) as Hfree0. unfold conflictAt in Hfree0.
    set (cf := match blockAt bus h (Z.of_nat i0) with
               | Some (_, m) => negb (Memory.type (data m) =? TYPE.NONE)
               | None => false end) in *.
    rewrite Hfree0.
    specialize (HE ltac:(lia)).
    assert (Hmono : Z.of_nat (i0 + 1) * blockSize bus <= Z.of_nat (i0 + S j) * blockSize bus).
    { apply Z.mul_le_mono_nonneg_r; lia. }
    assert (Hnocap : (blockSize bus - (addrNext - Z.of_nat i0 * blockSize bus) >? sizeLeft) = false).
    { rewrite Z.gtb_ltb. apply Z.ltb_ge. rewrite Nat2Z.inj_add in Hmono. lia. }
    rewrite Hnocap.
    set (sizeBlock := blockSize bus - (addrNext - Z.of_nat i0 * blockSize bus)).
    (* the block put at index i0 *)
    assert (Hmade : exists l0 h1,
      match block with
      | None =>
          Ret (alloc h (newMemory (idMachine bus)
                 (idDevice bus +:+ ".block" +:+ pretty nBlocks)
                 (Memory.mkConfig (Some type) (Some addrNext) sizeBlock None)))
      | Some b =>
          match h !! b with
          | None => Exc TypeError
          | Some mb =>
              if size (data mb) =? blockSize bus then Ret (b, h)
              else
                Ret (alloc h (newMemory (idMachine bus)
                       (Memory.idDevice (data mb) +:+ ".block" +:+ pretty nBlocks)
                       (Memory.mkConfig (Some type) (Some addrNext) sizeBlock
                          match Memory.values (data mb) with
                          | Some vs => Some (slice vs offset (offset + sizeBlock))
                          | None => None
                          end)))
          end
      end = Ret (l0, h1)
      /\ (block = Some l0 \/ (length h <= l0)%nat)
      /\ (l0 < length h1)%nat /\ (length h <= length h1)%nat
      /\ (forall l m, h !! l = Some m -> h1 !! l = Some m)).
    { assert (Halloc : forall m0, exists l0 h1, alloc h m0 = (l0, h1)
          /\ (length h <= l0)%nat /\ (l0 < length h1)%nat /\ (length h <= length h1)%nat
          /\ (forall l m, h !! l = Some m -> h1 !! l = Some m)).
      { intros m0. exists (length h), (h ++ [m0]). unfold alloc.
        rewrite length_app. cbn. repeat split; try lia.
        intros l m Hl. rewrite lookup_app_l; [exact Hl|]. eapply lookup_lt_Some; eauto. }
      destruct block as [b|].
      - pose proof (Hb b eq_refl) as Hbl.
        destruct (lookup_lt_is_Some_2 h b Hbl) as [mb Hmb]. rewrite Hmb.
        destruct (size (data mb) =? blockSize bus).
        + exists b, h. repeat split; auto.
        + match goal with |- context [alloc h ?m0] => destruct (Halloc m0) as (l0 & h1 & -> & ? & ? & ? & ?) end.
          exists l0, h1. repeat split; auto.
      - match goal with |- context [alloc h ?m0] => destruct (Halloc m0) as (l0 & h1 & -> & ? & ? & ? & ?) end.
        exists l0, h1. repeat split; auto. }
    destruct Hmade as (l0 & h1 & -> & Hl0 & Hl0h1 & Hlenh & Hext).
    rewrite Nat2Z.id.
    set (bus1 := setBlocks bus (<[i0 := Some l0]> (blocks bus))).
    replace (Z.of_nat i0 + 1) with (Z.of_nat (S i0)) by lia.
    destruct (IH fuel type block (Z.of_nat i0 * blockSize bus + blockSize bus)
                 (sizeLeft - sizeBlock) (offset + sizeBlock) (nBlocks + 1) (S i0) bus1 h1)
      as (bus' & h' & Hrun & Hset & Hlen' & Hout & Hin & Hext' & _).
    + lia.
    + exact Hbs.
    + subst bus1. cbn [blocks setBlocks]. rewrite length_insert. lia.
    + subst sizeBlock. rewrite Nat2Z.inj_add in Hmono. lia.
    + intros _. subst bus1 sizeBlock. cbn [blockSize setBlocks].
      replace (S i0 + j)%nat with (i0 + S j)%nat by lia. lia.
    + apply (tableValid_step bus h h1); auto.
    + intros b Hbb. pose proof (Hb b Hbb). lia.
    + intros i Hi. subst bus1. rewrite (conflictAt_step bus h h1 i0 l0) by (auto; lia). apply Hfree. lia.
    + subst bus1. rewrite (conflictAt_step bus h h1 i0 l0) by (auto; lia).
      replace (S i0 + j)%nat with (i0 + S j)%nat by lia. exact Hconf.
    + subst bus1. cbn [blockSize setBlocks] in Hrun. rewrite Hrun.
      exists bus', h'.
      split; [reflexivity|]. split; [|split; [|split; [|split; [|split]]]].
      * rewrite Hset. destruct bus; reflexivity.
      * rewrite Hlen'. cbn [blocks setBlocks]. apply length_insert.
      * intros i Hi. rewrite Hout by lia. cbn [blocks setBlocks].
        apply list_lookup_insert_ne. lia.
      * intros i Hi. destruct (Nat.eq_dec i i0) as [->|Hne].
        -- exists l0. split; [|exact Hl0].
           rewrite Hout by lia. cbn [blocks setBlocks].
           apply list_lookup_insert_eq. lia.
        -- destruct (Hin i ltac:(lia)) as (l & El & [Hl|Hl]).
           ++ exists l. split; auto.
           ++ exists l. split; auto. right. lia.
      * intros l m Hl. apply Hext', Hext, Hl.
      * intros Hj. discriminate.
Qed.

End AddBlocksFacts.

Section AddBlocksTheorem.
Import Memory Bus.
Variable newMemory : string -> string -> Memory.Config -> Memory.t.

Lemma covered_from_first bus addr size (i k : nat) :
  blockGeometry bus -> 0 <= addr < 2 ^ 32 ->
  covered bus addr size (Z.of_nat k) ->
  (Z.to_nat (JS.shr addr (blockShift bus)) <= i <= k)%nat ->
  covered bus addr size (Z.of_nat i).
Proof.
  intros [Hk Hbs] Ha (Hsz & Hlo & Hhi) Hi.
  rewrite shr_div in Hi by lia. rewrite <- Hbs in Hi.
  assert (Hp : 0 < blockSize bus) by (rewrite Hbs; apply Z.pow_pos_nonneg; lia).
  assert (0 <= addr / blockSize bus) by (apply Z.div_pos; lia).
  pose proof (Z.mul_succ_div_gt addr (blockSize bus) Hp) as Hs.
  repeat split; try lia.
  - assert (Z.of_nat i * blockSize bus <= Z.of_nat k * blockSize bus)
      by (apply Z.mul_le_mono_nonneg_r; lia). lia.
  - assert ((addr / blockSize bus + 1) * blockSize bus <= (Z.of_nat i + 1) * blockSize bus)
      by (apply Z.mul_le_mono_nonneg_r; lia). lia.
Qed.

Lemma covered_first_le bus addr size (k : nat) :
  blockGeometry bus -> 0 <= addr < 2 ^ 32 ->
  covered bus addr size (Z.of_nat k) ->
  (Z.to_nat (JS.shr addr (blockShift bus)) <= k)%nat.
Proof.
  intros [Hk Hbs] Ha (Hsz & Hlo & Hhi).
  rewrite shr_div by lia. rewrite <- Hbs.
  assert (Hp : 0 < blockSize bus) by (rewrite Hbs; apply Z.pow_pos_nonneg; lia).
  assert (addr / blockSize bus < Z.of_nat k + 1) by (apply Z.div_lt_upper_bound; lia).
  lia.
Qed.

(** C1, as the code has it.  When [k] is the first covered index that holds
    a block of a type other than NONE, [addBlocks] returns false; the table
    entries from [k] on and before the first covered index are unchanged,
    the covered entries before [k] have been replaced (by the block passed in
    or by a newly made one), no existing block object is touched, and the
    call changes nothing at all when [k] is the first covered index. *)
Theorem addBlocks_conflict_returns_false
    (bus : Bus.t) (h : list Memory.t) (addr size type : Z) (block : option nat) (k : nat) :
  blockGeometry bus ->
  tableValid bus h ->
  (forall b, block = Some b -> (b < length h)%nat) ->
  0 <= addr < 2 ^ 32 ->
  (k < length (blocks bus))%nat ->
  covered bus addr size (Z.of_nat k) ->
  conflictAt bus h (Z.of_nat k) = true ->
  (forall i : nat, (i < k)%nat -> covered bus addr size (Z.of_nat i) ->
     conflictAt bus h (Z.of_nat i) = false) ->
  let i0 := Z.to_nat (JS.shr addr (blockShift bus)) in
  exists bus' h',
    addBlocks newMemory addr size type block bus h = Ret (false, bus', h')
    /\ bus' = setBlocks bus (blocks bus')
    /\ (forall i : nat, (i < i0 \/ k <= i)%nat -> blocks bus' !! i = blocks bus !! i)
    /\ (forall i : nat, (i0 <= i < k)%nat ->
          exists l, blocks bus' !! i = Some (Some l) /\ (block = Some l \/ (length h <= l)%nat))
    /\ (forall l m, h !! l = Some m -> h' !! l = Some m)
    /\ (k = i0 -> bus' = bus /\ h' = h).
Proof.
  intros Hg Hv Hb Ha Hk Hcov Hconf Hfirst i0.
  pose proof (covered_first_le bus addr size k Hg Ha Hcov) as Hle. fold i0 in Hle.
  destruct Hg as [Hsh Hbs].
  assert (Hp : 0 < blockSize bus) by (rewrite Hbs; apply Z.pow_pos_nonneg; lia).
  destruct (addBlocks_loop_conflict newMemory (k - i0) (S (length (blocks bus))) type block
              addr size 0 0 i0 bus h) as (bus' & h' & Hrun & Hset & _ & Hout & Hin & Hext & Hsame).
  - lia.
  - exact Hp.
  - lia.
  - destruct Hcov; lia.
  - intros _. replace (i0 + (k - i0))%nat with k by lia. destruct Hcov as (? & ? & ?). lia.
  - exact Hv.
  - exact Hb.
  - intros i Hi. apply Hfirst; [lia|].
    apply (covered_from_first bus addr size i k); [split; assumption | assumption | assumption |].
    fold i0. lia.
  - replace (i0 + (k - i0))%nat with k by lia. exact Hconf.
  - exists bus', h'. unfold addBlocks.
    replace (JS.shr addr (blockShift bus)) with (Z.of_nat i0)
      by (subst i0; rewrite Z2Nat.id; [reflexivity | apply shr_nonneg]).
    split; [exact Hrun|]. split; [exact Hset|].
    split; [|split; [|split]].
    + intros i Hi. apply Hout. lia.
    + intros i Hi. apply Hin. lia.
    + exact Hext.
    + intros E. apply Hsame. lia.
Qed.

End AddBlocksTheorem.

(** C1 as stated fails: on the example bus, [addBlocks(0, 2048, ROM)]
    covers index 0 (a NONE block) and index 1 (RAM).  It returns false, and
    index 0 no longer holds the shared NONE block (location 0) but a new
    block (location 2). *)
Lemma addBlocks_conflict_mutates :
  Bus.conflictAt Demo.bus Demo.heap 1 = true /\
  Bus.covered Demo.bus 0 2048 1 /\
  Bus.blocks Demo.bus !! 0%nat = Some (Some 0%nat) /\
  match Bus.addBlocks Memory.create 0 2048 Memory.TYPE.ROM None Demo.bus Demo.heap with
  | Ret (false, bus', _) => Bus.blocks bus' !! 0%nat = Some (Some 2%nat)
  | _ => False
  end.
Proof.
  split; [vm_compute; reflexivity|].
  split; [unfold Bus.covered; vm_compute; intuition congruence|].
  split; vm_compute; reflexivity.
Qed.

Lemma addBlocks_conflict_returns_false_witness :
  exists bus' h',
    Bus.addBlocks Memory.create 0 2048 Memory.TYPE.ROM None Demo.bus Demo.heap = Ret (false, bus', h')
    /\ Bus.blocks bus' !! 1%nat = Bus.blocks Demo.bus !! 1%nat
    /\ Bus.blocks bus' !! 3%nat = Bus.blocks Demo.bus !! 3%nat.
Proof.
  destruct (addBlocks_conflict_returns_false Memory.create Demo.bus Demo.heap
              0 2048 Memory.TYPE.ROM None 1%nat)
    as (bus' & h' & Hrun & _ & Hout & _).
  - split; [vm_compute; split; discriminate | reflexivity].
  - intros i l. do 5 (destruct i as [|i]; [vm_compute; intros [= <-]; lia|]).
    vm_compute. destruct i; discriminate.
  - discriminate.
  - lia.
  - vm_compute. lia.
  - unfold Bus.covered. vm_compute. intuition congruence.
  - vm_compute. reflexivity.
  - intros i Hi _. assert (i = 0%nat) as -> by lia. vm_compute. reflexivity.
  - exists bus', h'. split; [exact Hrun|]. split; apply Hout; right; cbn; lia.
Defined.

(** ** The loops of the bus end within their fuel *)

Section FuelFacts.

Import Memory Bus.

Variable newMemory : string -> string -> Memory.Config -> Memory.t.

Lemma addBlocks_loop_fuel fuel type block addrNext sizeLeft offset nBlocks iBlock bus h :
  0 <= iBlock ->
  Z.of_nat (length (blocks bus)) - iBlock < Z.of_nat fuel ->
  addBlocks_loop newMemory fuel type block addrNext sizeLeft offset nBlocks iBlock bus h
  <> Exc OutOfFuel.
Proof.
  revert addrNext sizeLeft offset nBlocks iBlock bus h.
  induction fuel as [|fuel IH]; intros addrNext sizeLeft offset nBlocks iBlock bus h Hi Hf.
  - cbn [addBlocks_loop].
    destruct (Z.ltb_spec iBlock (Z.of_nat (length (blocks bus)))); [lia|].
    rewrite andb_false_r. discriminate.
  - cbn [addBlocks_loop].
    destruct ((sizeLeft >? 0) && (iBlock <? Z.of_nat (length (blocks bus)))); [|discriminate].
    destruct (match blockAt bus h iBlock with
              | Some (_, m) => negb (Memory.type (data m) =? TYPE.NONE)
              | None => false
              end); [discriminate|].
    match goal with
    | |- match ?made with _ => _ end <> _ => destruct made as [[blockNew h']|e] eqn:Emade
    end.
    + apply IH; [lia|]. cbn [blocks setBlocks]. rewrite length_insert. lia.
    + intros [= ->]. destruct block as [b|]; [|discriminate Emade].
      destruct (h !! b) as [mb|]; [|discriminate Emade].
      destruct (size (data mb) =? blockSize bus); discriminate Emade.
Qed.

(** [addBlocks] never stops for want of fuel. *)
Lemma addBlocks_fuel addr size type block bus h :
  addBlocks newMemory addr size type block bus h <> Exc OutOfFuel.
Proof.
  unfold addBlocks. apply addBlocks_loop_fuel.
  - apply shr_nonneg.
  - pose proof (shr_nonneg addr (blockShift bus)). lia.
Qed.

End FuelFacts.

(** ** The constructor fills the block table *)

Section ConstructorFacts.

Import Memory Bus.

Variable newMemory : string -> string -> Memory.Config -> Memory.t.

Lemma addBlocks_loop_done fuel type block addrNext sizeLeft offset nBlocks iBlock bus h :
  sizeLeft <= 0 ->
  addBlocks_loop newMemory fuel type block addrNext sizeLeft offset nBlocks iBlock bus h
  = Ret (true, bus, h).
Proof.
  intros H. destruct (Z.gtb_spec sizeLeft 0) as [Hgt|_]; [lia|].
  destruct fuel; cbn [addBlocks_loop];
    destruct (Z.gtb_spec sizeLeft 0); try lia; reflexivity.
Qed.

(** One call of the constructor's loop: [addBlocks(k * blockSize, blockSize,
    NONE, memory)] on a slot never assigned puts one block there, the block
    passed in when its size is the block size and a new one otherwise. *)
Lemma addBlocks_one_block bus h (k : nat) (memory : nat) mb :
  blockGeometry bus ->
  (k < length (blocks bus))%nat ->
  Z.of_nat k * blockSize bus < 2 ^ 32 ->
  blocks bus !! k = Some None ->
  h !! memory = Some mb ->
  exists l h',
    addBlocks newMemory (Z.of_nat k * blockSize bus) (blockSize bus) TYPE.NONE (Some memory) bus h
    = Ret (true, setBlocks bus (<[k := Some l]> (blocks bus)), h')
    /\ ((h' = h /\ l = memory) \/ (exists a b c, h' = h ++ [newMemory a b c] /\ l = length h)).
Proof.
  intros [Hs Hbs] Hk Hlt Hnone Hmem.
  assert (Hp : 0 < blockSize bus) by (rewrite Hbs; apply Z.pow_pos_nonneg; lia).
  assert (Hi : JS.shr (Z.of_nat k * blockSize bus) (blockShift bus) = Z.of_nat k).
  { rewrite shr_div by (split; first [lia | nia]).
    rewrite <- Hbs. apply Z.div_mul. lia. }
  unfold addBlocks. rewrite Hi. cbn [addBlocks_loop].
  destruct (Z.gtb_spec (blockSize bus) 0) as [_|]; [|lia].
  destruct (Z.ltb_spec (Z.of_nat k) (Z.of_nat (length (blocks bus)))) as [_|]; [|lia].
  cbn [andb]. rewrite blockAt_lookup, Hnone, Hmem.
  replace (blockSize bus - (Z.of_nat k * blockSize bus - Z.of_nat k * blockSize bus))
    with (blockSize bus) by lia.
  destruct (Z.gtb_spec (blockSize bus) (blockSize bus)) as [|_]; [lia|].
  rewrite Nat2Z.id.
  destruct (size (data mb) =? blockSize bus).
  - rewrite addBlocks_loop_done by lia.
    eexists _, _. split; [reflexivity|]. left. split; reflexivity.
  - unfold alloc. rewrite addBlocks_loop_done by lia.
    eexists _, _. split; [reflexivity|]. right. eexists _, _, _. split; reflexivity.
Qed.

(** The constructor's loop from slot [k] on. *)
Lemma constructor_loop_fills (memory : nat) (mb : Memory.t) (n : nat) :
  forall (k fuel : nat) bus h,
    blockGeometry bus ->
    addrTotal bus = Z.of_nat (length (blocks bus)) * blockSize bus ->
    addrTotal bus <= 2 ^ 32 ->
    (k + n = length (blocks bus))%nat ->
    (n < fuel)%nat ->
    (forall i : nat, (k <= i < length (blocks bus))%nat -> blocks bus !! i = Some None) ->
    h !! memory = Some mb ->
    exists bus' h',
      constructor_loop newMemory fuel memory (Z.of_nat k * blockSize bus) bus h = Ret (bus', h')
      /\ bus' = setBlocks bus (blocks bus')
      /\ length (blocks bus') = length (blocks bus)
      /\ (forall i : nat, (i < k)%nat -> blocks bus' !! i = blocks bus !! i)
      /\ (forall i : nat, (k <= i < length (blocks bus))%nat ->
            exists l m, blocks bus' !! i = Some (Some l) /\ h' !! l = Some m)
      /\ (forall l m, h !! l = Some m -> h' !! l = Some m)
      /\ (forall l m, h' !! l = Some m -> h !! l = Some m \/ exists a b c, m = newMemory a b c).
Proof.
  induction n as [|n IH]; intros k fuel bus h Hg Htot Hmax Hkn Hfuel Hnone Hmem.
  - assert (E : Z.of_nat k * blockSize bus = addrTotal bus) by (rewrite Htot; f_equal; lia).
    exists bus, h. split.
    + destruct fuel; cbn [constructor_loop]; rewrite E, Z.ltb_irrefl; reflexivity.
    + split; [destruct bus; reflexivity|]. split; [reflexivity|].
      split; [reflexivity|]. split; [intros i Hi; lia|]. split; [auto|]. intros l m Hm. left. exact Hm.
  - destruct fuel as [|fuel]; [lia|].
    pose proof Hg as [Hs Hbs].
    assert (Hp : 0 < blockSize bus) by (rewrite Hbs; apply Z.pow_pos_nonneg; lia).
    assert (Hlt : Z.of_nat k * blockSize bus < addrTotal bus) by (rewrite Htot; nia).
    destruct (addBlocks_one_block bus h k memory mb Hg ltac:(lia) ltac:(lia)
                (Hnone k ltac:(lia)) Hmem) as (l & h1 & Hadd & Hh1).
    set (bus1 := setBlocks bus (<[k := Some l]> (blocks bus))) in *.
    assert (Hext1 : forall l0 m, h !! l0 = Some m -> h1 !! l0 = Some m).
    { intros l0 m Hm. destruct Hh1 as [[-> _] | (a & b & c & -> & _)]; [exact Hm|].
      apply lookup_app_l_Some. exact Hm. }
    assert (Hl1 : exists m, h1 !! l = Some m).
    { destruct Hh1 as [[-> ->] | (a & b & c & -> & ->)]; [eauto|].
      eexists. rewrite lookup_app_r, Nat.sub_diag by lia. reflexivity. }
    assert (Hnew1 : forall l0 m, h1 !! l0 = Some m ->
              h !! l0 = Some m \/ exists a b c, m = newMemory a b c).
    { intros l0 m Hm. destruct Hh1 as [[-> _] | (a & b & c & -> & _)]; [left; exact Hm|].
      apply lookup_app_Some in Hm as [Hm | [_ Hm]]; [left; exact Hm|].
      right. exists a, b, c. apply list_lookup_singleton_Some in Hm as [_ <-]. reflexivity. }
    destruct (IH (S k) fuel bus1 h1) as (bus' & h' & Hrun & Hset & Hlen & Hlow & Hfill & Hext & Hnew).
    + exact Hg.
    + subst bus1. cbn [addrTotal blocks setBlocks blockSize]. rewrite length_insert. exact Htot.
    + exact Hmax.
    + subst bus1. cbn [blocks setBlocks]. rewrite length_insert. lia.
    + lia.
    + intros i Hi. subst bus1. cbn [blocks setBlocks] in *. rewrite length_insert in Hi.
      rewrite list_lookup_insert_ne by lia. apply Hnone. lia.
    + apply Hext1. exact Hmem.
    + exists bus', h'. split.
      * cbn [constructor_loop].
        destruct (Z.ltb_spec (Z.of_nat k * blockSize bus) (addrTotal bus)) as [_|]; [|lia].
        rewrite Hadd. fold bus1.
        replace (Z.of_nat k * blockSize bus + blockSize bus)
          with (Z.of_nat (S k) * blockSize bus1) by (subst bus1; cbn [blockSize setBlocks]; lia).
        exact Hrun.
      * subst bus1. cbn [blocks setBlocks] in *. rewrite length_insert in Hlen, Hfill.
        split; [rewrite Hset; reflexivity|]. split; [exact Hlen|].
        split; [intros i Hi; rewrite Hlow by lia; apply list_lookup_insert_ne; lia|].
        split; [|split].
        -- intros i Hi. destruct (decide (i = k)) as [->|Hne].
           ++ destruct Hl1 as [m Hm]. exists l, m. split; [|apply Hext; exact Hm].
              rewrite Hlow by lia. apply list_lookup_insert_eq. lia.
           ++ apply Hfill. lia.
        -- intros l0 m Hm. apply Hext, Hext1, Hm.
        -- intros l0 m Hm. destruct (Hnew l0 m Hm) as [H1|H1]; [apply Hnew1, H1 | right; exact H1].
Qed.

Lemma untrapped_slotsOk l m : untrapped m -> readSlotsOk l m /\ writeSlotsOk l m.
Proof.
  intros (Hr & Hrp & Hrt & Hrd & Hw & Hwp & Hwt & Hwd). split; split.
  - intros _. auto.
  - intros H. contradiction.
  - intros _. auto.
  - intros H. contradiction.
Qed.

Lemma create_untrapped idMachine idDev cfg : untrapped (Memory.create idMachine idDev cfg).
Proof. unfold untrapped, Memory.create. cbn. repeat split; eauto. Qed.

(** [new Bus(..)] with an address width [w] of at most 32 bits and a block
    size [2^s] of which the address space holds at most [2^30]: the call
    returns; the fields of the bus are [addrWidth = w], [addrTotal = 2^w],
    [addrLimit = (2^w - 1)|0], [blockSize = 2^s], [blockTotal = 2^(w-s)],
    [blockShift = s], [blockLimit = (1 << s) - 1] and [blocks.length =
    2^(w-s)], which is the geometry [wellSized]; every index of the table
    holds a block, the objects that were on the heap are untouched, every
    other object is one the [Memory] constructor made, and the blocks are in
    the state [heapOk] if that constructor makes blocks without traps. *)
Theorem constructor_populates (idM idD : string) (config : Bus.Config) (h : list Memory.t)
    (w s : Z) :
  orDefault (cfg_addrWidth config) 16 = w ->
  orDefault (cfg_blockSize config) 1024 = 2 ^ s ->
  0 <= s <= 31 -> s <= w <= 32 -> w - s <= 30 ->
  exists bus h',
    Bus.constructor newMemory idM idD config h = Ret (bus, h')
    /\ (addrWidth bus = w
        /\ dataWidth bus = orDefault (cfg_dataWidth config) 8
        /\ addrTotal bus = 2 ^ w
        /\ addrLimit bus = JS.ToInt32 (2 ^ w - 1)
        /\ blockSize bus = 2 ^ s
        /\ blockTotal bus = 2 ^ (w - s)
        /\ blockShift bus = s
        /\ blockLimit bus = JS.shl 1 s - 1
        /\ Z.of_nat (length (blocks bus)) = 2 ^ (w - s))
    /\ wellSized bus
    /\ populated bus h'
    /\ tableValid bus h'
    /\ (forall l m, h !! l = Some m -> h' !! l = Some m)
    /\ (forall l m, h' !! l = Some m -> h !! l = Some m \/ exists a b c, m = newMemory a b c)
    /\ ((forall a b c, untrapped (newMemory a b c)) -> heapOk h -> heapOk h').
Proof.
  intros Hw Hbs Hs Hws Hd.
  assert (Hq : JS.divToInt32 (2 ^ w) (2 ^ s) = 2 ^ (w - s)).
  { unfold JS.divToInt32.
    assert (0 < 2 ^ s) by (apply Z.pow_pos_nonneg; lia).
    assert (0 < 2 ^ w) by (apply Z.pow_pos_nonneg; lia).
    rewrite Z.quot_div_nonneg by lia.
    rewrite <- Z.pow_sub_r by lia.
    apply ToInt32_small.
    assert (0 < 2 ^ (w - s)) by (apply Z.pow_pos_nonneg; lia).
    assert (2 ^ (w - s) <= 2 ^ 30) by (apply Z.pow_le_mono_r; lia). lia. }
  assert (Hlog : JS.ToInt32 (Z.log2 (2 ^ s)) = s).
  { rewrite Z.log2_pow2 by lia. apply ToInt32_small. lia. }
  assert (Hpos : 0 < 2 ^ (w - s)) by (apply Z.pow_pos_nonneg; lia).
  unfold Bus.constructor. rewrite Hw, Hbs, Hq, Hlog.
  destruct (Z.ltb_spec (2 ^ (w - s)) 0) as [|_]; [lia|].
  unfold alloc.
  set (mb := newMemory idM (idD +:+ ".none") (Memory.mkConfig None None (2 ^ s) None)).
  set (bus0 := Bus.mk idM idD w (orDefault (cfg_dataWidth config) 8) (2 ^ w)
                 (JS.ToInt32 (2 ^ w - 1)) (2 ^ s) (2 ^ (w - s)) s (JS.shl 1 s - 1)
                 (replicate (Z.to_nat (2 ^ (w - s))) None)).
  assert (Hsplit : 2 ^ w = 2 ^ (w - s) * 2 ^ s).
  { rewrite <- Z.pow_add_r by lia. f_equal. lia. }
  assert (Hle : 2 ^ w <= 2 ^ 32) by (apply Z.pow_le_mono_r; lia).
  assert (Hone : 1 <= 2 ^ s) by (assert (0 < 2 ^ s) by (apply Z.pow_pos_nonneg; lia); lia).
  destruct (constructor_loop_fills (length h) mb (Z.to_nat (2 ^ (w - s))) 0
              (S (Z.to_nat (2 ^ w))) bus0 (h ++ [mb]))
    as (bus' & h' & Hrun & Hset & Hlen & _ & Hfill & Hext & Hnew).
  - split; [exact Hs | reflexivity].
  - subst bus0. cbn [addrTotal blocks blockSize]. rewrite length_replicate, Z2Nat.id by lia.
    exact Hsplit.
  - exact Hle.
  - subst bus0. cbn [blocks]. rewrite length_replicate. lia.
  - apply Nat.lt_succ_r, Z2Nat.inj_le; nia.
  - intros i Hi. subst bus0. cbn [blocks] in *. rewrite length_replicate in Hi.
    apply lookup_replicate_2. lia.
  - rewrite lookup_app_r, Nat.sub_diag by lia. reflexivity.
  - change (Z.of_nat 0 * blockSize bus0) with 0 in Hrun.
    exists bus', h'. split; [exact Hrun|].
    assert (Hlen' : Z.of_nat (length (blocks bus')) = 2 ^ (w - s)).
    { rewrite Hlen. subst bus0. cbn [blocks]. rewrite length_replicate, Z2Nat.id by lia.
      reflexivity. }
    assert (Horigin : forall l m, h' !! l = Some m ->
              h !! l = Some m \/ exists a b c, m = newMemory a b c).
    { intros l m Hm. destruct (Hnew l m Hm) as [H1|H1]; [|right; exact H1].
      apply lookup_app_Some in H1 as [H1 | [_ H1]]; [left; exact H1|].
      right. apply list_lookup_singleton_Some in H1 as [_ <-].
      eexists _, _, _. reflexivity. }
    split; [|split; [|split; [|split; [|split; [|split]]]]].
    + repeat split; try exact Hlen'; rewrite Hset; subst bus0; reflexivity.
    + rewrite Hset. subst bus0. unfold wellSized, blockGeometry.
      cbn [blockShift blockSize addrWidth addrTotal addrLimit blockLimit blocks setBlocks].
      repeat split; try reflexivity; lia.
    + intros i Hi. apply Hfill. lia.
    + intros i l Hi.
      destruct (Hfill i) as (l' & m & Hl' & Hm).
      { apply lookup_lt_Some in Hi. lia. }
      rewrite Hl' in Hi. injection Hi as <-. eapply lookup_lt_Some, Hm.
    + intros l m Hm. apply Hext, lookup_app_l_Some, Hm.
    + exact Horigin.
    + intros Hfresh Hok l m Hm.
      destruct (Horigin l m Hm) as [H1 | (a & b & c & ->)]; [exact (Hok l m H1)|].
      apply untrapped_slotsOk, Hfresh.
Qed.

End ConstructorFacts.

(** The example bus is built this way. *)
Lemma constructor_populates_witness :
  exists bus h',
    Bus.constructor Memory.create "pc" "bus" Demo.config [] = Ret (bus, h')
    /\ (Bus.addrWidth bus = 12 /\ Bus.addrTotal bus = 4096 /\ Bus.blockSize bus = 1024
        /\ Bus.blockShift bus = 10 /\ length (Bus.blocks bus) = 4%nat)
    /\ Bus.wellSized bus /\ Bus.populated bus h' /\ Bus.heapOk h'.
Proof.
  destruct (constructor_populates Memory.create "pc" "bus" Demo.config [] 12 10)
    as (bus & h' & Hrun & Hfields & Hsized & Hpop & _ & _ & _ & Hok);
    [reflexivity | reflexivity | lia | lia | lia |].
  destruct Hfields as (Haw & _ & Hat & _ & Hbs & _ & Hsh & _ & Hlen).
  exists bus, h'. split; [exact Hrun|].
  split; [repeat split; try assumption; change (2 ^ (12 - 10)) with 4 in Hlen; lia|].
  split; [exact Hsized|]. split; [exact Hpop|].
  apply Hok; [apply create_untrapped|]. intros l m Hm. discriminate Hm.
Defined.

(** ** Traps *)

Section TrapFacts.

Import Memory Bus.

Variable bus : Bus.t.

Lemma blockAt_insert (h : list Memory.t) i l m X :
  blockAt bus h i = Some (l, m) -> blockAt bus (<[l := X]> h) i = Some (l, X).
Proof.
  unfold blockAt. destruct (i <? 0); [discriminate|].
  destruct (blocks bus !! Z.to_nat i) as [[l'|]|]; try discriminate.
  destruct (h !! l') as [m'|] eqn:E; [|discriminate].
  intros [= -> ->].
  rewrite list_lookup_insert_eq by (eapply lookup_lt_Some; eauto). reflexivity.
Qed.

Lemma blockAt_heap (h : list Memory.t) i l m : blockAt bus h i = Some (l, m) -> h !! l = Some m.
Proof.
  unfold blockAt. destruct (i <? 0); [discriminate|].
  destruct (blocks bus !! Z.to_nat i) as [[l'|]|]; try discriminate.
  destruct (h !! l') as [m'|] eqn:E; [|discriminate].
  intros [= -> ->]. exact E.
Qed.

Lemma setRead_id m : setRead m (Memory.readData m) (readPrev m) (readTrap m) (nReadTraps m) = m.
Proof. destruct m; reflexivity. Qed.

Lemma setWrite_id m : setWrite m (Memory.writeData m) (writePrev m) (writeTrap m) (nWriteTraps m) = m.
Proof. destruct m; reflexivity. Qed.

Lemma repeatOp_S_Ret op n (h h1 h2 : list Memory.t) b bs :
  op h = Ret (b, h1) -> repeatOp op n h1 = Ret (bs, h2) ->
  repeatOp op (S n) h = Ret (b :: bs, h2).
Proof. intros H1 H2. cbn [repeatOp]. rewrite H1, H2. reflexivity. Qed.

(** *** The read side *)

Section Read.

Variables (h : list Memory.t) (a : Z) (f : nat) (l : nat) (m : Memory.t).
Hypothesis Hat : blockAt bus h (JS.shr a (blockShift bus)) = Some (l, m).

(** The block with an installed trap: slot [rd], previous function [rp],
    callback [f] and a count of [c]. *)
Let B (rd rp : option ReadFn) (c : nat) : Memory.t := setRead m rd rp (Some f) c.

Lemma trapRead_installed rd rp c :
  (c <> 0)%nat ->
  trapRead a f bus (<[l := B rd rp c]> h) = Ret (true, <[l := B rd rp (S c)]> h).
Proof.
  intros Hc. unfold trapRead. rewrite (blockAt_insert h _ l m _ Hat).
  cbn [nReadTraps B setRead readTrap].
  destruct (Nat.eqb_spec c 0); [contradiction|].
  rewrite decide_True by reflexivity.
  rewrite list_insert_insert_eq. reflexivity.
Qed.

Lemma untrapRead_installed rd rp c :
  (c <> 0)%nat ->
  untrapRead a f bus (<[l := B rd rp (S c)]> h) = Ret (true, <[l := B rd rp c]> h).
Proof.
  intros Hc. unfold untrapRead. rewrite (blockAt_insert h _ l m _ Hat).
  cbn [nReadTraps B setRead readTrap negb Nat.eqb andb pred].
  rewrite bool_decide_eq_true_2 by reflexivity.
  destruct (Nat.eqb_spec c 0); [contradiction|].
  rewrite list_insert_insert_eq. reflexivity.
Qed.

Lemma untrapRead_last rd rp :
  untrapRead a f bus (<[l := B rd rp 1]> h) = Ret (true, <[l := setRead m rp None None 0]> h).
Proof.
  unfold untrapRead. rewrite (blockAt_insert h _ l m _ Hat).
  cbn [nReadTraps B setRead readTrap negb Nat.eqb andb pred readPrev].
  rewrite bool_decide_eq_true_2 by reflexivity.
  rewrite list_insert_insert_eq. reflexivity.
Qed.

Lemma trapRead_repeat rd rp c n :
  (c <> 0)%nat ->
  repeatOp (trapRead a f bus) n (<[l := B rd rp c]> h)
  = Ret (repeat true n, <[l := B rd rp (c + n)]> h).
Proof.
  revert c. induction n as [|n IH]; intros c Hc.
  - cbn. rewrite Nat.add_0_r. reflexivity.
  - cbn [repeat]. eapply repeatOp_S_Ret; [apply trapRead_installed; exact Hc|].
    replace (c + S n)%nat with (S c + n)%nat by lia. apply IH. lia.
Qed.

Lemma untrapRead_repeat rd rp c k :
  (c <> 0)%nat ->
  repeatOp (untrapRead a f bus) k (<[l := B rd rp (c + k)]> h)
  = Ret (repeat true k, <[l := B rd rp c]> h).
Proof.
  intros Hc. induction k as [|k IH].
  - cbn. rewrite Nat.add_0_r. reflexivity.
  - replace (c + S k)%nat with (S (c + k)) by lia.
    cbn [repeat]. eapply repeatOp_S_Ret; [apply untrapRead_installed; lia|]. exact IH.
Qed.

Lemma untrapRead_repeat_all rd rp n :
  repeatOp (untrapRead a f bus) (S n) (<[l := B rd rp (S n)]> h)
  = Ret (repeat true (S n), <[l := setRead m rp None None 0]> h).
Proof.
  induction n as [|n IH].
  - cbn [repeatOp]. rewrite untrapRead_last. reflexivity.
  - cbn [repeat]. eapply repeatOp_S_Ret; [apply untrapRead_installed; lia|]. exact IH.
Qed.

Lemma lookup_insert_here (X : Memory.t) : <[l := X]> h !! l = Some X.
Proof. apply list_lookup_insert_eq. eapply lookup_lt_Some, blockAt_heap, Hat. Qed.

Lemma trap_untrap_read (n : nat) :
  (1 <= n)%nat ->
  (nReadTraps m = 0%nat -> readPrev m = None /\ readTrap m = None) ->
  (nReadTraps m <> 0%nat -> readTrap m = Some f) ->
  exists hn mn,
    repeatOp (trapRead a f bus) n h = Ret (repeat true n, hn)
    /\ hn !! l = Some mn
    /\ nReadTraps mn = (nReadTraps m + n)%nat
    /\ readTrap mn = Some f
    /\ (nReadTraps m = 0%nat ->
          Memory.readData mn = Some (ReadTrapFn l) /\ readPrev mn = Memory.readData m)
    /\ (forall k : nat, (k < n)%nat ->
          exists hk mk,
            repeatOp (untrapRead a f bus) k hn = Ret (repeat true k, hk)
            /\ hk !! l = Some mk
            /\ nReadTraps mk = (nReadTraps mn - k)%nat
            /\ nReadTraps mk <> 0%nat
            /\ Memory.readData mk = Memory.readData mn
            /\ readPrev mk = readPrev mn
            /\ readTrap mk = Some f)
    /\ repeatOp (untrapRead a f bus) n hn = Ret (repeat true n, h).
Proof.
  intros Hn Hinv Hsame.
  pose proof (blockAt_heap h _ l m Hat) as Hm.
  destruct n as [|n]; [lia|].
  destruct (Nat.eq_dec (nReadTraps m) 0%nat) as [Hz|Hnz].
  - (* no trap yet: the first call installs the wrapper *)
    destruct (Hinv Hz) as [Hp Ht].
    set (rd := Some (ReadTrapFn l)). set (rp := Memory.readData m).
    assert (H1 : trapRead a f bus h = Ret (true, <[l := B rd rp 1]> h)).
    { unfold trapRead. rewrite Hat, Hz. reflexivity. }
    exists (<[l := B rd rp (S n)]> h), (B rd rp (S n)).
    split; [|split; [|split; [|split; [|split; [|split]]]]].
    + eapply repeatOp_S_Ret; [exact H1|]. rewrite trapRead_repeat by lia. reflexivity.
    + apply lookup_insert_here.
    + cbn. lia.
    + reflexivity.
    + intros _. split; reflexivity.
    + intros k Hk. exists (<[l := B rd rp (S n - k)]> h), (B rd rp (S n - k)).
      split; [|split; [apply lookup_insert_here|cbn; repeat split; lia]].
      replace (S n) with ((S n - k) + k)%nat at 1 by lia.
      apply untrapRead_repeat. lia.
    + rewrite untrapRead_repeat_all. f_equal. f_equal.
      subst rp. rewrite <- Hp, <- Ht, <- Hz. rewrite setRead_id.
      apply list_insert_id. exact Hm.
  - (* the same callback is installed already: only the count moves *)
    pose proof (Hsame Hnz) as Ht.
    set (rd := Memory.readData m). set (rp := readPrev m). set (c := nReadTraps m).
    assert (Hh : h = <[l := B rd rp c]> h).
    { symmetry. apply list_insert_id. rewrite Hm. f_equal.
      subst B rd rp c. cbn. rewrite <- Ht. symmetry. apply setRead_id. }
    exists (<[l := B rd rp (c + S n)]> h), (B rd rp (c + S n)).
    split; [|split; [|split; [|split; [|split; [|split]]]]].
    + rewrite Hh at 1. apply trapRead_repeat. exact Hnz.
    + apply lookup_insert_here.
    + reflexivity.
    + reflexivity.
    + intros Hz. contradiction.
    + intros k Hk. exists (<[l := B rd rp (c + S n - k)]> h), (B rd rp (c + S n - k)).
      split; [|split; [apply lookup_insert_here|cbn; repeat split; lia]].
      replace (c + S n)%nat with ((c + S n - k) + k)%nat at 1 by lia.
      apply untrapRead_repeat. lia.
    + rewrite untrapRead_repeat by exact Hnz. rewrite <- Hh. reflexivity.
Qed.

End Read.

(** *** The write side *)

Section Write.

Variables (h : list Memory.t) (a : Z) (f : nat) (l : nat) (m : Memory.t).
Hypothesis Hat : blockAt bus h (JS.shr a (blockShift bus)) = Some (l, m).

Let B (wd wp : option WriteFn) (c : nat) : Memory.t := setWrite m wd wp (Some f) c.

Lemma trapWrite_installed wd wp c :
  (c <> 0)%nat ->
  trapWrite a f bus (<[l := B wd wp c]> h) = Ret (true, <[l := B wd wp (S c)]> h).
Proof.
  intros Hc. unfold trapWrite. rewrite (blockAt_insert h _ l m _ Hat).
  cbn [nWriteTraps B setWrite writeTrap].
  destruct (Nat.eqb_spec c 0); [contradiction|].
  rewrite decide_True by reflexivity.
  rewrite list_insert_insert_eq. reflexivity.
Qed.

Lemma untrapWrite_installed wd wp c :
  (c <> 0)%nat ->
  untrapWrite a f bus (<[l := B wd wp (S c)]> h) = Ret (true, <[l := B wd wp c]> h).
Proof.
  intros Hc. unfold untrapWrite. rewrite (blockAt_insert h _ l m _ Hat).
  cbn [nWriteTraps B setWrite writeTrap negb Nat.eqb andb pred].
  rewrite bool_decide_eq_true_2 by reflexivity.
  destruct (Nat.eqb_spec c 0); [contradiction|].
  rewrite list_insert_insert_eq. reflexivity.
Qed.

Lemma untrapWrite_last wd wp :
  untrapWrite a f bus (<[l := B wd wp 1]> h) = Ret (true, <[l := setWrite m wp None None 0]> h).
Proof.
  unfold untrapWrite. rewrite (blockAt_insert h _ l m _ Hat).
  cbn [nWriteTraps B setWrite writeTrap negb Nat.eqb andb pred writePrev].
  rewrite bool_decide_eq_true_2 by reflexivity.
  rewrite list_insert_insert_eq. reflexivity.
Qed.

Lemma trapWrite_repeat wd wp c n :
  (c <> 0)%nat ->
  repeatOp (trapWrite a f bus) n (<[l := B wd wp c]> h)
  = Ret (repeat true n, <[l := B wd wp (c + n)]> h).
Proof.
  revert c. induction n as [|n IH]; intros c Hc.
  - cbn. rewrite Nat.add_0_r. reflexivity.
  - cbn [repeat]. eapply repeatOp_S_Ret; [apply trapWrite_installed; exact Hc|].
    replace (c + S n)%nat with (S c + n)%nat by lia. apply IH. lia.
Qed.

Lemma untrapWrite_repeat wd wp c k :
  (c <> 0)%nat ->
  repeatOp (untrapWrite a f bus) k (<[l := B wd wp (c + k)]> h)
  = Ret (repeat true k, <[l := B wd wp c]> h).
Proof.
  intros Hc. induction k as [|k IH].
  - cbn. rewrite Nat.add_0_r. reflexivity.
  - replace (c + S k)%nat with (S (c + k)) by lia.
    cbn [repeat]. eapply repeatOp_S_Ret; [apply untrapWrite_installed; lia|]. exact IH.
Qed.

Lemma untrapWrite_repeat_all wd wp n :
  repeatOp (untrapWrite a f bus) (S n) (<[l := B wd wp (S n)]> h)
  = Ret (repeat true (S n), <[l := setWrite m wp None None 0]> h).
Proof.
  induction n as [|n IH].
  - cbn [repeatOp]. rewrite untrapWrite_last. reflexivity.
  - cbn [repeat]. eapply repeatOp_S_Ret; [apply untrapWrite_installed; lia|]. exact IH.
Qed.

Lemma trap_untrap_write (n : nat) :
  (1 <= n)%nat ->
  (nWriteTraps m = 0%nat -> writePrev m = None /\ writeTrap m = None) ->
  (nWriteTraps m <> 0%nat -> writeTrap m = Some f) ->
  exists hn mn,
    repeatOp (trapWrite a f bus) n h = Ret (repeat true n, hn)
    /\ hn !! l = Some mn
    /\ nWriteTraps mn = (nWriteTraps m + n)%nat
    /\ writeTrap mn = Some f
    /\ (nWriteTraps m = 0%nat ->
          Memory.writeData mn = Some (WriteTrapFn l) /\ writePrev mn = Memory.writeData m)
    /\ (forall k : nat, (k < n)%nat ->
          exists hk mk,
            repeatOp (untrapWrite a f bus) k hn = Ret (repeat true k, hk)
            /\ hk !! l = Some mk
            /\ nWriteTraps mk = (nWriteTraps mn - k)%nat
            /\ nWriteTraps mk <> 0%nat
            /\ Memory.writeData mk = Memory.writeData mn
            /\ writePrev mk = writePrev mn
            /\ writeTrap mk = Some f)
    /\ repeatOp (untrapWrite a f bus) n hn = Ret (repeat true n, h).
Proof.
  intros Hn Hinv Hsame.
  pose proof (blockAt_heap h _ l m Hat) as Hm.
  assert (Hhere : forall X : Memory.t, <[l := X]> h !! l = Some X).
  { intros X. apply list_lookup_insert_eq. eapply lookup_lt_Some, Hm. }
  destruct n as [|n]; [lia|].
  destruct (Nat.eq_dec (nWriteTraps m) 0%nat) as [Hz|Hnz].
  - destruct (Hinv Hz) as [Hp Ht].
    set (wd := Some (WriteTrapFn l)). set (wp := Memory.writeData m).
    assert (H1 : trapWrite a f bus h = Ret (true, <[l := B wd wp 1]> h)).
    { unfold trapWrite. rewrite Hat, Hz. reflexivity. }
    exists (<[l := B wd wp (S n)]> h), (B wd wp (S n)).
    split; [|split; [|split; [|split; [|split; [|split]]]]].
    + eapply repeatOp_S_Ret; [exact H1|]. rewrite trapWrite_repeat by lia. reflexivity.
    + apply Hhere.
    + cbn. lia.
    + reflexivity.
    + intros _. split; reflexivity.
    + intros k Hk. exists (<[l := B wd wp (S n - k)]> h), (B wd wp (S n - k)).
      split; [|split; [apply Hhere|cbn; repeat split; lia]].
      replace (S n) with ((S n - k) + k)%nat at 1 by lia.
      apply untrapWrite_repeat. lia.
    + rewrite untrapWrite_repeat_all. f_equal. f_equal.
      subst wp. rewrite <- Hp, <- Ht, <- Hz. rewrite setWrite_id.
      apply list_insert_id. exact Hm.
  - pose proof (Hsame Hnz) as Ht.
    set (wd := Memory.writeData m). set (wp := writePrev m). set (c := nWriteTraps m).
    assert (Hh : h = <[l := B wd wp c]> h).
    { symmetry. apply list_insert_id. rewrite Hm. f_equal.
      subst B wd wp c. cbn. rewrite <- Ht. symmetry. apply setWrite_id. }
    exists (<[l := B wd wp (c + S n)]> h), (B wd wp (c + S n)).
    split; [|split; [|split; [|split; [|split; [|split]]]]].
    + rewrite Hh at 1. apply trapWrite_repeat. exact Hnz.
    + apply Hhere.
    + reflexivity.
    + reflexivity.
    + intros Hz. contradiction.
    + intros k Hk. exists (<[l := B wd wp (c + S n - k)]> h), (B wd wp (c + S n - k)).
      split; [|split; [apply Hhere|cbn; repeat split; lia]].
      replace (c + S n)%nat with ((c + S n - k) + k)%nat at 1 by lia.
      apply untrapWrite_repeat. lia.
    + rewrite untrapWrite_repeat by exact Hnz. rewrite <- Hh. reflexivity.
Qed.

End Write.

End TrapFacts.

(** C4.  Trap reference counting and transparency.  Take the block found
    at [a], in the state the data model allows (no trap and the trap fields
    unset, or a trap of the same callback [f]).  Then [n >= 1] calls of
    [trapRead(a, f)] all return true; after them each of the first [n - 1]
    calls of [untrapRead(a, f)] returns true and leaves the trap installed
    (same wrapper, same previous function, same callback, a positive count);
    the [n]-th returns true and puts back the heap as it was before the first
    [trapRead]: the block's [readData] is the very function installed before,
    and every later read behaves as if no trap had been set.  The same holds
    for [trapWrite] / [untrapWrite]. *)
Theorem trap_untrap_restores
    (bus : Bus.t) (h : list Memory.t) (a : Z) (f : nat) (n : nat) (l : nat) (m : Memory.t) :
  Bus.blockAt bus h (JS.shr a (Bus.blockShift bus)) = Some (l, m) ->
  (1 <= n)%nat ->
  ((Memory.nReadTraps m = 0%nat -> Memory.readPrev m = None /\ Memory.readTrap m = None) ->
   (Memory.nReadTraps m <> 0%nat -> Memory.readTrap m = Some f) ->
   exists hn mn,
     Bus.repeatOp (Bus.trapRead a f bus) n h = Ret (repeat true n, hn)
     /\ hn !! l = Some mn
     /\ Memory.nReadTraps mn = (Memory.nReadTraps m + n)%nat
     /\ Memory.readTrap mn = Some f
     /\ (Memory.nReadTraps m = 0%nat ->
           Memory.readData mn = Some (Memory.ReadTrapFn l)
           /\ Memory.readPrev mn = Memory.readData m)
     /\ (forall k : nat, (k < n)%nat ->
           exists hk mk,
             Bus.repeatOp (Bus.untrapRead a f bus) k hn = Ret (repeat true k, hk)
             /\ hk !! l = Some mk
             /\ Memory.nReadTraps mk <> 0%nat
             /\ Memory.readData mk = Memory.readData mn
             /\ Memory.readPrev mk = Memory.readPrev mn
             /\ Memory.readTrap mk = Some f)
     /\ exists hfin,
          Bus.repeatOp (Bus.untrapRead a f bus) n hn = Ret (repeat true n, hfin)
          /\ hfin = h
          /\ (Memory.readData <$> hfin !! l) = Some (Memory.readData m)
          /\ forall (World : Type) invoke fuel x (w : World),
               Bus.readData invoke fuel x bus hfin w = Bus.readData invoke fuel x bus h w)
  /\
  ((Memory.nWriteTraps m = 0%nat -> Memory.writePrev m = None /\ Memory.writeTrap m = None) ->
   (Memory.nWriteTraps m <> 0%nat -> Memory.writeTrap m = Some f) ->
   exists hn mn,
     Bus.repeatOp (Bus.trapWrite a f bus) n h = Ret (repeat true n, hn)
     /\ hn !! l = Some mn
     /\ Memory.nWriteTraps mn = (Memory.nWriteTraps m + n)%nat
     /\ Memory.writeTrap mn = Some f
     /\ (Memory.nWriteTraps m = 0%nat ->
           Memory.writeData mn = Some (Memory.WriteTrapFn l)
           /\ Memory.writePrev mn = Memory.writeData m)
     /\ (forall k : nat, (k < n)%nat ->
           exists hk mk,
             Bus.repeatOp (Bus.untrapWrite a f bus) k hn = Ret (repeat true k, hk)
             /\ hk !! l = Some mk
             /\ Memory.nWriteTraps mk <> 0%nat
             /\ Memory.writeData mk = Memory.writeData mn
             /\ Memory.writePrev mk = Memory.writePrev mn
             /\ Memory.writeTrap mk = Some f)
     /\ exists hfin,
          Bus.repeatOp (Bus.untrapWrite a f bus) n hn = Ret (repeat true n, hfin)
          /\ hfin = h
          /\ (Memory.writeData <$> hfin !! l) = Some (Memory.writeData m)
          /\ forall (World : Type) invoke fuel x v (w : World),
               Bus.writeData invoke fuel x v bus hfin w = Bus.writeData invoke fuel x v bus h w).
Proof.
  intros Hat Hn. pose proof (blockAt_heap bus h _ l m Hat) as Hm. split.
  - intros Hinv Hsame.
    destruct (trap_untrap_read bus h a f l m Hat n Hn Hinv Hsame)
      as (hn & mn & H1 & H2 & H3 & H4 & H5 & H6 & H7).
    exists hn, mn. repeat (split; [assumption|]). split.
    + intros k Hk. destruct (H6 k Hk) as (hk & mk & ? & ? & ? & ? & ? & ? & ?).
      exists hk, mk. repeat (split; [assumption|]). assumption.
    + exists h. split; [exact H7|]. split; [reflexivity|]. split; [rewrite Hm; reflexivity|].
      reflexivity.
  - intros Hinv Hsame.
    destruct (trap_untrap_write bus h a f l m Hat n Hn Hinv Hsame)
      as (hn & mn & H1 & H2 & H3 & H4 & H5 & H6 & H7).
    exists hn, mn. repeat (split; [assumption|]). split.
    + intros k Hk. destruct (H6 k Hk) as (hk & mk & ? & ? & ? & ? & ? & ? & ?).
      exists hk, mk. repeat (split; [assumption|]). assumption.
    + exists h. split; [exact H7|]. split; [reflexivity|]. split; [rewrite Hm; reflexivity|].
      reflexivity.
Qed.

(** On the demo bus: two [trapRead(0x450, 7)], then two [untrapRead]. *)
Lemma trap_untrap_restores_witness :
  exists hn,
    Bus.repeatOp (Bus.trapRead 0x450 7 Demo.bus) 2 Demo.heap = Ret ([true; true], hn)
    /\ Bus.repeatOp (Bus.untrapRead 0x450 7 Demo.bus) 2 hn = Ret ([true; true], Demo.heap).
Proof.
  destruct (Demo.heap !! 1%nat) as [m|] eqn:Em; [|vm_compute in Em; discriminate].
  assert (Hat : Bus.blockAt Demo.bus Demo.heap (JS.shr 0x450 (Bus.blockShift Demo.bus)) = Some (1%nat, m)).
  { revert Em. vm_compute. intros [= <-]. reflexivity. }
  destruct (proj1 (trap_untrap_restores Demo.bus Demo.heap 0x450 7 2 1 m Hat ltac:(lia)))
    as (hn & mn & H1 & _ & _ & _ & _ & _ & hfin & H2 & -> & _).
  - revert Em. vm_compute. intros [= <-]. split; reflexivity.
  - revert Em. vm_compute. intros [= <-] H. contradiction.
  - exists hn. split; assumption.
Defined.

(** ** The trap wrappers *)

Section WrapperFacts.

Import Memory Bus.

Context {World : Type}.
Variable invoke : nat -> option Z -> Z -> list Memory.t -> World -> Outcome unit * World.

(** A read through the wrapper of a read trap. *)
Lemma readData_through_trap
    (bus : Bus.t) (h : list Memory.t) (x : Z) (fuel : nat) (w : World)
    (l : nat) (m : Memory.t) p f :
  blockAt bus h (JS.shr (JS.and x (addrLimit bus)) (blockShift bus)) = Some (l, m) ->
  Memory.readData m = Some (ReadTrapFn l) -> readPrev m = Some p -> readTrap m = Some f ->
  Bus.readData invoke (S fuel) x bus h w =
    match callRead invoke fuel l p (JS.and x (blockLimit bus)) h w with
    | (Exc e, w1) => (Exc e, w1)
    | (Ret v, w1) =>
        match invoke f (addrPlus (addr (data m)) (JS.and x (blockLimit bus))) v h w1 with
        | (Exc e, w2) => (Exc e, w2)
        | (Ret _, w2) => (Ret v, w2)
        end
    end.
Proof.
  intros Hat Hd Hp Ht. pose proof (blockAt_heap bus h _ l m Hat) as Hm.
  unfold Bus.readData. rewrite Hat, Hd.
  cbn [callRead]. rewrite Hm, Hp.
  destruct (callRead invoke fuel l p (JS.and x (blockLimit bus)) h w) as [[v|e] w1];
    [|reflexivity].
  rewrite Ht. reflexivity.
Qed.

(** A write through the wrapper of a write trap. *)
Lemma writeData_through_trap
    (bus : Bus.t) (h : list Memory.t) (x value : Z) (fuel : nat) (w : World)
    (l : nat) (m : Memory.t) q f :
  blockAt bus h (JS.shr (JS.and x (addrLimit bus)) (blockShift bus)) = Some (l, m) ->
  Memory.writeData m = Some (WriteTrapFn l) -> writePrev m = Some q -> writeTrap m = Some f ->
  Bus.writeData invoke (S fuel) x value bus h w =
    match invoke f (addrPlus (addr (data m)) (JS.and x (blockLimit bus))) value h w with
    | (Exc e, w1) => (Exc e, h, w1)
    | (Ret _, w1) => callWrite invoke fuel l q (JS.and x (blockLimit bus)) value h w1
    end.
Proof.
  intros Hat Hd Hq Ht. pose proof (blockAt_heap bus h _ l m Hat) as Hm.
  unfold Bus.writeData. rewrite Hat, Hd.
  cbn [callWrite]. rewrite Hm, Ht.
  destruct (invoke f (addrPlus (addr (data m)) (JS.and x (blockLimit bus))) value h w)
    as [[u|e] w1]; [|reflexivity].
  rewrite Hq. reflexivity.
Qed.

(** C5.  Trap callback ordering.  Let [x] be an address of a block [m]
    (at location [l]).  If a read trap is installed on it (the slot holds the
    wrapper of this block, with previous function [p] and callback [f]), a
    bus read first obtains the value [v] through [p], then invokes [f] with
    [(block.addr + offset, v)] in the world the read left, and returns [v]
    itself.  If a write trap is installed (previous function [q]), a bus
    write first invokes [f] with [(block.addr + offset, value)] on the heap
    as it is before the store, and only then stores through [q]; when the
    callback throws, the store is not performed. *)
Theorem trap_callback_order
    (bus : Bus.t) (h : list Memory.t) (x value : Z) (fuel : nat) (w : World)
    (l : nat) (m : Memory.t) :
  blockAt bus h (JS.shr (JS.and x (addrLimit bus)) (blockShift bus)) = Some (l, m) ->
  let offset := JS.and x (blockLimit bus) in
  (forall p f,
     Memory.readData m = Some (ReadTrapFn l) -> readPrev m = Some p -> readTrap m = Some f ->
     Bus.readData invoke (S fuel) x bus h w =
       match callRead invoke fuel l p offset h w with
       | (Exc e, w1) => (Exc e, w1)
       | (Ret v, w1) =>
           match invoke f (addrPlus (addr (data m)) offset) v h w1 with
           | (Exc e, w2) => (Exc e, w2)
           | (Ret _, w2) => (Ret v, w2)
           end
       end)
  /\
  (forall q f,
     Memory.writeData m = Some (WriteTrapFn l) -> writePrev m = Some q -> writeTrap m = Some f ->
     Bus.writeData invoke (S fuel) x value bus h w =
       match invoke f (addrPlus (addr (data m)) offset) value h w with
       | (Exc e, w1) => (Exc e, h, w1)
       | (Ret _, w1) => callWrite invoke fuel l q offset value h w1
       end).
Proof.
  intros Hat offset. split.
  - intros p f Hd Hp Ht. apply readData_through_trap; assumption.
  - intros q f Hd Hq Ht. apply writeData_through_trap; assumption.
Qed.

(** After a first [trapRead(a, f)] on a block whose slot holds a method [g]
    of the block, a read of any address [x] of that block yields the value
    the untrapped read yields, and calls [f] with it afterwards. *)
Lemma read_after_trapRead
    (bus : Bus.t) (h h1 : list Memory.t) (a x : Z) (f : nat) (fuel : nat) (w : World)
    (l : nat) (m : Memory.t) (g : Data -> Z -> Z) :
  blockAt bus h (JS.shr a (blockShift bus)) = Some (l, m) ->
  blockAt bus h (JS.shr (JS.and x (addrLimit bus)) (blockShift bus)) = Some (l, m) ->
  nReadTraps m = 0%nat ->
  Memory.readData m = Some (ReadPrim g) ->
  trapRead a f bus h = Ret (true, h1) ->
  let offset := JS.and x (blockLimit bus) in
  let v := g (data m) offset in
  Bus.readData invoke fuel x bus h w = (Ret v, w) /\
  Bus.readData invoke (S fuel) x bus h1 w =
    match invoke f (addrPlus (addr (data m)) offset) v h1 w with
    | (Exc e, w2) => (Exc e, w2)
    | (Ret _, w2) => (Ret v, w2)
    end.
Proof.
  intros Ha Hx Hz Hg Htrap offset v.
  pose proof (blockAt_heap bus h _ l m Hx) as Hm.
  split.
  - unfold Bus.readData. rewrite Hx, Hg. destruct fuel; cbn [callRead]; rewrite Hm; reflexivity.
  - unfold trapRead in Htrap. rewrite Ha, Hz in Htrap. cbn in Htrap.
    injection Htrap as <-.
    set (m1 := setRead m (Some (ReadTrapFn l)) (Memory.readData m) (Some f) 1).
    pose proof (blockAt_insert bus h _ l m m1 Hx) as Hx1.
    rewrite (readData_through_trap bus (<[l := m1]> h) x fuel w l m1 (ReadPrim g) f Hx1);
      [| reflexivity | exact Hg | reflexivity].
    fold offset. destruct fuel; cbn [callRead];
      rewrite (blockAt_heap bus _ _ l m1 Hx1); reflexivity.
Qed.

(** After a first [trapWrite(a, f)] on a block whose slot holds a method
    [g], a write to an address [x] of that block calls [f] on the heap as it
    stands before the store (the block's attributes are still those of [m]),
    and then stores with [g]. *)
Lemma write_after_trapWrite
    (bus : Bus.t) (h h1 : list Memory.t) (a x value : Z) (f : nat) (fuel : nat) (w : World)
    (l : nat) (m : Memory.t) (g : Data -> Z -> Z -> Data) :
  blockAt bus h (JS.shr a (blockShift bus)) = Some (l, m) ->
  blockAt bus h (JS.shr (JS.and x (addrLimit bus)) (blockShift bus)) = Some (l, m) ->
  nWriteTraps m = 0%nat ->
  Memory.writeData m = Some (WritePrim g) ->
  trapWrite a f bus h = Ret (true, h1) ->
  let offset := JS.and x (blockLimit bus) in
  exists m1,
    h1 !! l = Some m1 /\ data m1 = data m /\
    Bus.writeData invoke (S fuel) x value bus h1 w =
      match invoke f (addrPlus (addr (data m)) offset) value h1 w with
      | (Exc e, w1) => (Exc e, h1, w1)
      | (Ret _, w1) => (Ret tt, <[l := setData m1 (g (data m) offset value)]> h1, w1)
      end.
Proof.
  intros Ha Hx Hz Hg Htrap offset.
  unfold trapWrite in Htrap. rewrite Ha, Hz in Htrap. cbn in Htrap.
  injection Htrap as <-.
  set (m1 := setWrite m (Some (WriteTrapFn l)) (Memory.writeData m) (Some f) 1).
  pose proof (blockAt_insert bus h _ l m m1 Hx) as Hx1.
  pose proof (blockAt_heap bus _ _ l m1 Hx1) as Hm1.
  exists m1. split; [exact Hm1|]. split; [reflexivity|].
  rewrite (writeData_through_trap bus (<[l := m1]> h) x value fuel w l m1 (WritePrim g) f Hx1);
    [| reflexivity | exact Hg | reflexivity].
  fold offset. change (data m1) with (data m).
  destruct (invoke f (addrPlus (addr (data m)) offset) value (<[l := m1]> h) w) as [[u|e] w1];
    [|reflexivity].
  destruct fuel; cbn [callWrite]; rewrite Hm1; reflexivity.
Qed.

End WrapperFacts.

(** ** The trap operations keep the blocks well formed *)

Section InvariantFacts.

Import Memory Bus.

Variable bus : Bus.t.

Lemma heapOk_insert (h : list Memory.t) l m' :
  heapOk h -> readSlotsOk l m' /\ writeSlotsOk l m' -> heapOk (<[l := m']> h).
Proof.
  intros Hok Hm' l0 m0 H0.
  destruct (decide (l0 = l)) as [->|Hne].
  - apply list_lookup_insert_Some in H0 as [(_ & <- & _) | (Hne & _)]; [exact Hm' | congruence].
  - rewrite list_lookup_insert_ne in H0 by congruence. exact (Hok l0 m0 H0).
Qed.

Lemma populated_insert (h : list Memory.t) l m' :
  populated bus h -> populated bus (<[l := m']> h).
Proof.
  intros Hp i Hi. destruct (Hp i Hi) as (l0 & m0 & Hl0 & Hm0).
  destruct (lookup_lt_is_Some_2 (<[l := m']> h) l0) as [m1 Hm1].
  { rewrite length_insert. eapply lookup_lt_Some, Hm0. }
  exists l0, m1. split; assumption.
Qed.

Lemma trapRead_heapOk a f (h h' : list Memory.t) b :
  heapOk h -> trapRead a f bus h = Ret (b, h') -> heapOk h' /\ (populated bus h -> populated bus h').
Proof.
  intros Hok. unfold trapRead.
  destruct (blockAt bus h (JS.shr a (blockShift bus))) as [[l m]|] eqn:Hat; [|discriminate].
  pose proof (blockAt_heap bus h _ l m Hat) as Hm.
  destruct (Hok l m Hm) as [[Hr0 Hr1] Hw].
  destruct (Nat.eqb_spec (nReadTraps m) 0) as [Hz|Hnz].
  - intros [= <- <-]. split; [|apply populated_insert].
    apply heapOk_insert; [exact Hok|]. split; [|exact Hw].
    destruct (Hr0 Hz) as (_ & _ & g & Hg). split; cbn.
    + intros H. discriminate H.
    + intros _. split; [reflexivity|]. exists g, f. split; [exact Hg | reflexivity].
  - destruct (decide (readTrap m = Some f)) as [Hf|Hf].
    + intros [= <- <-]. split; [|apply populated_insert].
      apply heapOk_insert; [exact Hok|]. split; [|exact Hw].
      split; cbn; [intros H; discriminate H | intros _; exact (Hr1 Hnz)].
    + intros [= <- <-]. split; [exact Hok | auto].
Qed.

Lemma trapWrite_heapOk a f (h h' : list Memory.t) b :
  heapOk h -> trapWrite a f bus h = Ret (b, h') -> heapOk h' /\ (populated bus h -> populated bus h').
Proof.
  intros Hok. unfold trapWrite.
  destruct (blockAt bus h (JS.shr a (blockShift bus))) as [[l m]|] eqn:Hat; [|discriminate].
  pose proof (blockAt_heap bus h _ l m Hat) as Hm.
  destruct (Hok l m Hm) as [Hr [Hw0 Hw1]].
  destruct (Nat.eqb_spec (nWriteTraps m) 0) as [Hz|Hnz].
  - intros [= <- <-]. split; [|apply populated_insert].
    apply heapOk_insert; [exact Hok|]. split; [exact Hr|].
    destruct (Hw0 Hz) as (_ & _ & g & Hg). split; cbn.
    + intros H. discriminate H.
    + intros _. split; [reflexivity|]. exists g, f. split; [exact Hg | reflexivity].
  - destruct (decide (writeTrap m = Some f)) as [Hf|Hf].
    + intros [= <- <-]. split; [|apply populated_insert].
      apply heapOk_insert; [exact Hok|]. split; [exact Hr|].
      split; cbn; [intros H; discriminate H | intros _; exact (Hw1 Hnz)].
    + intros [= <- <-]. split; [exact Hok | auto].
Qed.

Lemma untrapRead_heapOk a f (h h' : list Memory.t) b :
  heapOk h -> untrapRead a f bus h = Ret (b, h') -> heapOk h' /\ (populated bus h -> populated bus h').
Proof.
  intros Hok. unfold untrapRead.
  destruct (blockAt bus h (JS.shr a (blockShift bus))) as [[l m]|] eqn:Hat; [|discriminate].
  pose proof (blockAt_heap bus h _ l m Hat) as Hm.
  destruct (Hok l m Hm) as [[Hr0 Hr1] Hw].
  destruct (Nat.eqb_spec (nReadTraps m) 0) as [Hz|Hnz]; cbn [negb andb].
  - intros [= <- <-]. split; [exact Hok | auto].
  - case_bool_decide as Hf; [|intros [= <- <-]; split; [exact Hok | auto]].
    destruct (Hr1 Hnz) as (Hd & g & cb & Hp & Ht).
    destruct (Nat.eqb_spec (pred (nReadTraps m)) 0) as [Hlast|Hmore].
    + intros [= <- <-]. split; [|apply populated_insert].
      apply heapOk_insert; [exact Hok|]. split; [|exact Hw].
      split; cbn.
      * intros _. split; [reflexivity|]. split; [reflexivity|]. exists g. exact Hp.
      * intros H. contradiction.
    + intros [= <- <-]. split; [|apply populated_insert].
      apply heapOk_insert; [exact Hok|]. split; [|exact Hw].
      split; cbn; [intros H; contradiction | intros _; exact (Hr1 Hnz)].
Qed.

Lemma untrapWrite_heapOk a f (h h' : list Memory.t) b :
  heapOk h -> untrapWrite a f bus h = Ret (b, h') -> heapOk h' /\ (populated bus h -> populated bus h').
Proof.
  intros Hok. unfold untrapWrite.
  destruct (blockAt bus h (JS.shr a (blockShift bus))) as [[l m]|] eqn:Hat; [|discriminate].
  pose proof (blockAt_heap bus h _ l m Hat) as Hm.
  destruct (Hok l m Hm) as [Hr [Hw0 Hw1]].
  destruct (Nat.eqb_spec (nWriteTraps m) 0) as [Hz|Hnz]; cbn [negb andb].
  - intros [= <- <-]. split; [exact Hok | auto].
  - case_bool_decide as Hf; [|intros [= <- <-]; split; [exact Hok | auto]].
    destruct (Hw1 Hnz) as (Hd & g & cb & Hp & Ht).
    destruct (Nat.eqb_spec (pred (nWriteTraps m)) 0) as [Hlast|Hmore].
    + intros [= <- <-]. split; [|apply populated_insert].
      apply heapOk_insert; [exact Hok|]. split; [exact Hr|].
      split; cbn.
      * intros _. split; [reflexivity|]. split; [reflexivity|]. exists g. exact Hp.
      * intros H. contradiction.
    + intros [= <- <-]. split; [|apply populated_insert].
      apply heapOk_insert; [exact Hok|]. split; [exact Hr|].
      split; cbn; [intros H; contradiction | intros _; exact (Hw1 Hnz)].
Qed.

End InvariantFacts.

(** ** Address routing *)

Lemma mod_pow2_mod_pow2 a k n : 0 <= k <= n -> (a mod 2 ^ n) mod 2 ^ k = a mod 2 ^ k.
Proof.
  intros H.
  assert (E : 2 ^ n = 2 ^ k * 2 ^ (n - k)).
  { rewrite <- Z.pow_add_r by lia. f_equal; lia. }
  assert (Hp : 0 < 2 ^ k) by (apply Z.pow_pos_nonneg; lia).
  assert (Hq : 0 < 2 ^ (n - k)) by (apply Z.pow_pos_nonneg; lia).
  rewrite E, Z.rem_mul_r by lia.
  rewrite (Z.mul_comm (2 ^ k)), Z.mod_add, Z.mod_mod by lia. reflexivity.
Qed.

Lemma ToInt32_all_ones : JS.ToInt32 (2 ^ 32 - 1) = -1.
Proof. reflexivity. Qed.

(** Masking with [addrLimit] and shifting yields the block index of the
    address wrapped into the address space. *)
Lemma route_index a aw k :
  0 <= k <= 31 -> k <= aw <= 32 ->
  JS.shr (JS.and a (JS.ToInt32 (2 ^ aw - 1))) k = (a mod 2 ^ aw) / 2 ^ k.
Proof.
  intros Hk Haw.
  assert (Hp : 0 < 2 ^ aw) by (apply Z.pow_pos_nonneg; lia).
  destruct (Z.eq_dec aw 32) as [->|Hne].
  - rewrite ToInt32_all_ones. unfold JS.and.
    replace (JS.ToInt32 (-1)) with (-1) by reflexivity.
    rewrite Z.land_m1_r.
    unfold JS.shr. rewrite ToUint32_ToInt32, count_small by lia.
    unfold JS.ToUint32. apply Z.shiftr_div_pow2. lia.
  - assert (Hle : 2 ^ aw <= 2 ^ 31) by (apply Z.pow_le_mono_r; lia).
    rewrite (ToInt32_small (2 ^ aw - 1)) by lia.
    rewrite and_ones by lia.
    pose proof (Z.mod_pos_bound a (2 ^ aw) Hp).
    apply shr_div; lia.
Qed.

Lemma route_index_bound a aw k :
  0 <= k <= aw -> 0 <= (a mod 2 ^ aw) / 2 ^ k < 2 ^ (aw - k).
Proof.
  intros H.
  assert (Hp : 0 < 2 ^ aw) by (apply Z.pow_pos_nonneg; lia).
  assert (Hq : 0 < 2 ^ k) by (apply Z.pow_pos_nonneg; lia).
  pose proof (Z.mod_pos_bound a (2 ^ aw) Hp).
  split; [apply Z.div_pos; lia|].
  apply Z.div_lt_upper_bound; [lia|].
  rewrite <- Z.pow_add_r by lia. replace (k + (aw - k)) with aw by lia. lia.
Qed.

Section RouteFacts.

Import Memory Bus.

Context {World : Type}.
Variable invoke : nat -> option Z -> Z -> list Memory.t -> World -> Outcome unit * World.

Variables (bus : Bus.t) (h : list Memory.t).
Hypothesis Hsized : wellSized bus.

Lemma index_wraps a :
  JS.shr (JS.and a (addrLimit bus)) (blockShift bus)
  = (a mod 2 ^ addrWidth bus) / 2 ^ blockShift bus.
Proof.
  destruct Hsized as ([Hk _] & Haw & _ & -> & _). apply route_index; lia.
Qed.

Lemma offset_wraps a : JS.and a (blockLimit bus) = a mod 2 ^ blockShift bus.
Proof.
  destruct Hsized as ([Hk _] & _ & _ & _ & -> & _). apply and_shl_mask; lia.
Qed.

Lemma index_in_table a :
  0 <= JS.shr (JS.and a (addrLimit bus)) (blockShift bus) < Z.of_nat (length (blocks bus)).
Proof.
  rewrite index_wraps.
  destruct Hsized as ([Hk _] & Haw & _ & _ & _ & ->). apply route_index_bound; lia.
Qed.

Lemma route_same a :
  JS.shr (JS.and (a mod 2 ^ addrWidth bus) (addrLimit bus)) (blockShift bus)
    = JS.shr (JS.and a (addrLimit bus)) (blockShift bus)
  /\ JS.and (a mod 2 ^ addrWidth bus) (blockLimit bus) = JS.and a (blockLimit bus).
Proof.
  destruct Hsized as ([Hk _] & Haw & _).
  rewrite !index_wraps, !offset_wraps.
  assert (Hp : 0 < 2 ^ addrWidth bus) by (apply Z.pow_pos_nonneg; lia).
  rewrite Z.mod_mod by lia.
  rewrite mod_pow2_mod_pow2 by lia. split; reflexivity.
Qed.

Hypothesis Hpop : populated bus h.

Lemma routed_block a :
  exists l m, blockAt bus h (JS.shr (JS.and a (addrLimit bus)) (blockShift bus)) = Some (l, m).
Proof.
  pose proof (index_in_table a) as Hi.
  set (i := JS.shr (JS.and a (addrLimit bus)) (blockShift bus)) in *.
  destruct (Hpop (Z.to_nat i) ltac:(lia)) as (l & m & Hl & Hm).
  exists l, m. unfold blockAt.
  destruct (Z.ltb_spec i 0); [lia|]. rewrite Hl, Hm. reflexivity.
Qed.

Hypothesis Hheap : heapOk h.

(** A read through a well-formed slot returns, unless the callback
    throws. *)
Lemma readData_returns fuel a (w : World) :
  exists o w', Bus.readData invoke (S fuel) a bus h w = (o, w') /\
    ((exists v, o = Ret v) \/
     (exists cb ad v w0 e, invoke cb ad v h w0 = (Exc e, w') /\ o = Exc e)).
Proof.
  destruct (routed_block a) as (l & m & Hat).
  pose proof (blockAt_heap bus h _ l m Hat) as Hm.
  destruct (Hheap l m Hm) as [[Hr0 Hr1] _].
  unfold Bus.readData. rewrite Hat.
  destruct (Nat.eq_dec (nReadTraps m) 0%nat) as [Hz|Hnz].
  - destruct (Hr0 Hz) as (_ & _ & g & ->). cbn [callRead]. rewrite Hm.
    eexists _, _. split; [reflexivity|]. left. eauto.
  - destruct (Hr1 Hnz) as (-> & g & cb & Hp & Ht). cbn [callRead]. rewrite Hm, Hp.
    destruct fuel; cbn [callRead]; rewrite Hm, Ht.
    all: destruct (invoke cb (addrPlus (addr (data m)) (JS.and a (blockLimit bus)))
                     (g (data m) (JS.and a (blockLimit bus))) h w) as [[u|e] w'] eqn:E.
    all: eexists _, _; (split; [reflexivity|]).
    all: first [left; eexists; reflexivity | right; eexists _, _, _, _, _; split; [exact E|reflexivity]].
Qed.

Lemma writeData_returns fuel a v (w : World) :
  exists o h' w', Bus.writeData invoke (S fuel) a v bus h w = (o, h', w') /\
    (o = Ret tt \/
     (exists cb ad w0 e, invoke cb ad v h w0 = (Exc e, w') /\ o = Exc e)).
Proof.
  destruct (routed_block a) as (l & m & Hat).
  pose proof (blockAt_heap bus h _ l m Hat) as Hm.
  destruct (Hheap l m Hm) as [_ [Hw0 Hw1]].
  unfold Bus.writeData. rewrite Hat.
  destruct (Nat.eq_dec (nWriteTraps m) 0%nat) as [Hz|Hnz].
  - destruct (Hw0 Hz) as (_ & _ & g & ->). cbn [callWrite]. rewrite Hm.
    eexists _, _, _. split; [reflexivity|]. left. reflexivity.
  - destruct (Hw1 Hnz) as (-> & g & cb & Hp & Ht). cbn [callWrite]. rewrite Hm, Ht.
    destruct (invoke cb (addrPlus (addr (data m)) (JS.and a (blockLimit bus))) v h w)
      as [[u|e] w'] eqn:E.
    + rewrite Hp. destruct fuel; cbn [callWrite]; rewrite Hm;
        (eexists _, _, _; split; [reflexivity|left; reflexivity]).
    + eexists _, _, _. split; [reflexivity|]. right. eexists _, _, _, _. split; [exact E|reflexivity].
Qed.

End RouteFacts.

(** C9.  On a bus of at most 32 address bits whose block size is a power
    of two, every address [a] of [[0, 2^32]] is routed like [a mod
    2^addrWidth]: [readData] and [writeData] behave the same on both (same
    value, same store, same callbacks), the masked index lies inside the
    block table, and with every index populated and the blocks' slots well
    formed the access returns; the only exception an access can end in is one
    thrown by a trap callback. *)
Theorem bus_address_wraps
    {World : Type} (invoke : nat -> option Z -> Z -> list Memory.t -> World -> Outcome unit * World)
    (bus : Bus.t) (h : list Memory.t) (a : Z) :
  Bus.wellSized bus ->
  0 <= a <= 2 ^ 32 ->
  let a' := a mod 2 ^ Bus.addrWidth bus in
  let i := JS.shr (JS.and a (Bus.addrLimit bus)) (Bus.blockShift bus) in
  (forall fuel w, Bus.readData invoke fuel a bus h w = Bus.readData invoke fuel a' bus h w)
  /\ (forall fuel v w,
        Bus.writeData invoke fuel a v bus h w = Bus.writeData invoke fuel a' v bus h w)
  /\ 0 <= i < Z.of_nat (length (Bus.blocks bus))
  /\ (Bus.populated bus h -> Bus.heapOk h ->
      (forall fuel w, exists o w',
         Bus.readData invoke (S fuel) a bus h w = (o, w') /\
         ((exists v, o = Ret v) \/
          (exists cb ad v w0 e, invoke cb ad v h w0 = (Exc e, w') /\ o = Exc e)))
      /\
      (forall fuel v w, exists o h' w',
         Bus.writeData invoke (S fuel) a v bus h w = (o, h', w') /\
         (o = Ret tt \/
          (exists cb ad w0 e, invoke cb ad v h w0 = (Exc e, w') /\ o = Exc e)))).
Proof.
  intros Hs Ha a' i.
  destruct (route_same bus Hs a) as [Hi Ho]. fold a' in Hi, Ho.
  split; [|split; [|split; [|split]]].
  - intros fuel w. unfold Bus.readData. rewrite Hi, Ho. reflexivity.
  - intros fuel v w. unfold Bus.writeData. rewrite Hi, Ho. reflexivity.
  - apply index_in_table. exact Hs.
  - intros fuel w. apply readData_returns; assumption.
  - intros fuel v w. apply writeData_returns; assumption.
Qed.

(** On the example bus with a read and a write trap of callback 7 on the
    RAM block: a read of 0x450 reports the value read, and a write of 0xAB
    is reported while the byte still holds its old value. *)
Lemma trap_callback_order_witness :
  (exists v, Bus.readData Demo.record 2 0x450 Demo.bus Demo.trapped []
             = (Ret v, [(7%nat, Some 0x450, v)]))
  /\ (exists h', Bus.writeData Demo.record 2 0x450 0xAB Demo.bus Demo.trapped []
                 = (Ret tt, h', [(7%nat, Some 0x450, 0xAB)])
                 /\ Bus.readData Demo.record 2 0x450 Demo.bus h' []
                    = (Ret 0xAB, [(7%nat, Some 0x450, 0xAB)])).
Proof.
  destruct (Demo.trapped !! 1%nat) as [m|] eqn:Em; [|vm_compute in Em; discriminate].
  assert (Hat : Bus.blockAt Demo.bus Demo.trapped
                  (JS.shr (JS.and 0x450 (Bus.addrLimit Demo.bus)) (Bus.blockShift Demo.bus))
                = Some (1%nat, m)).
  { revert Em. vm_compute. intros [= <-]. reflexivity. }
  destruct (trap_callback_order Demo.record Demo.bus Demo.trapped 0x450 0xAB 1 [] 1 m Hat)
    as [Hr Hw].
  split.
  - eexists. rewrite (Hr (Memory.ReadPrim Memory.readValue) 7%nat).
    + revert Em. vm_compute. intros [= <-]. reflexivity.
    + revert Em. vm_compute. intros [= <-]. reflexivity.
    + revert Em. vm_compute. intros [= <-]. reflexivity.
    + revert Em. vm_compute. intros [= <-]. reflexivity.
  - eexists. rewrite (Hw (Memory.WritePrim Memory.writeValue) 7%nat).
    + revert Em. vm_compute. intros [= <-]. split; reflexivity.
    + revert Em. vm_compute. intros [= <-]. reflexivity.
    + revert Em. vm_compute. intros [= <-]. reflexivity.
    + revert Em. vm_compute. intros [= <-]. reflexivity.
Defined.

(** On the example bus of 12 address bits, 0x1450 is routed like 0x450. *)
Lemma bus_address_wraps_witness :
  (forall fuel w,
     Bus.readData Demo.record fuel 0x1450 Demo.bus Demo.heap w
     = Bus.readData Demo.record fuel 0x450 Demo.bus Demo.heap w)
  /\ (forall fuel v w,
        Bus.writeData Demo.record fuel 0x1450 v Demo.bus Demo.heap w
        = Bus.writeData Demo.record fuel 0x450 v Demo.bus Demo.heap w)
  /\ (forall fuel w, exists v w',
        Bus.readData Demo.record (S fuel) 0x1450 Demo.bus Demo.heap w = (Ret v, w')).
Proof.
  assert (Hs : Bus.wellSized Demo.bus).
  { unfold Bus.wellSized, Bus.blockGeometry. vm_compute.
    repeat split; try reflexivity; try discriminate. }
  destruct (bus_address_wraps Demo.record Demo.bus Demo.heap 0x1450 Hs ltac:(lia))
    as (Hr & Hw & _ & Hret).
  split; [exact Hr|]. split; [exact Hw|].
  intros fuel w. destruct Hret as [Hread _].
  - intros i Hi. change (length (Bus.blocks Demo.bus)) with 4%nat in Hi.
    destruct i as [|[|[|[|i]]]]; [| | | |lia];
      (eexists _, _; split; vm_compute; reflexivity).
  - intros l m Hm.
    destruct l as [|[|l]]; [| |vm_compute in Hm; discriminate Hm];
      revert Hm; vm_compute; intros [= <-];
      (split; (split; [intros _; repeat split; eexists; reflexivity | intros H; contradiction])).
  - destruct (Hread fuel w) as (o & w' & E & [[v ->] | (cb & ad & v & w0 & e & Ecb & _)]).
    + exists v, w'. exact E.
    + discriminate Ecb.
Defined.

(** On the example bus: after [trapWrite(0x450, 7)], a write of 0xAB to
    0x451 is reported to the callback and then stored. *)
Lemma write_after_trapWrite_witness :
  exists h1 h2,
    Bus.trapWrite 0x450 7 Demo.bus Demo.heap = Ret (true, h1) /\
    Bus.writeData Demo.record 1 0x451 0xAB Demo.bus h1 []
    = (Ret tt, h2, [(7%nat, Some 0x451, 0xAB)]).
Proof.
  destruct (Demo.heap !! 1%nat) as [m|] eqn:Em; [|vm_compute in Em; discriminate].
  destruct (Bus.trapWrite 0x450 7 Demo.bus Demo.heap) as [[[|] h1]|e] eqn:Et;
    [|vm_compute in Et; discriminate..].
  assert (Hat : forall x, x = 0x450 \/ x = JS.and 0x451 (Bus.addrLimit Demo.bus) ->
            Bus.blockAt Demo.bus Demo.heap (JS.shr x (Bus.blockShift Demo.bus)) = Some (1%nat, m)).
  { intros x [-> | ->]; revert Em; vm_compute; intros [= <-]; reflexivity. }
  destruct (write_after_trapWrite Demo.record Demo.bus Demo.heap h1 0x450 0x451 0xAB 7 0 []
              1 m Memory.writeValue) as (m1 & Hm1 & Hd & Hrun).
  - apply Hat. left. reflexivity.
  - apply Hat. right. reflexivity.
  - revert Em. vm_compute. intros [= <-]. reflexivity.
  - revert Em. vm_compute. intros [= <-]. reflexivity.
  - exact Et.
  - assert (Ha : Bus.addrPlus (Memory.addr (Memory.data m))
                   (JS.and 0x451 (Bus.blockLimit Demo.bus)) = Some 0x451).
    { revert Em. vm_compute. intros [= <-]. reflexivity. }
    eexists h1, _. split; [reflexivity|].
    rewrite Hrun. unfold Demo.record. rewrite Ha. reflexivity.
Defined.

(** ** Segment registers: real mode *)

Section SegFacts.

Import X86Seg.

Variable ext_ : Ext.
Variable I386 : bool.

Lemma and_FFFF sel' : JS.and sel' 0xFFFF = sel' mod 2 ^ 16.
Proof. apply (and_ones sel' 16). lia. Qed.

Lemma shl4_selector z : 0 <= z < 2 ^ 16 -> JS.shl z 4 = z * 16.
Proof.
  intros H. unfold JS.shl. rewrite count_small by lia.
  rewrite (ToInt32_small z) by lia. rewrite Z.shiftl_mul_pow2 by lia.
  apply ToInt32_small. lia.
Qed.

Lemma seg_setSeg_eq r s c : seg (setSeg r s c) r = s.
Proof. cbn. rewrite decide_True by reflexivity. reflexivity. Qed.

Lemma seg_setSeg_ne r r' s c : r' <> r -> seg (setSeg r s c) r' = seg c r'.
Proof. intros H. cbn. rewrite decide_False by exact H. reflexivity. Qed.

(** C7.  In real mode (the [load] slot holds [loadReal]) [load(sel)] stores
    [sel & 0xFFFF] as the selector, sets the base to that value shifted left
    by 4 and returns it; every other attribute of the segment register, the
    other segment registers and the rest of the CPU are unchanged. *)
Theorem loadReal_sets_selector_and_base
    (fuel : nat) (r : Name) (sel' : Z) (fSuppress : bool) (c : CPU) :
  load (seg c r) = loadRealFn ->
  exists c',
    loadN ext_ I386 (S fuel) r sel' fSuppress c = Some ((sel' mod 2 ^ 16) * 16, c')
    /\ sel (seg c' r) = sel' mod 2 ^ 16
    /\ sel (seg c' r) = JS.and sel' 0xFFFF
    /\ base (seg c' r) = (sel' mod 2 ^ 16) * 16
    /\ base (seg c' r) = JS.shl (JS.and sel' 0xFFFF) 4
    /\ seg c' r = setBase (setSel (seg c r) (sel (seg c' r))) (base (seg c' r))
    /\ (limit (seg c' r) = limit (seg c r) /\ offMax (seg c' r) = offMax (seg c r)
        /\ acc (seg c' r) = acc (seg c r) /\ type (seg c' r) = type (seg c r)
        /\ ext (seg c' r) = ext (seg c r) /\ cpl (seg c' r) = cpl (seg c r)
        /\ dpl (seg c' r) = dpl (seg c r) /\ addrDesc (seg c' r) = addrDesc (seg c r)
        /\ dataSize (seg c' r) = dataSize (seg c r) /\ addrSize (seg c' r) = addrSize (seg c r)
        /\ dataMask (seg c' r) = dataMask (seg c r) /\ addrMask (seg c' r) = addrMask (seg c r))
    /\ (forall r', r' <> r -> seg c' r' = seg c r')
    /\ c' = setSeg r (seg c' r) c.
Proof.
  intros Hreal.
  pose proof (Z.mod_pos_bound sel' (2 ^ 16) ltac:(lia)) as Hb.
  eexists. split.
  - cbn [loadN]. unfold callLoad. rewrite Hreal. unfold loadReal.
    cbn [sel setSel]. rewrite and_FFFF, shl4_selector by exact Hb. reflexivity.
  - rewrite seg_setSeg_eq. cbn [sel base setSel setBase limit offMax acc type ext cpl dpl
      addrDesc dataSize addrSize dataMask addrMask].
    rewrite and_FFFF, shl4_selector by exact Hb.
    repeat split; try reflexivity.
    + intros r' Hne. apply seg_setSeg_ne. exact Hne.
Qed.

End SegFacts.

(** After [CS.load(0xF000)] in real mode, [CS.base == 0xF0000]. *)
Lemma loadReal_sets_selector_and_base_witness :
  exists c',
    X86Seg.loadN Demo.ext false 1 X86Seg.segCS 0xF000 false Demo.realCPU = Some (0xF0000, c')
    /\ X86Seg.sel (X86Seg.seg c' X86Seg.segCS) = 0xF000
    /\ X86Seg.base (X86Seg.seg c' X86Seg.segCS) = 0xF0000.
Proof.
  destruct (loadReal_sets_selector_and_base Demo.ext false 0 X86Seg.segCS 0xF000 false Demo.realCPU)
    as (c' & H1 & H2 & _ & H3 & _).
  - reflexivity.
  - exists c'. split; [exact H1|]. split; [exact H2 | exact H3].
Defined.

(** ** Segment registers: the protected-mode checks *)

(** A CODE or EXPDOWN test that finds exactly EXPDOWN finds no CODE bit. *)
Lemma expdown_no_code a :
  JS.and a (JS.or X86.DESC.ACC.TYPE.CODE X86.DESC.ACC.TYPE.EXPDOWN) = X86.DESC.ACC.TYPE.EXPDOWN ->
  JS.and a X86.DESC.ACC.TYPE.CODE = 0.
Proof.
  unfold JS.and.
  change (JS.ToInt32 (JS.or X86.DESC.ACC.TYPE.CODE X86.DESC.ACC.TYPE.EXPDOWN)) with 0xC00.
  change (JS.ToInt32 X86.DESC.ACC.TYPE.CODE) with 0x800.
  change X86.DESC.ACC.TYPE.EXPDOWN with 0x400.
  intros H.
  replace 0x800 with (Z.land 0xC00 0x800) by reflexivity.
  rewrite Z.land_assoc, H. reflexivity.
Qed.

(** A CODE_READABLE test on such a descriptor does not find CODE_EXECONLY. *)
Lemma expdown_not_execonly a :
  JS.and a (JS.or X86.DESC.ACC.TYPE.CODE X86.DESC.ACC.TYPE.EXPDOWN) = X86.DESC.ACC.TYPE.EXPDOWN ->
  JS.and a X86.DESC.ACC.TYPE.CODE_READABLE <> X86.DESC.ACC.TYPE.CODE_EXECONLY.
Proof.
  intros H E. apply expdown_no_code in H. unfold JS.and in *.
  change (JS.ToInt32 X86.DESC.ACC.TYPE.CODE_READABLE) with 0x1A00 in E.
  change (JS.ToInt32 X86.DESC.ACC.TYPE.CODE) with 0x800 in H.
  change X86.DESC.ACC.TYPE.CODE_EXECONLY with 0x1800 in E.
  assert (E' : Z.land (Z.land (JS.ToInt32 a) 0x1A00) 0x800 = Z.land 0x1800 0x800) by (rewrite E; reflexivity).
  rewrite <- Z.land_assoc in E'. change (Z.land 0x1A00 0x800) with 0x800 in E'.
  rewrite H in E'. discriminate.
Qed.

Section CheckFacts.

Import X86Seg.

Variable ext_ : Ext.

Lemma protChecks_expand_down_writable s :
  nonNull (sel s) = true -> expandDown (acc s) -> writable (acc s) ->
  protChecks s = (checkReadProtDownFn, checkWriteProtDownFn, true).
Proof.
  intros Hsel [Hseg Hdown] Hw. unfold protChecks.
  unfold nonNull in Hsel. rewrite Hsel. cbn [negb].
  rewrite Hseg.
  destruct (Z.eqb_spec (JS.and (acc s) X86.DESC.ACC.TYPE.CODE_READABLE) X86.DESC.ACC.TYPE.CODE_EXECONLY)
    as [E|_]; [exfalso; exact (expdown_not_execonly _ Hdown E)|].
  rewrite (expdown_no_code _ Hdown). unfold writable in Hw. rewrite Hw.
  cbn [JS.truthy Z.eqb negb orb].
  rewrite Hdown, Z.eqb_refl. reflexivity.
Qed.

Lemma protChecks_expand_down_readonly s :
  nonNull (sel s) = true -> expandDown (acc s) ->
  JS.truthy (JS.and (acc s) X86.DESC.ACC.TYPE.WRITABLE) = false ->
  protChecks s = (checkReadProtDownFn, checkWriteProtDisallowedFn, true).
Proof.
  intros Hsel [Hseg Hdown] Hw. unfold protChecks.
  unfold nonNull in Hsel. rewrite Hsel. cbn [negb].
  rewrite Hseg.
  destruct (Z.eqb_spec (JS.and (acc s) X86.DESC.ACC.TYPE.CODE_READABLE) X86.DESC.ACC.TYPE.CODE_EXECONLY)
    as [E|_]; [exfalso; exact (expdown_not_execonly _ Hdown E)|].
  rewrite (expdown_no_code _ Hdown), Hw.
  cbn [JS.truthy Z.eqb negb orb].
  rewrite Hdown, Z.eqb_refl. reflexivity.
Qed.

(** What [updateMode] leaves of the segment register in protected mode. *)
Lemma updateMode_prot_seg r fLoad fProt c :
  inProtectedMode fProt c = true ->
  let c' := snd (updateMode r fLoad fProt c) in
  let s := seg c r in
  let s' := seg c' r in
  sel s' = sel s /\ base s' = base s /\ limit s' = limit s /\ offMax s' = offMax s
  /\ acc s' = acc s /\ addrDesc s' = addrDesc s
  /\ (checkRead s', checkWrite s', fExpDown s') = protChecks (setFExpDown s false)
  /\ load s' = loadProtFn.
Proof.
  intros Hp c' s s'. subst c' s s'. unfold updateMode.
  replace (match fProt with Some b => b | None => JS.truthy (JS.and (regCR0 c) X86.CR0.PE) end)
    with true by (symmetry; exact Hp).
  unfold modSeg. rewrite !seg_setSeg_eq.
  destruct (protChecks (setFExpDown (seg c r) false)) as [[cr cw] down] eqn:E.
  destruct fLoad.
  - cbn [snd]. rewrite !seg_setSeg_eq.
    match goal with |- context [if ?b then setByte ?a ?v ?x else ?x] =>
      destruct b; [change (seg (setByte a v x) r) with (seg x r)|]; rewrite !seg_setSeg_eq end.
    all: match goal with |- context [if ?b then setSizes ?x _ _ else _] => destruct b end.
    all: cbn; repeat split; reflexivity.
  - cbn [snd]. rewrite !seg_setSeg_eq. cbn. repeat split; reflexivity.
Qed.

Lemma callCheckWrite_down r off cb fSuppress c :
  checkWrite (seg c r) = checkWriteProtDownFn ->
  callCheckWrite ext_ r off cb fSuppress c =
    if JS.shr off 0 + cb >? offMax (seg c r) then (JS.or (base (seg c r) + off) 0, c)
    else (X86.ADDR_INVALID,
          if fSuppress then c else fnFault ext_ X86.EXCEPTION.GP_FAULT (Some 0) None c).
Proof.
  intros H. unfold callCheckWrite. rewrite H. unfold checkWriteProtDown, checkWriteProtDisallowed.
  destruct fSuppress; reflexivity.
Qed.

Lemma shr0_unsigned off : 0 <= off < 2 ^ 32 -> JS.shr off 0 = off.
Proof.
  intros H. unfold JS.shr. rewrite count_small by lia.
  rewrite ToUint32_small by lia. apply Z.shiftr_0_r.
Qed.

(** The limit check of a writable expand-down segment, as the code has it.
    Take a segment register with a non-null selector and a data descriptor
    with EXPDOWN set and CODE clear, which is also writable, once
    [updateMode] has bound its functions in protected mode.  Then
    [checkWrite(off, cb)] inverts the limit check: it succeeds, returning
    [(base + off)|0] with no fault, exactly when [(off >>> 0) + cb > offMax];
    otherwise it returns ADDR_INVALID and raises #GP(0) unless [fSuppress] is
    true.  With [offMax = limit + 1] and an unsigned offset the test reads
    [off + cb - 1 > limit]: it is the last byte of the access that has to
    lie above the limit, not the first. *)
Theorem checkWrite_expand_down
    (r : Name) (fLoad : bool) (fProt : option bool) (c0 : CPU) (off cb : Z) (fSuppress : bool) :
  inProtectedMode fProt c0 = true ->
  nonNull (sel (seg c0 r)) = true ->
  expandDown (acc (seg c0 r)) ->
  writable (acc (seg c0 r)) ->
  1 <= cb ->
  let c := snd (updateMode r fLoad fProt c0) in
  let L := limit (seg c r) in
  checkWrite (seg c r) = checkWriteProtDownFn
  /\ fExpDown (seg c r) = true
  /\ callCheckWrite ext_ r off cb fSuppress c =
       (if JS.shr off 0 + cb >? offMax (seg c r) then (JS.or (base (seg c r) + off) 0, c)
        else (X86.ADDR_INVALID,
              if fSuppress then c else fnFault ext_ X86.EXCEPTION.GP_FAULT (Some 0) None c))
  /\ (offMax (seg c r) = L + 1 -> 0 <= off < 2 ^ 32 ->
      (JS.shr off 0 + cb >? offMax (seg c r)) = (off + cb - 1 >? L)).
Proof.
  intros Hp Hsel Hdown Hw Hcb c L.
  destruct (updateMode_prot_seg r fLoad fProt c0 Hp)
    as (Es & Eb & El & Eo & Ea & Ed & Echk & Eload).
  fold c in Es, Eb, El, Eo, Ea, Ed, Echk, Eload.
  rewrite (protChecks_expand_down_writable (setFExpDown (seg c0 r) false)) in Echk
    by assumption.
  injection Echk as Er Ewr Ex.
  split; [exact Ewr|]. split; [exact Ex|]. split.
  - apply callCheckWrite_down. exact Ewr.
  - intros Hoff Hrange. rewrite Hoff, shr0_unsigned by exact Hrange.
    subst L. destruct (Z.gtb_spec (off + cb) (limit (seg c r) + 1));
      destruct (Z.gtb_spec (off + cb - 1) (limit (seg c r))); try reflexivity; lia.
Qed.

End CheckFacts.

(** C2 at failing inputs.  SS holds the writable expand-down segment of
    limit 0x0FFF and base 0x020000, bound by the load [SS.load(0x18)]: the
    offsets above 0x0FFF are the valid ones.  [checkWriteProtDown] tests the
    end of the access only.  The writes [checkWrite(0x0FFF, 2)],
    [checkWrite(0x0FFD, 4)] and [checkWrite(0, 0x1001)] start at or below the
    limit and end above it: each returns [base + off] and no fault is
    raised.  A write that ends at the limit, [checkWrite(0x0FFF, 1)], is
    refused with #GP(0), and one that starts above it,
    [checkWrite(0x1000, 1)], is accepted. *)
Lemma checkWriteProtDown_accepts_straddling_write :
  X86Seg.expandDown (X86Seg.acc (X86Seg.seg Demo.protCPU_SS X86Seg.segSS))
  /\ X86Seg.writable (X86Seg.acc (X86Seg.seg Demo.protCPU_SS X86Seg.segSS))
  /\ X86Seg.checkWrite (X86Seg.seg Demo.protCPU_SS X86Seg.segSS) = X86Seg.checkWriteProtDownFn
  /\ X86Seg.limit (X86Seg.seg Demo.protCPU_SS X86Seg.segSS) = 0x0FFF
  /\ X86Seg.base (X86Seg.seg Demo.protCPU_SS X86Seg.segSS) = 0x020000
  /\ X86Seg.callCheckWrite Demo.ext X86Seg.segSS 0x0FFF 2 false Demo.protCPU_SS
     = (0x020FFF, Demo.protCPU_SS)
  /\ X86Seg.callCheckWrite Demo.ext X86Seg.segSS 0x0FFD 4 false Demo.protCPU_SS
     = (0x020FFD, Demo.protCPU_SS)
  /\ X86Seg.callCheckWrite Demo.ext X86Seg.segSS 0 0x1001 false Demo.protCPU_SS
     = (0x020000, Demo.protCPU_SS)
  /\ X86Seg.callCheckWrite Demo.ext X86Seg.segSS 0x0FFF 1 false Demo.protCPU_SS
     = (X86.ADDR_INVALID,
        X86Seg.fnFault Demo.ext X86.EXCEPTION.GP_FAULT (Some 0) None Demo.protCPU_SS)
  /\ X86Seg.callCheckWrite Demo.ext X86Seg.segSS 0x1000 1 false Demo.protCPU_SS
     = (0x021000, Demo.protCPU_SS).
Proof.
  split; [split; vm_compute; reflexivity|].
  repeat split; vm_compute; reflexivity.
Qed.

Lemma checkWrite_expand_down_witness :
  X86Seg.callCheckWrite Demo.ext X86Seg.segSS 0x0FFF 2 false
    (snd (X86Seg.updateMode X86Seg.segSS false (Some true) Demo.protCPU_SS))
  = (0x20FFF, snd (X86Seg.updateMode X86Seg.segSS false (Some true) Demo.protCPU_SS)).
Proof.
  destruct (checkWrite_expand_down Demo.ext X86Seg.segSS false (Some true) Demo.protCPU_SS
              0x0FFF 2 false) as (_ & _ & H & _).
  - reflexivity.
  - vm_compute. reflexivity.
  - split; vm_compute; reflexivity.
  - vm_compute. reflexivity.
  - lia.
  - rewrite H. vm_compute. reflexivity.
Defined.

(** A data descriptor with EXPDOWN set and CODE clear that is not writable
    takes no write.  Once [updateMode] has bound the functions of such a
    segment register in protected mode, [checkWrite] is
    [checkWriteProtDisallowed] while [checkRead] is the expand-down check:
    [checkWrite(off, cb)] returns ADDR_INVALID whatever the offset and the
    count, and raises #GP(0) unless [fSuppress] is true. *)
Theorem checkWrite_read_only_expand_down
    (ext_ : X86Seg.Ext) (r : X86Seg.Name) (fLoad : bool) (fProt : option bool)
    (c0 : X86Seg.CPU) (off cb : Z) (fSuppress : bool) :
  X86Seg.inProtectedMode fProt c0 = true ->
  X86Seg.nonNull (X86Seg.sel (X86Seg.seg c0 r)) = true ->
  X86Seg.expandDown (X86Seg.acc (X86Seg.seg c0 r)) ->
  JS.truthy (JS.and (X86Seg.acc (X86Seg.seg c0 r)) X86.DESC.ACC.TYPE.WRITABLE) = false ->
  let c := snd (X86Seg.updateMode r fLoad fProt c0) in
  X86Seg.checkWrite (X86Seg.seg c r) = X86Seg.checkWriteProtDisallowedFn
  /\ X86Seg.checkRead (X86Seg.seg c r) = X86Seg.checkReadProtDownFn
  /\ X86Seg.fExpDown (X86Seg.seg c r) = true
  /\ X86Seg.callCheckWrite ext_ r off cb fSuppress c =
       (X86.ADDR_INVALID,
        if fSuppress then c
        else X86Seg.fnFault ext_ X86.EXCEPTION.GP_FAULT (Some 0) None c).
Proof.
  intros Hp Hsel Hdown Hw c.
  destruct (updateMode_prot_seg r fLoad fProt c0 Hp)
    as (_ & _ & _ & _ & _ & _ & Echk & _).
  fold c in Echk.
  rewrite (protChecks_expand_down_readonly (X86Seg.setFExpDown (X86Seg.seg c0 r) false))
    in Echk by assumption.
  injection Echk as Er Ewr Ex.
  split; [exact Ewr|]. split; [exact Er|]. split; [exact Ex|].
  unfold X86Seg.callCheckWrite. rewrite Ewr. unfold X86Seg.checkWriteProtDisallowed.
  destruct fSuppress; reflexivity.
Qed.

(** DS holds the read-only expand-down segment of limit 0x0FFF: a write
    above the limit is refused. *)
Lemma checkWrite_read_only_expand_down_witness :
  fst (X86Seg.callCheckWrite Demo.ext X86Seg.segDS 0x1000 1 true
         (snd (X86Seg.updateMode X86Seg.segDS false (Some true) Demo.protCPU_DS)))
  = X86.ADDR_INVALID.
Proof.
  destruct (checkWrite_read_only_expand_down Demo.ext X86Seg.segDS false (Some true)
              Demo.protCPU_DS 0x1000 1 true) as (_ & _ & _ & H).
  - reflexivity.
  - vm_compute. reflexivity.
  - split; vm_compute; reflexivity.
  - vm_compute. reflexivity.
  - rewrite H. reflexivity.
Defined.

(** ** Segment registers: protected-mode loads *)

Lemma lor_1_land_1 x : Z.land (Z.lor x 1) 1 = 1.
Proof.
  rewrite Z.land_lor_distr_l. change (Z.land 1 1) with 1.
  change 1 with (Z.ones 1) at 1. rewrite Z.land_ones by lia.
  pose proof (Z.mod_pos_bound x (2 ^ 1) ltac:(lia)) as H. change (2 ^ 1) with 2 in *.
  assert (x mod 2 = 0 \/ x mod 2 = 1) as [-> | ->] by lia; reflexivity.
Qed.

Lemma testbit0_land1 x : Z.land x 1 = 1 -> Z.testbit x 0 = true.
Proof.
  intros H.
  assert (E : Z.testbit (Z.land x 1) 0 = Z.testbit 1 0) by (rewrite H; reflexivity).
  rewrite Z.land_spec in E. change (Z.testbit 1 0) with true in E.
  rewrite andb_true_r in E. exact E.
Qed.

Section LoadFacts.

Import X86Seg.

Variable ext_ : Ext.
Variable I386 : bool.

Lemma getByte_setByte a v c : getByte (setByte a v c) a = Z.land v 0xFF.
Proof.
  unfold getByte, setByte. cbn [mem setMem]. rewrite Z.eqb_refl.
  rewrite <- Z.land_assoc. reflexivity.
Qed.

Lemma getByte_setSeg r s c a : getByte (setSeg r s c) a = getByte c a.
Proof. reflexivity. Qed.

Lemma updateMode_real_addrDesc r fLoad fProt c :
  inProtectedMode fProt c = false ->
  addrDesc (seg (snd (updateMode r fLoad fProt c)) r) = X86.ADDR_INVALID.
Proof.
  intros Hp. unfold updateMode.
  replace (match fProt with Some b => b | None => JS.truthy (JS.and (regCR0 c) X86.CR0.PE) end)
    with false by (symmetry; exact Hp).
  unfold modSeg. cbn [snd]. rewrite !seg_setSeg_eq. reflexivity.
Qed.

Lemma updateMode_load_mem r fProt c :
  inProtectedMode fProt c = true ->
  nonNull (sel (seg c r)) = true ->
  addrDesc (seg c r) <> X86.ADDR_INVALID ->
  getByte (snd (updateMode r true fProt c)) (addrDesc (seg c r) + X86.DESC.ACC.TYPE.OFFSET)
  = Z.land (JS.or (getByte c (addrDesc (seg c r) + X86.DESC.ACC.TYPE.OFFSET))
                  (JS.sar X86.DESC.ACC.TYPE.ACCESSED 8)) 0xFF.
Proof.
  intros Hp Hsel Hvalid. unfold updateMode.
  replace (match fProt with Some b => b | None => JS.truthy (JS.and (regCR0 c) X86.CR0.PE) end)
    with true by (symmetry; exact Hp).
  unfold modSeg. rewrite !seg_setSeg_eq.
  destruct (protChecks (setFExpDown (seg c r) false)) as [[cr cw] down].
  cbn [snd]. rewrite ?seg_setSeg_eq. cbn [sel addrDesc setSlots setFExpDown].
  unfold nonNull in Hsel. rewrite Hsel.
  replace (addrDesc (seg c r) =? X86.ADDR_INVALID) with false
    by (symmetry; apply Z.eqb_neq; exact Hvalid).
  cbn [andb negb].
  rewrite !getByte_setSeg. apply getByte_setByte.
Qed.

(** A load's [updateMode] marks the descriptor accessed, whenever it leaves a
    valid [addrDesc] behind for a non-null selector. *)
Lemma updateMode_load_accessed r fProt c :
  let c' := snd (updateMode r true fProt c) in
  nonNull (sel (seg c r)) = true ->
  addrDesc (seg c' r) <> X86.ADDR_INVALID ->
  accessedInMemory c' (addrDesc (seg c r))
  /\ addrDesc (seg c' r) = addrDesc (seg c r)
  /\ sel (seg c' r) = sel (seg c r).
Proof.
  intros c' Hsel Hvalid. subst c'.
  destruct (inProtectedMode fProt c) eqn:Hp.
  - destruct (updateMode_prot_seg r true fProt c Hp) as (Es & _ & _ & _ & _ & Ed & _).
    rewrite Ed in Hvalid.
    split; [|split; assumption].
    unfold accessedInMemory. rewrite updateMode_load_mem by assumption.
    apply testbit0_land1.
    rewrite <- Z.land_assoc. change (Z.land 0xFF 1) with 1.
    unfold JS.or. change (JS.ToInt32 (JS.sar X86.DESC.ACC.TYPE.ACCESSED 8)) with 1.
    apply lor_1_land_1.
  - exfalso. apply Hvalid. apply updateMode_real_addrDesc. exact Hp.
Qed.

(** The shape of a load that installs its descriptor. *)
Lemma loadDesc8_installs loadf r addrDesc' sel' fSuppress c v c' :
  loadDesc8 ext_ I386 loadf r addrDesc' sel' fSuppress c = Some (v, c') ->
  installs r c addrDesc' ->
  v <> X86.ADDR_INVALID ->
  exists c1 base' limit' offMax' acc' type' ext',
    c' = snd (updateMode r true None
                (modSeg r (fun s => setDesc s sel' base' limit' offMax' acc' type' ext' addrDesc') c1))
    /\ v = base'.
Proof.
  intros H Hinst Hv. unfold loadDesc8 in H.
  match type of H with context [let '(_, _) := ?X in _] => destruct X as [base' limit'] end.
  fold (descType c addrDesc') in H.
  pose (finish := fun o : option (Exit * CPU) =>
    match o with
    | Some (Return v0, c0) => Some (v0, c0)
    | Some (Invalid, c0) => Some (X86.ADDR_INVALID, c0)
    | Some (Install, c0) =>
        let c2 := modSeg r (fun s => setDesc s sel' base' limit' (JS.shr limit' 0 + 1)
                    (getShort c (addrDesc' + X86.DESC.ACC.OFFSET)) (descType c addrDesc')
                    (getShort c (addrDesc' + X86.DESC.EXT_OFFSET)) addrDesc') c0 in
        let '(_, c3) := updateMode r true None c2 in Some (base', c3)
    | None => None
    end).
  assert (Hinstall : forall c1, finish (Some (Install, c1)) = Some (v, c') ->
    exists c1 base' limit' offMax' acc' type' ext',
      c' = snd (updateMode r true None
                  (modSeg r (fun s => setDesc s sel' base' limit' offMax' acc' type' ext' addrDesc') c1))
      /\ v = base').
  { intros c1 Ho. cbv beta iota zeta delta [finish] in Ho.
    destruct (updateMode r true None _) as [b c3] eqn:Eu in Ho.
    injection Ho as <- <-.
    eexists c1, _, _, _, _, _, _. rewrite Eu. split; reflexivity. }
  assert (Hinvalid : forall c0 (P : Prop), finish (Some (Invalid, c0)) = Some (v, c') -> P).
  { intros c0 P Ho. injection Ho as <- _. contradiction. }
  change (finish (if id (seg c r) =? ID.CODE
                  then loadCode ext_ loadf r sel' base' limit'
                         (getShort c (addrDesc' + X86.DESC.ACC.OFFSET)) (descType c addrDesc')
                         fSuppress c
                  else Some (loadOther ext_ r sel' (getShort c (addrDesc' + X86.DESC.ACC.OFFSET))
                               (descType c addrDesc') fSuppress c)) = Some (v, c')) in H.
  clearbody finish.
  destruct (Z.eqb_spec (id (seg c r)) ID.CODE) as [Eid|Eid].
  - destruct Hinst as [Hne | Hty]; [contradiction|].
    unfold loadCode in H.
    match type of H with context [if ?b then Some (Invalid, ?x) else _] =>
      destruct b; [exact (Hinvalid _ _ H)|] end.
    replace (descType c addrDesc' >=? X86.DESC.ACC.TYPE.CODE_EXECONLY) with true in H
      by (symmetry; apply Z.geb_le; exact Hty).
    match type of H with context [if ?b then _ else Some (Install, ?x)] => destruct b end.
    + match type of H with context [if ?b then Some (Invalid, ?x) else _] =>
        destruct b; [exact (Hinvalid _ _ H)|] end.
      destruct (popWord ext_ _) as [regSP cA].
      destruct (popWord ext_ cA) as [ss cB].
      exact (Hinstall _ H).
    + exact (Hinstall _ H).
  - unfold loadOther in H.
    repeat match type of H with
           | context [if ?b then _ else _] => destruct b
           end.
    all: first [exact (Hinstall _ H) | exact (Hinvalid _ _ H)].
Qed.

(** C6, as the code has it.  After a successful protected-mode load of a
    non-null selector that installs the descriptor it selects (any segment
    register but CODE, and CODE when the descriptor is a code segment rather
    than a gate), if the segment register's [addrDesc] is valid afterwards,
    the byte at [addrDesc + 5] has the ACCESSED bit set, and [addrDesc] is
    the address of the descriptor loaded. *)
Theorem loadDesc8_sets_accessed
    (loadf : Name -> Z -> bool -> CPU -> option (Z * CPU))
    (r : Name) (addrDesc' sel' : Z) (fSuppress : bool) (c : CPU) (v : Z) (c' : CPU) :
  loadDesc8 ext_ I386 loadf r addrDesc' sel' fSuppress c = Some (v, c') ->
  installs r c addrDesc' ->
  v <> X86.ADDR_INVALID ->
  nonNull sel' = true ->
  addrDesc (seg c' r) <> X86.ADDR_INVALID ->
  accessedInMemory c' addrDesc'
  /\ accessedInMemory c' (addrDesc (seg c' r))
  /\ addrDesc (seg c' r) = addrDesc'
  /\ sel (seg c' r) = sel'.
Proof.
  intros H Hinst Hv Hsel Hvalid.
  destruct (loadDesc8_installs loadf r addrDesc' sel' fSuppress c v c' H Hinst Hv)
    as (c1 & base' & limit' & offMax' & acc' & type' & ext' & -> & _).
  set (c2 := modSeg r (fun s => setDesc s sel' base' limit' offMax' acc' type' ext' addrDesc') c1) in *.
  assert (Es : sel (seg c2 r) = sel') by (subst c2; unfold modSeg; rewrite seg_setSeg_eq; reflexivity).
  assert (Ea : addrDesc (seg c2 r) = addrDesc')
    by (subst c2; unfold modSeg; rewrite seg_setSeg_eq; reflexivity).
  destruct (updateMode_load_accessed r None c2) as (Hacc & Had & Hse).
  - rewrite Es. exact Hsel.
  - exact Hvalid.
  - rewrite Ea in Hacc, Had. rewrite Es in Hse.
    split; [exact Hacc|]. split; [rewrite Had; exact Hacc|]. split; assumption.
Qed.

End LoadFacts.

(** C6 as stated fails for a load through a gate whose target is the null
    selector.  Entry 0 of the table holds a code segment, and the call gate
    at 0x1008 leads to selector 0.  With CS in ring 0, [CS.load(0x08)]
    succeeds and returns the base 0x060000: the gate loads selector 0,
    [loadDesc8] installs the descriptor at 0x1000, and [updateMode] finds a
    null selector in the register and marks nothing.  Afterwards the
    register's [addrDesc] is 0x1000, which is valid, and the byte at 0x1005
    is still 0x9A, its ACCESSED bit clear.  The gate's own descriptor, at the
    address of the selector that was loaded, is not marked either: the byte
    at 0x100D is still 0x84. *)
Lemma loadDesc8_null_target_not_accessed :
  X86Seg.nonNull 0x08 = true /\
  X86Seg.load (X86Seg.seg Demo.protCPU_null X86Seg.segCS) = X86Seg.loadProtFn /\
  match X86Seg.loadN Demo.ext false 3 X86Seg.segCS 0x08 false Demo.protCPU_null with
  | Some (v, c') =>
      v = 0x060000 /\ v <> X86.ADDR_INVALID
      /\ X86Seg.sel (X86Seg.seg c' X86Seg.segCS) = 0
      /\ X86Seg.addrDesc (X86Seg.seg c' X86Seg.segCS) = 0x1000
      /\ X86Seg.addrDesc (X86Seg.seg c' X86Seg.segCS) <> X86.ADDR_INVALID
      /\ X86Seg.getByte c' (0x1000 + X86.DESC.ACC.TYPE.OFFSET) = 0x9A
      /\ ~ X86Seg.accessedInMemory c' (X86Seg.addrDesc (X86Seg.seg c' X86Seg.segCS))
      /\ X86Seg.getByte c' (0x1008 + X86.DESC.ACC.TYPE.OFFSET) = 0x84
      /\ ~ X86Seg.accessedInMemory c' 0x1008
  | None => False
  end.
Proof.
  split; [reflexivity|]. split; [reflexivity|].
  vm_compute. repeat split; try reflexivity; discriminate.
Qed.

(** A load through a gate to a code segment marks the target, not the gate.
    With CS in ring 0, [CS.load(0x08)] finds the call gate at 0x1008, goes
    through it to the code segment 0x10 and succeeds; the byte at
    [0x1008 + 5] is still 0x84, and the descriptor marked is the one the
    register holds afterwards, at 0x1010. *)
Example loadDesc8_gate_marks_target :
  X86Seg.nonNull 0x08 = true /\
  match X86Seg.loadN Demo.ext false 3 X86Seg.segCS 0x08 false Demo.protCPU_CS with
  | Some (v, c') =>
      v = 0x040000 /\ v <> X86.ADDR_INVALID
      /\ X86Seg.getByte c' (0x1008 + X86.DESC.ACC.TYPE.OFFSET) = 0x84
      /\ ~ X86Seg.accessedInMemory c' 0x1008
      /\ X86Seg.addrDesc (X86Seg.seg c' X86Seg.segCS) = 0x1010
      /\ X86Seg.accessedInMemory c' 0x1010
  | None => False
  end.
Proof.
  split; [reflexivity|].
  vm_compute. repeat split; try reflexivity; discriminate.
Qed.

Lemma loadDesc8_sets_accessed_witness :
  match X86Seg.loadDesc8 Demo.ext false (X86Seg.loadN Demo.ext false 1)
          X86Seg.segSS 0x1018 0x18 false Demo.protCPU with
  | Some (v, c') => X86Seg.accessedInMemory c' 0x1018 /\ v = 0x020000
  | None => False
  end.
Proof.
  destruct (X86Seg.loadDesc8 Demo.ext false (X86Seg.loadN Demo.ext false 1)
              X86Seg.segSS 0x1018 0x18 false Demo.protCPU) as [[v c']|] eqn:E.
  - split.
    + apply (loadDesc8_sets_accessed Demo.ext false (X86Seg.loadN Demo.ext false 1)
               X86Seg.segSS 0x1018 0x18 false Demo.protCPU v c' E).
      * left. vm_compute. discriminate.
      * vm_compute in E. injection E as <- _. discriminate.
      * reflexivity.
      * vm_compute in E. injection E as _ <-. vm_compute. discriminate.
    + vm_compute in E. injection E as <- _. reflexivity.
  - vm_compute in E. discriminate.
Defined.

(** C3 at a failing input.  CS is in ring 0 and [fCall] is null (no CALLF
    and no RETF in progress).  Loading selector 0x2B (RPL 3) of the code
    segment at 0x1028 (DPL 0) does not fail: [load] returns the base
    0x050000, two words have been popped off the stack into SP and SS (here
    the stack holds zeroes, and SP was 0x0100), and CS now runs in ring 3. *)
Lemma loadDesc8_fCall_null_changes_privilege :
  X86Seg.fCall (X86Seg.seg Demo.protCPU_CS X86Seg.segCS) = None /\
  X86Seg.cpl (X86Seg.seg Demo.protCPU_CS X86Seg.segCS) = 0 /\
  X86Seg.descType Demo.protCPU_CS 0x1028 = X86.DESC.ACC.TYPE.CODE_READABLE /\
  match X86Seg.loadN Demo.ext false 2 X86Seg.segCS 0x2B false Demo.protCPU_CS with
  | Some (v, c') =>
      v = 0x050000 /\ v <> X86.ADDR_INVALID
      /\ X86Seg.sel (X86Seg.seg c' X86Seg.segCS) = 0x2B
      /\ X86Seg.cpl (X86Seg.seg c' X86Seg.segCS) = 3
      /\ X86Seg.fStackSwitch (X86Seg.seg c' X86Seg.segCS) = true
      /\ X86Seg.regESP Demo.protCPU_CS = 0x0100
      /\ X86Seg.regESP c' = 0
  | None => False
  end.
Proof.
  split; [reflexivity|]. split; [reflexivity|]. split; [reflexivity|].
  vm_compute. repeat split; try reflexivity; discriminate.
Qed.

(** ** Breakpoints: disabling and enabling *)

Section BreakFacts.

Import DbgIO.

Lemma indexOfFrom_range l x k :
  indexOfFrom l x k = -1 \/ k <= indexOfFrom l x k.
Proof.
  revert k. induction l as [|e l IH]; intros k; cbn [indexOfFrom].
  - left. reflexivity.
  - case_bool_decide.
    + right. lia.
    + destruct (IH (k + 1)) as [E|E]; [left; exact E | right; lia].
Qed.

Lemma indexOfFrom_absent l x k :
  (forall j, l !! j <> Some (Some x)) -> indexOfFrom l x k = -1.
Proof.
  revert k. induction l as [|e l IH]; intros k H; cbn [indexOfFrom].
  - reflexivity.
  - case_bool_decide as E.
    + exfalso. apply (H 0%nat). cbn. congruence.
    + apply IH. intros j. apply (H (S j)).
Qed.

Lemma indexOfFrom_present l x k j :
  0 <= k -> l !! j = Some (Some x) -> 0 <= indexOfFrom l x k.
Proof.
  revert k j. induction l as [|e l IH]; intros k j Hk H; cbn [indexOfFrom].
  - rewrite lookup_nil in H. discriminate.
  - case_bool_decide as E.
    + exact Hk.
    + destruct j as [|j].
      * cbn in H. congruence.
      * apply (IH (k + 1) j); [lia | exact H].
Qed.

Lemma arrayGet_lookup l (i : nat) e :
  l !! i = Some e -> arrayGet l (Z.of_nat i) = e.
Proof.
  intros H. unfold arrayGet.
  destruct (Z.ltb_spec (Z.of_nat i) 0); [lia|].
  rewrite Nat2Z.id, H. reflexivity.
Qed.

Lemma arrayPut_lookup l (i : nat) e v :
  l !! i = Some e -> arrayPut l (Z.of_nat i) v = <[i := Some v]> l.
Proof.
  intros H. apply lookup_lt_Some in H. unfold arrayPut.
  destruct (Z.ltb_spec (Z.of_nat i) (Z.of_nat (length l))); [|lia].
  rewrite Nat2Z.id. reflexivity.
Qed.

Lemma shr0_ToUint32 a : JS.shr a 0 = a mod 2 ^ 32.
Proof.
  unfold JS.shr. rewrite count_small by lia. apply Z.shiftr_0_r.
Qed.

Lemma or0_ToInt32 a : JS.or a 0 = JS.ToInt32 a.
Proof.
  unfold JS.or. rewrite (ToInt32_small 0) by lia. apply Z.lor_0_r.
Qed.

(** The slot the debugger's index names. *)
Lemma enableBreak_slot write d (i : nat) e :
  tableOf write d !! i = Some e ->
  enableBreak (slotIndex write d i) false d = enableBreak1 (slotIndex write d i) false d /\
  enableBreak (slotIndex write d i) true d = enableBreak1 (slotIndex write d i) true d /\
  0 <= slotIndex write d i /\
  (slotIndex write d i >=? Z.of_nat (length (aBreakReadAddr d))) = write /\
  (if write then slotIndex write d i - Z.of_nat (length (aBreakReadAddr d))
   else slotIndex write d i) = Z.of_nat i.
Proof.
  intros H. apply lookup_lt_Some in H.
  assert (H0 : 0 <= slotIndex write d i) by (unfold slotIndex; destruct write; lia).
  unfold enableBreak.
  destruct (Z.ltb_spec (slotIndex write d i) (-1)); [lia|].
  repeat split; try exact H0.
  - unfold slotIndex, tableOf in *. destruct write.
    + apply Z.geb_le. lia.
    + destruct (Z.geb_spec (Z.of_nat i) (Z.of_nat (length (aBreakReadAddr d)))); [lia|reflexivity].
  - unfold slotIndex. destruct write; lia.
Qed.

(** Disabling an enabled breakpoint rewrites its slot, and nothing else. *)
Lemma enableBreak_disable write d (i : nat) a :
  DbgIO.int32 a ->
  tableOf write d !! i = Some (Some a) ->
  let d1 := (enableBreak (slotIndex write d i) false d).2 in
  tableOf write d1 = <[i := Some (a mod 2 ^ 32 + 2 ^ 32)]> (tableOf write d) /\
  tableOf (negb write) d1 = tableOf (negb write) d /\
  slotIndex write d1 i = slotIndex write d i /\
  fBreakException d1 = fBreakException d /\ fRunning d1 = fRunning d /\
  output d1 = output d /\ historyBuffer d1 = historyBuffer d /\
  historyNext d1 = historyNext d /\ regPC d1 = regPC d.
Proof.
  intros Ha H d1. subst d1.
  destruct (enableBreak_slot write d i _ H) as (E & _ & H0 & Hw & Hi).
  rewrite E. unfold enableBreak1.
  destruct (Z.geb_spec (slotIndex write d i) 0); [|lia].
  rewrite Hw, Hi.
  destruct (Z.geb_spec (Z.of_nat i) 0); [|lia].
  change (if write then aBreadWriteAddr d else aBreakReadAddr d) with (tableOf write d).
  rewrite (arrayGet_lookup _ _ _ H).
  unfold DbgIO.int32 in Ha. unfold NumIO.TWO_POW32.
  destruct (Z.ltb_spec a (2 ^ 32)); [|lia].
  cbn [negb]. rewrite (arrayPut_lookup _ _ _ _ H), shr0_ToUint32.
  destruct write; cbn; unfold slotIndex; cbn;
    rewrite ?length_insert; repeat split; reflexivity.
Qed.

(** Enabling it again puts the address back. *)
Lemma enableBreak_enable write d (i : nat) a :
  DbgIO.int32 a ->
  tableOf write d !! i = Some (Some (a mod 2 ^ 32 + 2 ^ 32)) ->
  (enableBreak (slotIndex write d i) true d).2
  = (if write then setWriteTable d (<[i := Some a]> (tableOf write d))
     else setReadTable d (<[i := Some a]> (tableOf write d))).
Proof.
  intros Ha H.
  destruct (enableBreak_slot write d i _ H) as (_ & E & H0 & Hw & Hi).
  rewrite E. unfold enableBreak1.
  destruct (Z.geb_spec (slotIndex write d i) 0); [|lia].
  rewrite Hw, Hi.
  destruct (Z.geb_spec (Z.of_nat i) 0); [|lia].
  change (if write then aBreadWriteAddr d else aBreakReadAddr d) with (tableOf write d).
  rewrite (arrayGet_lookup _ _ _ H).
  unfold DbgIO.int32 in Ha. unfold NumIO.TWO_POW32.
  pose proof (Z.mod_pos_bound a (2 ^ 32) ltac:(lia)) as Hm.
  destruct (Z.ltb_spec (a mod 2 ^ 32 + 2 ^ 32) (2 ^ 32)); [lia|].
  cbn [negb]. rewrite (arrayPut_lookup _ _ _ _ H), or0_ToInt32.
  replace (a mod 2 ^ 32 + 2 ^ 32 - 2 ^ 32) with (a mod 2 ^ 32) by lia.
  assert (JS.ToInt32 (a mod 2 ^ 32) = a) as ->.
  { transitivity (JS.ToInt32 a); [apply ToInt32_ToUint32 | apply ToInt32_small; lia]. }
  destruct write; reflexivity.
Qed.

(** A callback stops the clock, or throws, exactly when its table holds the
    address. *)
Lemma check_absent write x value d :
  (forall j y, tableOf write d !! j = Some (Some y) -> x <> Some y) ->
  exists d', check write x value d = (Ret tt, d') /\
    tableOf write d' = tableOf write d /\
    fRunning d' = fRunning d /\ output d' = output d.
Proof.
  intros H.
  assert (Hidx : forall d0, tableOf write d0 = tableOf write d ->
            indexOf (tableOf write d0) x = -1).
  { intros d0 E. rewrite E. destruct x as [x|]; [|reflexivity].
    cbn [indexOf]. apply indexOfFrom_absent. intros j Hj.
    apply (H j x Hj). reflexivity. }
  unfold check, invoke. destruct write; cbn [Nat.eqb writeBusCheck readBusCheck].
  - unfold checkBusWrite. cbn [tableOf] in Hidx. rewrite (Hidx d eq_refl).
    cbn. eauto.
  - unfold checkBusRead. cbn [tableOf] in Hidx.
    match goal with |- context [indexOf (aBreakReadAddr ?d0)] => set (dh := d0) end.
    assert (Edh : aBreakReadAddr dh = aBreakReadAddr d /\ fRunning dh = fRunning d /\
                  output dh = output d).
    { subst dh. destruct (_ && _); repeat split; reflexivity. }
    destruct Edh as (E1 & E2 & E3).
    rewrite (Hidx dh E1). cbn. exists dh. repeat split; assumption.
Qed.

Lemma check_present write value d j a :
  tableOf write d !! j = Some (Some a) ->
  stopped (check write (Some a) value d).
Proof.
  intros H.
  assert (Hidx : forall d0, tableOf write d0 = tableOf write d ->
            (indexOf (tableOf write d0) (Some a) >=? 0) = true).
  { intros d0 E. rewrite E. cbn [indexOf]. apply Z.geb_le.
    apply (indexOfFrom_present _ _ _ j); [lia | exact H]. }
  unfold check, invoke. destruct write; cbn [Nat.eqb writeBusCheck readBusCheck].
  - unfold checkBusWrite. cbn [tableOf] in Hidx. rewrite (Hidx d eq_refl).
    unfold stopCPU. destruct (fBreakException d); cbn; auto.
  - unfold checkBusRead. cbn [tableOf] in Hidx.
    match goal with |- context [indexOf (aBreakReadAddr ?d0)] => set (dh := d0) end.
    assert (E1 : aBreakReadAddr dh = aBreakReadAddr d).
    { subst dh. destruct (_ && _); reflexivity. }
    rewrite (Hidx dh E1).
    unfold stopCPU. destruct (fBreakException dh); cbn; auto.
Qed.

(** A run of accesses that meet no breakpoint leaves the clock alone. *)
Lemma accesses_absent write l d :
  Forall (fun xv => forall j y, tableOf write d !! j = Some (Some y) -> xv.1 <> Some y) l ->
  notStopped d (accesses write l d).
Proof.
  revert d. induction l as [|[x value] l IH]; intros d H.
  - exists d. repeat split; reflexivity.
  - apply Forall_cons in H as [Hx Hl].
    destruct (check_absent write x value d Hx) as (d' & E & Et & Er & Eo).
    cbn [accesses]. rewrite E.
    destruct (IH d') as (d'' & E' & Er' & Eo').
    { rewrite Et. exact Hl. }
    exists d''. repeat split; [exact E' | congruence | congruence].
Qed.

(** No bus address equals a disabled entry. *)
Lemma disabled_entry_unreachable x a :
  busAddress x -> x <> Some (a mod 2 ^ 32 + 2 ^ 32).
Proof.
  intros Hx E. subst x. cbn in Hx.
  pose proof (Z.mod_pos_bound a (2 ^ 32) ltac:(lia)). lia.
Qed.

End BreakFacts.

(** C10.  Let slot [i] of the read or of the write table hold the 32-bit
    address [a], and let the breakpoint be disabled by [enableBreak] with
    [enable = false].  The slot then holds [(a >>> 0) + 2^32] and nothing
    else of the debugger has changed (the function has no access to the
    bus, whose traps stay as they are); over any run of bus accesses whose
    addresses are 32-bit numbers or [NaN] and are held by no other slot, the
    callback returns every time and the clock and the output are left as
    they were.  [enableBreak] with [enable = true] then gives the debugger
    as it was before, and an access at [a] stops the clock, or throws the
    break when breaks are thrown. *)
Theorem disabled_break_never_stops (write : bool) (d : DbgIO.t) (i : nat) (a : Z) :
  DbgIO.int32 a ->
  DbgIO.tableOf write d !! i = Some (Some a) ->
  let off := (DbgIO.enableBreak (DbgIO.slotIndex write d i) false d).2 in
  let on := (DbgIO.enableBreak (DbgIO.slotIndex write d i) true off).2 in
  DbgIO.tableOf write off = <[i := Some (a mod 2 ^ 32 + 2 ^ 32)]> (DbgIO.tableOf write d) /\
  DbgIO.tableOf (negb write) off = DbgIO.tableOf (negb write) d /\
  (forall l,
      Forall (fun xv => DbgIO.busAddress xv.1 /\
                        DbgIO.noOtherEntry (DbgIO.tableOf write d) i xv.1) l ->
      DbgIO.notStopped off (DbgIO.accesses write l off)) /\
  on = d /\
  (forall value, DbgIO.stopped (DbgIO.check write (Some a) value on)).
Proof.
  intros Ha H off on.
  destruct (enableBreak_disable write d i a Ha H)
    as (Et & En & Es & Ef & Er & Eo & Ehb & Ehn & Epc).
  fold off in Et, En, Es, Ef, Er, Eo, Ehb, Ehn, Epc.
  assert (Hoff : DbgIO.tableOf write off !! i = Some (Some (a mod 2 ^ 32 + 2 ^ 32))).
  { rewrite Et. apply list_lookup_insert_eq. eapply lookup_lt_Some, H. }
  assert (Eon : on = d).
  { subst on. rewrite <- Es, (enableBreak_enable write off i a Ha Hoff).
    rewrite Et, list_insert_insert_eq, (list_insert_id _ _ _ H).
    clear Hoff. clearbody off.
    destruct d, off, write; cbn in *; subst; reflexivity. }
  split; [exact Et|]. split; [exact En|]. split; [|split; [exact Eon|]].
  - intros l Hl. apply accesses_absent.
    eapply Forall_impl; [exact Hl|].
    intros [x value] [Hx Hother] j y Hj. cbn [fst] in *.
    rewrite Et in Hj. destruct (decide (j = i)) as [->|Hne].
    + rewrite list_lookup_insert_eq in Hj by (eapply lookup_lt_Some, H).
      injection Hj as <-. apply disabled_entry_unreachable, Hx.
    + rewrite list_lookup_insert_ne in Hj by congruence.
      apply (Hother j y Hne Hj).
  - intros value. rewrite Eon. apply (check_present write value d i a H).
Qed.

(** The read breakpoint at 0x450 of the example machine, disabled and
    enabled again. *)
Lemma disabled_break_never_stops_witness :
  let d := Demo.withBreak.1 in
  let off := (DbgIO.enableBreak 0 false d).2 in
  let on := (DbgIO.enableBreak 0 true off).2 in
  DbgIO.tableOf false d = [Some 0x450] /\
  DbgIO.tableOf false off = [Some (0x450 + 2 ^ 32)] /\
  DbgIO.notStopped off (DbgIO.accesses false [(Some 0x450, 0); (Some 0x450, 7)] off) /\
  on = d /\
  DbgIO.stopped (DbgIO.check false (Some 0x450) 0 on).
Proof.
  pose proof (disabled_break_never_stops false Demo.withBreak.1 0 0x450
                ltac:(unfold DbgIO.int32; lia) eq_refl) as (Et & _ & Hrun & Eon & Hstop).
  split; [reflexivity|]. split; [exact Et|]. split; [|split; [exact Eon | apply Hstop]].
  assert (Haccess : DbgIO.busAddress (Some 0x450) /\
                    DbgIO.noOtherEntry (DbgIO.tableOf false Demo.withBreak.1) 0 (Some 0x450)).
  { split; [cbn; lia|]. intros j y Hne Hj.
    change (DbgIO.tableOf false Demo.withBreak.1) with [Some 0x450] in Hj.
    destruct j as [|j]; [congruence | discriminate Hj]. }
  apply Hrun. apply Forall_cons_2; [exact Haccess|].
  apply Forall_cons_2; [exact Haccess | apply Forall_nil_2].
Defined.

(** The same through the bus.  With the breakpoint disabled a read of 0x450
    still calls the debugger (the block's trap is counted as before) and the
    clock keeps running; with the breakpoint enabled again the same read
    stops the clock. *)
Example disabled_break_on_bus :
  let d := Demo.withBreak.1 in
  let h := Demo.withBreak.2 in
  let off := (DbgIO.enableBreak 0 false d).2 in
  let on := (DbgIO.enableBreak 0 true off).2 in
  (exists l m, Bus.blocks Demo.bus !! 1%nat = Some (Some l) /\ h !! l = Some m /\
               Memory.nReadTraps m = 1%nat) /\
  (exists v d', Bus.readData DbgIO.invoke 4 0x450 Demo.bus h off = (Ret v, d') /\
                DbgIO.fRunning d' = true) /\
  (exists v d', Bus.readData DbgIO.invoke 4 0x450 Demo.bus h on = (Ret v, d') /\
                DbgIO.fRunning d' = false /\ DbgIO.output d' = [MsgReadBreak (Some 0x450)]).
Proof.
  cbv zeta. split; [|split].
  - eexists _, _. vm_compute. repeat split; reflexivity.
  - eexists _, _. vm_compute. split; reflexivity.
  - eexists _, _. vm_compute. repeat split; reflexivity.
Qed.

(** ** The debugger's numbers: signed [truncate] and the bitwise operators *)

Section TruncateFacts.

Import DbgNum.

Lemma keep_new (v vNew : Z) : (if negb (v =? vNew) then vNew else v) = vNew.
Proof. destruct (Z.eqb_spec v vNew); cbn; congruence. Qed.

Lemma ToInt32_idem z : JS.ToInt32 (JS.ToInt32 z) = JS.ToInt32 z.
Proof. apply ToInt32_small, ToInt32_range. Qed.

Lemma pow2_split (n k : Z) : 0 <= k -> 0 <= n -> 2 ^ (k + n) = 2 ^ k * 2 ^ n.
Proof. intros. apply Z.pow_add_r; assumption. Qed.

(** [(v << (32 - n)) >> (32 - n)] keeps the low [n] bits of [v] and extends
    bit [n - 1] as the sign. *)
Lemma sar_shl_signed v n :
  1 <= n <= 32 ->
  JS.sar (JS.shl v (32 - n)) (32 - n) = (v + 2 ^ (n - 1)) mod 2 ^ n - 2 ^ (n - 1).
Proof.
  intros Hn. set (k := 32 - n).
  assert (Hk : 0 <= k <= 31) by (subst k; lia).
  assert (Hpk : 0 < 2 ^ k) by (apply Z.pow_pos_nonneg; lia).
  assert (Hpn : 0 < 2 ^ n) by (apply Z.pow_pos_nonneg; lia).
  assert (Hpn1 : 0 < 2 ^ (n - 1)) by (apply Z.pow_pos_nonneg; lia).
  assert (E32 : 2 ^ 32 = 2 ^ k * 2 ^ n).
  { rewrite <- pow2_split by lia. f_equal. subst k. lia. }
  assert (E31 : 2 ^ 31 = 2 ^ k * 2 ^ (n - 1)).
  { rewrite <- pow2_split by lia. f_equal. subst k. lia. }
  assert (En : 2 ^ n = 2 * 2 ^ (n - 1)).
  { replace n with (1 + (n - 1)) at 1 by lia. rewrite pow2_split by lia. reflexivity. }
  pose proof (Z.mod_pos_bound (v + 2 ^ (n - 1)) (2 ^ n) Hpn) as HM.
  set (M := (v + 2 ^ (n - 1)) mod 2 ^ n) in *.
  assert (Eshl : JS.shl v k = 2 ^ k * (M - 2 ^ (n - 1))).
  { unfold JS.shl. rewrite count_small by lia. rewrite Z.shiftl_mul_pow2 by lia.
    unfold JS.ToInt32 at 1.
    replace ((JS.ToInt32 v * 2 ^ k + 2 ^ 31) mod 2 ^ 32) with (2 ^ k * M).
    - rewrite E31. ring.
    - rewrite <- Zplus_mod_idemp_l, <- Zmult_mod_idemp_l, ToInt32_mod.
      rewrite Zmult_mod_idemp_l, Zplus_mod_idemp_l.
      replace (v * 2 ^ k + 2 ^ 31) with (2 ^ k * (v + 2 ^ (n - 1))) by (rewrite E31; ring).
      rewrite E32, Z.mul_mod_distr_l by lia. reflexivity. }
  unfold JS.sar. rewrite Eshl, count_small by lia.
  rewrite ToInt32_small by (rewrite E31 in *; nia).
  rewrite Z.shiftr_div_pow2 by lia.
  rewrite Z.mul_comm, Z.div_mul by lia. reflexivity.
Qed.

(** The parity test [q & 1] of the code. *)
Lemma and_1_odd q : JS.truthy (JS.and (JS.ToInt32 q) 1) = Z.odd q.
Proof.
  unfold JS.and. rewrite ToInt32_idem, (ToInt32_small 1) by lia.
  change 1 with (Z.ones 1) at 1. rewrite Z.land_ones by lia.
  change (2 ^ 1) with 2.
  pose proof (ToInt32_mod_pow2 q 1 ltac:(lia)) as E. change (2 ^ 1) with 2 in E.
  rewrite E. unfold JS.truthy. rewrite Zmod_odd.
  destruct (Z.odd q); reflexivity.
Qed.

Lemma odd_split q : exists j, q = 2 * j + (if Z.odd q then 1 else 0).
Proof.
  exists (q / 2). rewrite (Z.div_mod q 2) at 1 by lia. rewrite Zmod_odd. reflexivity.
Qed.

Lemma signed_unique a L q res :
  0 < L -> - L <= res < L -> a + L = 2 * L * q + (res + L) ->
  res = (a + L) mod (2 * L) - L.
Proof.
  intros HL Hres E. rewrite <- (Z.mod_unique (a + L) (2 * L) q (res + L)); lia.
Qed.

(** The signed branch of [truncate] for more than 32 bits. *)
Lemma truncate_signed_wide v n :
  32 < n ->
  let limit := 2 ^ (n - 1) in
  (if v >=? limit then
     let vNew := JS.rem v limit in
     if JS.truthy (JS.and (JS.divToInt32 v limit) 1) then vNew - limit else vNew
   else if v <? - limit then
     let vNew := JS.rem v limit in
     if JS.truthy (JS.and (JS.divToInt32 (- v - 1) limit) 1)
     then (if JS.truthy vNew then vNew + limit else vNew)
     else (if negb (JS.truthy vNew) then vNew - limit else vNew)
   else v)
  = (v + 2 ^ (n - 1)) mod 2 ^ n - 2 ^ (n - 1).
Proof.
  intros Hn limit.
  assert (HL : 0 < limit) by (apply Z.pow_pos_nonneg; lia).
  assert (En : 2 ^ n = 2 * limit).
  { subst limit. replace n with (1 + (n - 1)) at 1 by lia. rewrite pow2_split by lia. reflexivity. }
  rewrite En. fold limit. unfold JS.divToInt32, JS.rem.
  destruct (Z.geb_spec v limit) as [Hge|Hlt].
  - (* v >= limit *)
    cbv zeta. rewrite and_1_odd.
    rewrite Z.rem_mod_nonneg, Z.quot_div_nonneg by lia.
    pose proof (Z.div_mod v limit ltac:(lia)) as Ev.
    pose proof (Z.mod_pos_bound v limit HL) as Hr.
    destruct (odd_split (v / limit)) as [j Ej].
    destruct (Z.odd (v / limit)).
    + apply (signed_unique _ _ (j + 1)); [lia | lia | nia].
    + apply (signed_unique _ _ j); [lia | lia | nia].
  - destruct (Z.ltb_spec v (- limit)) as [Hneg|Hmid].
    + (* v < - limit *)
      cbv zeta. rewrite and_1_odd.
      set (w := - v). assert (Hw : limit < w) by (subst w; lia).
      replace v with (- w) by (subst w; lia).
      rewrite Z.rem_opp_l by lia.
      rewrite Z.rem_mod_nonneg by lia.
      replace (- - w - 1) with (w - 1) by lia.
      rewrite Z.quot_div_nonneg by lia.
      pose proof (Z.div_mod w limit ltac:(lia)) as Ew.
      pose proof (Z.mod_pos_bound w limit HL) as Hr.
      set (k := w / limit) in *. set (r := w mod limit) in *.
      clearbody k r.
      assert (Eq : (w - 1) / limit = if r =? 0 then k - 1 else k).
      { destruct (Z.eqb_spec r 0) as [Hz|Hnz].
        - symmetry. apply (Z.div_unique _ _ _ (limit - 1)); [lia | nia].
        - symmetry. apply (Z.div_unique _ _ _ (r - 1)); [lia | nia]. }
      rewrite Eq. unfold JS.truthy.
      destruct (Z.eqb_spec r 0) as [Hz|Hnz].
      * (* r = 0 *)
        subst r. change (- 0) with 0. change (0 =? 0) with true. cbn [negb].
        destruct (odd_split (k - 1)) as [j Ej].
        destruct (Z.odd (k - 1)).
        -- assert (Ek : k = 2 * j + 2) by lia. subst k.
           apply (signed_unique _ _ (- j - 1)); lia.
        -- assert (Ek : k = 2 * j + 1) by lia. subst k.
           apply (signed_unique _ _ (- j)); lia.
      * destruct (Z.eqb_spec (- r) 0) as [|_]; [lia|]. cbn [negb].
        destruct (odd_split k) as [j Ej].
        destruct (Z.odd k).
        -- assert (Ek : k = 2 * j + 1) by lia. subst k.
           apply (signed_unique _ _ (- j - 1)); lia.
        -- assert (Ek : k = 2 * j) by lia. subst k.
           apply (signed_unique _ _ (- j)); lia.
    + (* - limit <= v < limit *)
      rewrite Z.mod_small by lia. lia.
Qed.

End TruncateFacts.

(** Signed truncation is two's complement.  For an integer [v] that a
    JavaScript number holds exactly ([|v| <= 2^53]) and [1 <= n <= 53] bits,
    [truncate(v, n)] is the one value of [[-2^(n-1), 2^(n-1))] congruent to
    [v] modulo [2^n], for 32 bits and fewer (by shifts) and for more (by
    remainders and the parity of the quotient) alike; a value already in
    that range is returned as it is. *)
Theorem truncate_signed_twos_complement (nDefaultBits v n : Z) :
  1 <= n <= 53 ->
  - 2 ^ 53 <= v <= 2 ^ 53 ->
  DbgNum.truncate nDefaultBits v n false = (v + 2 ^ (n - 1)) mod 2 ^ n - 2 ^ (n - 1)
  /\ - 2 ^ (n - 1) <= DbgNum.truncate nDefaultBits v n false < 2 ^ (n - 1)
  /\ (DbgNum.truncate nDefaultBits v n false) mod 2 ^ n = v mod 2 ^ n
  /\ (- 2 ^ (n - 1) <= v < 2 ^ (n - 1) -> DbgNum.truncate nDefaultBits v n false = v).
Proof.
  intros [Hn _] _.
  assert (E : DbgNum.truncate nDefaultBits v n false
              = (v + 2 ^ (n - 1)) mod 2 ^ n - 2 ^ (n - 1)).
  { unfold DbgNum.truncate.
    replace (JS.truthy n) with true by (unfold JS.truthy; destruct (Z.eqb_spec n 0); [lia|reflexivity]).
    rewrite keep_new.
    destruct (Z.leb_spec n 32).
    - apply sar_shl_signed. lia.
    - apply truncate_signed_wide. lia. }
  assert (Hp : 0 < 2 ^ (n - 1)) by (apply Z.pow_pos_nonneg; lia).
  assert (En : 2 ^ n = 2 * 2 ^ (n - 1)).
  { replace n with (1 + (n - 1)) at 1 by lia. rewrite Z.pow_add_r by lia. reflexivity. }
  pose proof (Z.mod_pos_bound (v + 2 ^ (n - 1)) (2 ^ n) ltac:(lia)) as HM.
  rewrite E. split; [reflexivity|]. split; [lia|]. split.
  - rewrite <- (Z.mod_add _ 1) by lia.
    replace ((v + 2 ^ (n - 1)) mod 2 ^ n - 2 ^ (n - 1) + 1 * 2 ^ n)
      with ((v + 2 ^ (n - 1)) mod 2 ^ n + 2 ^ (n - 1)) by lia.
    rewrite Zplus_mod_idemp_l.
    replace (v + 2 ^ (n - 1) + 2 ^ (n - 1)) with (v + 1 * 2 ^ n) by lia.
    apply Z.mod_add. lia.
  - intros Hv. rewrite Z.mod_small by lia. lia.
Qed.

(** [truncate(0xFFFF, 16)] and the 36-bit word of a PDP-10. *)
Lemma truncate_signed_twos_complement_witness :
  DbgNum.truncate 16 0xFFFF 16 false = -1
  /\ DbgNum.truncate 36 (2 ^ 35) 36 false = - 2 ^ 35
  /\ DbgNum.truncate 36 (- 2 ^ 35 - 1) 36 false = 2 ^ 35 - 1.
Proof.
  split; [|split].
  - rewrite (proj1 (truncate_signed_twos_complement 16 0xFFFF 16 ltac:(lia) ltac:(lia))).
    reflexivity.
  - rewrite (proj1 (truncate_signed_twos_complement 36 (2 ^ 35) 36 ltac:(lia) ltac:(lia))).
    reflexivity.
  - rewrite (proj1 (truncate_signed_twos_complement 36 (- 2 ^ 35 - 1) 36 ltac:(lia) ltac:(lia))).
    reflexivity.
Defined.

Section WideFacts.

Import DbgNum.

(** Unsigned truncation to the debugger's width, when that is more than 32
    bits. *)
Lemma truncate_unsigned_wide N v : 32 < N -> truncate N v 0 true = v mod 2 ^ N.
Proof.
  intros HN. unfold truncate. change (JS.truthy 0) with false. cbv iota.
  rewrite keep_new.
  destruct (Z.eqb_spec N 32); [lia|]. destruct (Z.ltb_spec N 32); [lia|].
  assert (Hp : 0 < 2 ^ N) by (apply Z.pow_pos_nonneg; lia).
  destruct ((v <? 0) || (v >=? 2 ^ N)) eqn:Hout.
  - unfold JS.rem. cbv zeta.
    destruct (rem_bounds v (2 ^ N) Hp) as (Hb & Hpos & Hneg).
    rewrite <- (rem_plus_mod v (2 ^ N) Hp).
    destruct (Z.ltb_spec (Z.rem v (2 ^ N)) 0).
    + rewrite Z.mod_small by lia. reflexivity.
    + rewrite <- (Z.mul_1_l (2 ^ N)) at 3. rewrite Z.mod_add by lia.
      rewrite Z.mod_small by lia. reflexivity.
  - apply orb_false_iff in Hout as [H1 H2].
    apply Z.ltb_ge in H1. rewrite Z.geb_leb in H2. apply Z.leb_gt in H2.
    rewrite Z.mod_small by lia. reflexivity.
Qed.

End WideFacts.

Lemma land_spec' a b i : 0 <= i -> Z.testbit (Z.land a b) i = Z.testbit a i && Z.testbit b i.
Proof. intros _. apply Z.land_spec. Qed.

Lemma lor_spec' a b i : 0 <= i -> Z.testbit (Z.lor a b) i = Z.testbit a i || Z.testbit b i.
Proof. intros _. apply Z.lor_spec. Qed.

Lemma lxor_spec' a b i : 0 <= i -> Z.testbit (Z.lxor a b) i = xorb (Z.testbit a i) (Z.testbit b i).
Proof. intros _. apply Z.lxor_spec. Qed.

(** A bitwise operator [f], of truth table [g], that maps two zero bits to a
    zero bit works on the low and on the high bits apart. *)
Section Bitwise.

Variable f : Z -> Z -> Z.
Variable g : bool -> bool -> bool.
Hypothesis Hg : g false false = false.
Hypothesis Hf : forall a b i, 0 <= i -> Z.testbit (f a b) i = g (Z.testbit a i) (Z.testbit b i).

Lemma bitwise_mod a b n :
  0 <= n -> (f a b) mod 2 ^ n = f (a mod 2 ^ n) (b mod 2 ^ n).
Proof.
  intros Hn. rewrite <- !Z.land_ones by lia.
  apply Z.bits_inj'. intros i Hi.
  rewrite Z.land_spec, !Hf, !Z.land_spec by lia.
  destruct (Z.testbit (Z.ones n) i); rewrite ?andb_true_r, ?andb_false_r; [reflexivity|].
  symmetry. exact Hg.
Qed.

Lemma bitwise_div a b n :
  0 <= n -> (f a b) / 2 ^ n = f (a / 2 ^ n) (b / 2 ^ n).
Proof.
  intros Hn. rewrite <- !Z.shiftr_div_pow2 by lia.
  apply Z.bits_inj'. intros i Hi.
  rewrite Z.shiftr_spec, !Hf, !Z.shiftr_spec by lia. reflexivity.
Qed.

Lemma bitwise_split a b n :
  0 <= n ->
  f a b = f (a / 2 ^ n) (b / 2 ^ n) * 2 ^ n + f (a mod 2 ^ n) (b mod 2 ^ n).
Proof.
  intros Hn.
  rewrite <- bitwise_div, <- bitwise_mod by assumption.
  assert (Hp : 0 < 2 ^ n) by (apply Z.pow_pos_nonneg; lia).
  rewrite (Z.div_mod (f a b) (2 ^ n)) at 1 by lia. ring.
Qed.

Lemma bitwise_range a b n :
  0 <= n -> 0 <= a < 2 ^ n -> 0 <= b < 2 ^ n -> 0 <= f a b < 2 ^ n.
Proof.
  intros Hn Ha Hb.
  assert (E : (f a b) mod 2 ^ n = f a b).
  { rewrite bitwise_mod by assumption. rewrite !Z.mod_small by lia. reflexivity. }
  rewrite <- E. apply Z.mod_pos_bound. apply Z.pow_pos_nonneg; lia.
Qed.

(** The code's formula for an operator [op] of JavaScript that is [f] on the
    32-bit values of its operands. *)
Lemma wide_formula (op : Z -> Z -> Z) N d s :
  (forall x y, op x y = f (JS.ToInt32 x) (JS.ToInt32 y)) ->
  32 < N <= 52 -> 0 <= d < 2 ^ N -> 0 <= s < 2 ^ N ->
  op (JS.divToInt32 d NumIO.TWO_POW32) (JS.divToInt32 s NumIO.TWO_POW32) * NumIO.TWO_POW32
  + JS.shr (op d s) 0
  = f d s.
Proof.
  intros Hop HN Hd Hs. unfold NumIO.TWO_POW32, JS.divToInt32.
  assert (H52 : 2 ^ N <= 2 ^ 52) by (apply Z.pow_le_mono_r; lia).
  assert (Hq : forall x, 0 <= x < 2 ^ N -> JS.ToInt32 (JS.ToInt32 (Z.quot x (2 ^ 32))) = x / 2 ^ 32).
  { intros x Hx. rewrite Z.quot_div_nonneg by lia.
    assert (0 <= x / 2 ^ 32 < 2 ^ 20).
    { split; [apply Z.div_pos; lia|]. apply Z.div_lt_upper_bound; lia. }
    rewrite ToInt32_idem, ToInt32_small by lia. reflexivity. }
  rewrite !Hop, !Hq by assumption.
  rewrite shr0_ToUint32, bitwise_mod by lia.
  rewrite !ToInt32_mod.
  symmetry. apply bitwise_split. lia.
Qed.

End Bitwise.

(** On a debugger of 33 to 52 bits, for operands that JavaScript numbers
    hold exactly ([|dst|, |src| <= 2^53]), [evalAND], [evalIOR] and [evalXOR]
    are the bitwise operators on the unsigned values of the operands (the
    operands modulo [2^N]), and the result is an unsigned value of that
    width: combining the high and the low 32 bits by addition loses
    nothing. *)
Theorem eval_bitwise_wide (N dst src : Z) :
  32 < N <= 52 ->
  - 2 ^ 53 <= dst <= 2 ^ 53 ->
  - 2 ^ 53 <= src <= 2 ^ 53 ->
  let d := dst mod 2 ^ N in
  let s := src mod 2 ^ N in
  DbgNum.evalAND N dst src = Z.land d s
  /\ DbgNum.evalIOR N dst src = Z.lor d s
  /\ DbgNum.evalXOR N dst src = Z.lxor d s
  /\ 0 <= DbgNum.evalAND N dst src < 2 ^ N
  /\ 0 <= DbgNum.evalIOR N dst src < 2 ^ N
  /\ 0 <= DbgNum.evalXOR N dst src < 2 ^ N.
Proof.
  intros HN _ _ d s.
  assert (Hp : 0 < 2 ^ N) by (apply Z.pow_pos_nonneg; lia).
  assert (Hd : 0 <= d < 2 ^ N) by (apply Z.mod_pos_bound; lia).
  assert (Hs : 0 <= s < 2 ^ N) by (apply Z.mod_pos_bound; lia).
  assert (Ea : DbgNum.evalAND N dst src = Z.land d s).
  { unfold DbgNum.evalAND. destruct (Z.leb_spec N 32); [lia|].
    rewrite !truncate_unsigned_wide by lia.
    apply (wide_formula Z.land andb eq_refl land_spec' JS.and N); auto. }
  assert (Eo : DbgNum.evalIOR N dst src = Z.lor d s).
  { unfold DbgNum.evalIOR. destruct (Z.leb_spec N 32); [lia|].
    rewrite !truncate_unsigned_wide by lia.
    apply (wide_formula Z.lor orb eq_refl lor_spec' JS.or N); auto. }
  assert (Ex : DbgNum.evalXOR N dst src = Z.lxor d s).
  { unfold DbgNum.evalXOR. destruct (Z.leb_spec N 32); [lia|].
    rewrite !truncate_unsigned_wide by lia.
    apply (wide_formula Z.lxor xorb eq_refl lxor_spec' JS.xor N); auto. }
  rewrite Ea, Eo, Ex.
  split; [reflexivity|]. split; [reflexivity|]. split; [reflexivity|].
  split; [|split].
  - apply (bitwise_range Z.land andb eq_refl land_spec'); lia.
  - apply (bitwise_range Z.lor orb eq_refl lor_spec'); lia.
  - apply (bitwise_range Z.lxor xorb eq_refl lxor_spec'); lia.
Qed.

(** Two 36-bit words: bit 35 and bit 0, and all ones. *)
Lemma eval_bitwise_wide_witness :
  DbgNum.evalAND 36 (2 ^ 35 + 1) (-1) = 2 ^ 35 + 1
  /\ DbgNum.evalIOR 36 (2 ^ 35) 1 = 2 ^ 35 + 1
  /\ DbgNum.evalXOR 36 (2 ^ 35 + 1) (-1) = 2 ^ 35 - 2.
Proof.
  destruct (eval_bitwise_wide 36 (2 ^ 35 + 1) (-1) ltac:(lia) ltac:(lia) ltac:(lia))
    as (Ea & _ & Ex & _).
  destruct (eval_bitwise_wide 36 (2 ^ 35) 1 ltac:(lia) ltac:(lia) ltac:(lia)) as (_ & Eo & _).
  rewrite Ea, Eo, Ex. repeat split; reflexivity.
Defined.

(** ** [evalOps]: the two stacks of the expression evaluator *)

Section EvalOpsFacts.

Import DbgNum.

Lemma pop_app {A} (l : list A) x : pop (l ++ [x]) = Some (x, l).
Proof.
  unfold pop. rewrite reverse_app, reverse_singleton.
  change ([x] ++ reverse l) with (x :: reverse l). cbv iota beta.
  rewrite reverse_involutive. reflexivity.
Qed.





End EvalOpsFacts.

(** [evalOps] that goes wrong returns false with the operator popped: when
    fewer than two values are on the stack (nothing else is touched); when
    the divisor of [/] or of [^/] is zero, and when the operator is not one
    of the switch (the two operands are popped and nothing is pushed).  The
    remainder operator of C, [%], is such an operator. *)
Theorem evalOps_errors (N : Z) (aVals : list Z) (aOps : list string) (chOp : string)
    (val1 val2 cOps : Z) :
  cOps <> 0 ->
  ((length aVals < 2)%nat ->
     DbgNum.evalOps N aVals (aOps ++ [chOp]) cOps = (false, aVals, aOps))
  /\ (chOp = "/"%string \/ chOp = "^/"%string ->
      DbgNum.evalOps N (aVals ++ [val1; 0]) (aOps ++ [chOp]) cOps = (false, aVals, aOps))
  /\ (DbgNum.evalOp N chOp val1 val2 = None ->
      DbgNum.evalOps N (aVals ++ [val1; val2]) (aOps ++ [chOp]) cOps = (false, aVals, aOps))
  /\ DbgNum.evalOp N "%" val1 val2 = None.
Proof.
  intros Hc.
  assert (Ht : JS.truthy cOps = true).
  { unfold JS.truthy. destruct (Z.eqb_spec cOps 0); [contradiction|reflexivity]. }
  assert (Hstep : forall o, DbgNum.evalOp N chOp val1 o = None ->
            DbgNum.evalOps N (aVals ++ [val1; o]) (aOps ++ [chOp]) cOps = (false, aVals, aOps)).
  { intros o Ho. unfold DbgNum.evalOps.
    rewrite reverse_app, reverse_singleton. cbn [app DbgNum.evalOps_loop]. rewrite Ht.
    rewrite length_app. cbn [length].
    destruct (Nat.ltb_spec (length aVals + 2) 2); [lia|].
    change (aVals ++ [val1; o]) with (aVals ++ [val1] ++ [o]).
    rewrite app_assoc, pop_app, pop_app, Ho, reverse_involutive. reflexivity. }
  split; [|split; [|split]].
  - intros Hlen. unfold DbgNum.evalOps.
    rewrite reverse_app, reverse_singleton. cbn [app DbgNum.evalOps_loop]. rewrite Ht.
    destruct (Nat.ltb_spec (length aVals) 2); [|lia].
    rewrite reverse_involutive. reflexivity.
  - intros [-> | ->]; apply Hstep; reflexivity.
  - apply Hstep.
  - reflexivity.
Qed.

Lemma evalOps_errors_witness :
  DbgNum.evalOps 16 [5] ["+"%string; "*"%string] (-1) = (false, [5], ["+"%string])
  /\ DbgNum.evalOps 16 [7; 1; 0] ["+"%string; "/"%string] (-1) = (false, [7], ["+"%string]).
Proof.
  split.
  - apply (proj1 (evalOps_errors 16 [5] ["+"%string] "*" 0 0 (-1) ltac:(lia))). cbn. lia.
  - apply (proj1 (proj2 (evalOps_errors 16 [7] ["+"%string] "/" 1 0 (-1) ltac:(lia)))).
    left. reflexivity.
Defined.



(** ** [parseUnary]: the stack of unary operators *)

Section ParseUnaryFacts.

Import DbgNum.

Variable N : Z.

(** Below, [fold_left (fun a c => 4 * a + c) cs 0] is the number whose
    base-4 digits are the codes [cs], the first one in the highest place. *)

Lemma parseUnary_loop_S fuel v n :
  parseUnary_loop (S fuel) N v n
  = if JS.truthy n
    then parseUnary_loop fuel N (unaryOp N (JS.and n 3) v) (JS.shr n 2)
    else v.
Proof. reflexivity. Qed.

Lemma parseUnary_loop_0 fuel v : parseUnary_loop fuel N v 0 = v.
Proof. destruct fuel; reflexivity. Qed.

Lemma digits_snoc cs c : (fold_left (fun a c : Z => 4 * a + c) (cs ++ [c]) 0) = 4 * (fold_left (fun a c : Z => 4 * a + c) cs 0) + c.
Proof. rewrite fold_left_app. reflexivity. Qed.

Lemma digits_bound cs :
  Forall (fun c : Z => 1 <= c <= 3) cs ->
  0 <= (fold_left (fun a c : Z => 4 * a + c) cs 0) < 4 ^ Z.of_nat (length cs)
  /\ (cs <> [] -> 4 ^ (Z.of_nat (length cs) - 1) <= (fold_left (fun a c : Z => 4 * a + c) cs 0)).
Proof.
  induction cs as [|c cs IH] using rev_ind; intros Hok.
  - cbn. split; [lia | congruence].
  - apply Forall_app in Hok as [Hcs Hc]. apply Forall_inv in Hc. cbv beta in Hc.
    destruct (IH Hcs) as [Hb Hlow].
    rewrite digits_snoc, length_app. cbn [length].
    replace (Z.of_nat (length cs + 1)) with (Z.succ (Z.of_nat (length cs))) by lia.
    rewrite Z.pow_succ_r by lia.
    replace (Z.succ (Z.of_nat (length cs)) - 1) with (Z.of_nat (length cs)) by lia.
    split; [lia|]. intros _.
    destruct cs as [|c0 cs0] using rev_ind.
    + cbn. lia.
    + assert (Hne : cs0 ++ [c0] <> []) by (intros E; apply app_eq_nil in E as [_ E]; discriminate).
      specialize (Hlow Hne).
      replace (Z.of_nat (length (cs0 ++ [c0]))) with (Z.succ (Z.of_nat (length (cs0 ++ [c0])) - 1))
        by lia.
      rewrite Z.pow_succ_r by (rewrite length_app; cbn; lia). lia.
Qed.

(** [(nUnary << 2) | code] appends a base-4 digit, modulo [2^32]. *)
Lemma lor_low2 a c : 0 <= c < 4 -> a mod 4 = 0 -> Z.lor a c = a + c.
Proof.
  intros Hc Ha.
  assert (Hl : Z.land a c = 0).
  { rewrite <- (Z.mod_small c 4) by lia. change 4 with (2 ^ 2) in *.
    rewrite <- (Z.land_ones c) by lia.
    rewrite (Z.land_comm c), Z.land_assoc, Z.land_ones by lia.
    rewrite Ha. apply Z.land_0_l. }
  rewrite <- (Z.lxor_lor a c Hl). symmetry. apply Z.add_nocarry_lxor. exact Hl.
Qed.

Lemma ToInt32_unique x y :
  - 2 ^ 31 <= x < 2 ^ 31 -> x mod 2 ^ 32 = y mod 2 ^ 32 -> JS.ToInt32 y = x.
Proof.
  intros Hx E. rewrite <- (ToInt32_small x) by lia. unfold JS.ToInt32.
  rewrite <- (Zplus_mod_idemp_l y), <- E, Zplus_mod_idemp_l. reflexivity.
Qed.

Lemma pushUnary_digit u c :
  0 <= c < 4 -> pushUnary (JS.ToInt32 u) c = JS.ToInt32 (4 * u + c).
Proof.
  intros Hc. unfold pushUnary, JS.or, JS.shl.
  rewrite count_small by lia. rewrite Z.shiftl_mul_pow2 by lia. change (2 ^ 2) with 4.
  rewrite !ToInt32_idem, (ToInt32_small c) by lia.
  set (a := JS.ToInt32 (JS.ToInt32 u * 4)).
  assert (Ha32 : a mod 2 ^ 32 = (4 * u) mod 2 ^ 32).
  { subst a. rewrite ToInt32_mod, <- Zmult_mod_idemp_l, ToInt32_mod, Zmult_mod_idemp_l.
    f_equal. lia. }
  assert (Ha4 : a mod 4 = 0).
  { pose proof (mod_pow2_mod_pow2 a 2 32 ltac:(lia)) as E1.
    pose proof (mod_pow2_mod_pow2 (4 * u) 2 32 ltac:(lia)) as E2.
    change (2 ^ 2) with 4 in E1, E2. rewrite <- E1, Ha32, E2.
    rewrite Z.mul_comm. apply Z.mod_mul. lia. }
  pose proof (ToInt32_range (JS.ToInt32 u * 4)) as Hr. fold a in Hr.
  rewrite lor_low2 by assumption.
  assert (Hlt : a + c < 2 ^ 31).
  { assert (E : a = 4 * (a / 4)) by (rewrite (Z.div_mod a 4) at 1 by lia; lia).
    change (2 ^ 31) with (4 * 2 ^ 29) in *. lia. }
  symmetry. apply ToInt32_unique; [lia|].
  rewrite <- Zplus_mod_idemp_l, Ha32, Zplus_mod_idemp_l. reflexivity.
Qed.

Lemma pushed_digits cs :
  Forall (fun c : Z => 1 <= c <= 3) cs -> fold_left pushUnary cs 0 = JS.ToInt32 (fold_left (fun a c : Z => 4 * a + c) cs 0).
Proof.
  induction cs as [|c cs IH] using rev_ind; intros Hok.
  - reflexivity.
  - apply Forall_app in Hok as [Hcs Hc]. apply Forall_inv in Hc. cbv beta in Hc.
    rewrite fold_left_app, digits_snoc. cbn [fold_left].
    rewrite (IH Hcs). apply pushUnary_digit. lia.
Qed.

(** What the loop reads off [nUnary]. *)
Lemma truthy_ToInt32 u : 0 < u < 2 ^ 32 -> JS.truthy (JS.ToInt32 u) = true.
Proof.
  intros Hu. unfold JS.truthy. destruct (Z.eqb_spec (JS.ToInt32 u) 0) as [E|]; [|reflexivity].
  pose proof (ToInt32_mod u) as Hm. rewrite E, Z.mod_0_l, Z.mod_small in Hm by lia. lia.
Qed.

Lemma and3_mod n : JS.and n 3 = n mod 4.
Proof.
  unfold JS.and. rewrite (ToInt32_small 3) by lia.
  change 3 with (Z.ones 2). rewrite Z.land_ones by lia.
  apply (ToInt32_mod_pow2 n 2). lia.
Qed.

Lemma and3_ToInt32 u : JS.and (JS.ToInt32 u) 3 = u mod 4.
Proof. rewrite and3_mod. apply (ToInt32_mod_pow2 u 2). lia. Qed.

Lemma shr2_ToInt32 u : 0 <= u < 2 ^ 32 -> JS.shr (JS.ToInt32 u) 2 = u / 4.
Proof.
  intros Hu. unfold JS.shr. rewrite ToUint32_ToInt32, ToUint32_small, count_small by lia.
  apply Z.shiftr_div_pow2. lia.
Qed.

Lemma digit_mod u c : 0 <= c < 4 -> (4 * u + c) mod 4 = c.
Proof. intros Hc. symmetry. apply (Z.mod_unique _ _ u); lia. Qed.

Lemma digit_div u c : 0 <= c < 4 -> (4 * u + c) / 4 = u.
Proof. intros Hc. symmetry. apply (Z.div_unique _ _ _ c); lia. Qed.

(** The loop undoes the digits from the last one pushed. *)
Lemma parseUnary_loop_digits cs :
  Forall (fun c : Z => 1 <= c <= 3) cs -> (length cs <= 15)%nat ->
  forall (fuel : nat) v, (length cs <= fuel)%nat ->
    parseUnary_loop fuel N v ((fold_left (fun a c : Z => 4 * a + c) cs 0)) = fold_right (unaryOp N) v cs.
Proof.
  induction cs as [|c cs IH] using rev_ind; intros Hok Hlen fuel v Hfuel.
  - apply parseUnary_loop_0.
  - apply Forall_app in Hok as [Hcs Hc]. apply Forall_inv in Hc. cbv beta in Hc.
    rewrite length_app in Hlen, Hfuel. cbn [length] in Hlen, Hfuel.
    destruct fuel as [|fuel]; [lia|].
    destruct (digits_bound cs Hcs) as [Hb _].
    assert (H15 : 4 ^ Z.of_nat (length cs) <= 4 ^ 14) by (apply Z.pow_le_mono_r; lia).
    change (4 ^ 14) with (2 ^ 28) in H15.
    rewrite digits_snoc, fold_right_app. cbn [fold_right].
    set (d := fold_left (fun a c : Z => 4 * a + c) cs 0) in *.
    rewrite parseUnary_loop_S.
    replace (JS.truthy (4 * d + c)) with true
      by (unfold JS.truthy; destruct (Z.eqb_spec (4 * d + c) 0); [lia | reflexivity]).
    rewrite and3_mod, shr_div by lia. change (2 ^ 2) with 4.
    rewrite digit_mod, digit_div by lia.
    apply IH; [assumption | lia | lia].
Qed.

Lemma room_ToInt32 u :
  0 <= u < 2 ^ 32 -> unaryRoom (JS.ToInt32 u) = (u <? 2 ^ 30).
Proof.
  intros Hu. unfold unaryRoom, JS.and, JS.truthy.
  rewrite ToInt32_idem.
  change (JS.ToInt32 (JS.or 3221225472 0)) with (- 2 ^ 30).
  replace (- 2 ^ 30) with (Z.lnot (Z.ones 30)) by reflexivity.
  rewrite <- Z.ldiff_land, Z.ldiff_ones_r by lia.
  rewrite Z.shiftr_div_pow2 by lia.
  pose proof (ToInt32_range u) as Hr.
  destruct (Z.ltb_spec u (2 ^ 30)) as [Hlt|Hge].
  - rewrite ToInt32_small by lia. rewrite Z.div_small by lia. reflexivity.
  - destruct (Z.eqb_spec (Z.shiftl (JS.ToInt32 u / 2 ^ 30) 30) 0) as [E|]; [|reflexivity].
    exfalso. rewrite Z.shiftl_mul_pow2 in E by lia.
    assert (E0 : JS.ToInt32 u / 2 ^ 30 = 0) by lia.
    apply Z.div_small_iff in E0; [|lia]. destruct E0 as [E0|E0]; [|lia].
    pose proof (ToInt32_mod u) as Hm.
    rewrite (Z.mod_small (JS.ToInt32 u)), (Z.mod_small u) in Hm by lia. lia.
Qed.

End ParseUnaryFacts.

(** [parseArray] and [parseUnary] agree on the stack of unary operators.
    When [parseArray] has recorded the operators [cs] in front of a value
    (codes 1 to 3, in the order they stand in the expression, at most 16 of
    them), [parseUnary] applies all of them, the last one recorded first: the
    operators work right to left.  While fewer than 16 are recorded the test
    for room succeeds, and after the 16th it fails. *)
Theorem parseUnary_applies_right_to_left (N v : Z) (cs : list Z) :
  Forall (fun c => 1 <= c <= 3) cs ->
  (length cs <= 16)%nat ->
  DbgNum.parseUnary N v (fold_left DbgNum.pushUnary cs 0)
    = fold_right (DbgNum.unaryOp N) v cs
  /\ (forall k : nat, (k < 16)%nat ->
        DbgNum.unaryRoom (fold_left DbgNum.pushUnary (take k cs) 0) = true)
  /\ ((length cs = 16)%nat -> DbgNum.unaryRoom (fold_left DbgNum.pushUnary cs 0) = false).
Proof.
  intros Hok Hlen.
  assert (H16 : 4 ^ 16 = 2 ^ 32) by reflexivity.
  split; [|split].
  - destruct cs as [|c cs] using rev_ind; [reflexivity|].
    clear IHcs.
    pose proof Hok as Hok'.
    apply Forall_app in Hok' as [Hcs Hc]. apply Forall_inv in Hc. cbv beta in Hc.
    rewrite length_app in Hlen. cbn [length] in Hlen.
    destruct (digits_bound cs Hcs) as [Hb _].
    assert (H15 : 4 ^ Z.of_nat (length cs) <= 4 ^ 15) by (apply Z.pow_le_mono_r; lia).
    change (4 ^ 15) with (2 ^ 30) in H15.
    rewrite pushed_digits by assumption. rewrite fold_left_app. cbn [fold_left].
    rewrite fold_right_app. cbn [fold_right].
    unfold DbgNum.parseUnary. rewrite parseUnary_loop_S.
    rewrite truthy_ToInt32, and3_ToInt32, shr2_ToInt32, digit_mod, digit_div by lia.
    apply parseUnary_loop_digits; [assumption | lia | lia].
  - intros k Hk.
    assert (Hokk : Forall (fun c => 1 <= c <= 3) (take k cs)) by (apply Forall_take; assumption).
    destruct (digits_bound (take k cs) Hokk) as [Hb _].
    assert (Hlk : (length (take k cs) <= 15)%nat) by (rewrite length_take; lia).
    assert (H15 : 4 ^ Z.of_nat (length (take k cs)) <= 4 ^ 15) by (apply Z.pow_le_mono_r; lia).
    change (4 ^ 15) with (2 ^ 30) in H15.
    rewrite pushed_digits, room_ToInt32 by (assumption || lia).
    apply Z.ltb_lt. lia.
  - intros E16.
    destruct (digits_bound cs Hok) as [Hb Hlow].
    assert (Hne : cs <> []) by (intros ->; discriminate E16).
    specialize (Hlow Hne). rewrite E16 in Hb, Hlow.
    change (4 ^ Z.of_nat 16) with (2 ^ 32) in Hb.
    change (4 ^ (Z.of_nat 16 - 1)) with (2 ^ 30) in Hlow.
    rewrite pushed_digits, room_ToInt32 by (assumption || lia).
    apply Z.ltb_ge. lia.
Qed.

(** [- ~ 5] on a 16-bit debugger: the complement, recorded last, works
    first, and the value is [-(~5) = 6]. *)
Lemma parseUnary_applies_right_to_left_witness :
  DbgNum.parseUnary 16 5 (DbgNum.pushUnary (DbgNum.pushUnary 0 1) 2)
    = DbgNum.unaryOp 16 1 (DbgNum.unaryOp 16 2 5)
  /\ DbgNum.pushUnary (DbgNum.pushUnary 0 1) 2 = 6
  /\ DbgNum.unaryOp 16 1 (DbgNum.unaryOp 16 2 5) = 6.
Proof.
  split; [|split; vm_compute; reflexivity].
  apply (proj1 (parseUnary_applies_right_to_left 16 5 [1; 2]
                  ltac:(repeat constructor; lia) ltac:(cbn; lia))).
Defined.

(** ** Breakpoints: [setBreak] and [clearBreak] *)

Section ClearBreakFacts.

Import DbgIO.

Lemma firstFree_spec l k :
  k <= firstFree l k <= k + Z.of_nat (length l)
  /\ (firstFree l k < k + Z.of_nat (length l) ->
      l !! Z.to_nat (firstFree l k - k) = Some None).
Proof.
  revert k. induction l as [|e l IH]; intros k; cbn [firstFree length].
  - split; lia.
  - destruct e as [x|].
    + destruct (IH (k + 1)) as [Hb Hfree]. split; [lia|].
      intros Hlt. specialize (Hfree ltac:(lia)).
      replace (Z.to_nat (firstFree l (k + 1) - k))
        with (S (Z.to_nat (firstFree l (k + 1) - (k + 1)))) by lia.
      exact Hfree.
    + split; [lia|]. intros _. rewrite Z.sub_diag. reflexivity.
Qed.

(** A slot taken and given back: the table is as before, or one hole
    longer when the slot was a new one at its end. *)
Lemma arrayPut_cleared l (i : Z) v :
  0 <= i <= Z.of_nat (length l) ->
  (i < Z.of_nat (length l) -> l !! Z.to_nat i = Some None) ->
  arrayGet (arrayPut l i v) i = Some v
  /\ i < Z.of_nat (length (arrayPut l i v))
  /\ <[Z.to_nat i := None]> (arrayPut l i v)
     = if i <? Z.of_nat (length l) then l else l ++ [None].
Proof.
  intros Hi Hfree. unfold arrayPut, arrayGet.
  destruct (Z.ltb_spec i 0) as [|_]; [lia|].
  destruct (Z.ltb_spec i (Z.of_nat (length l))) as [Hlt|Hge].
  - specialize (Hfree Hlt).
    rewrite list_lookup_insert_eq by lia.
    split; [reflexivity|]. split; [rewrite length_insert; lia|].
    rewrite list_insert_insert_eq. apply list_insert_id. exact Hfree.
  - assert (E : Z.to_nat i = length l) by lia. rewrite E, Nat.sub_diag.
    cbn [replicate app].
    rewrite lookup_app_r, Nat.sub_diag by lia. cbn [lookup list_lookup].
    split; [reflexivity|]. split; [rewrite length_app; cbn [length]; lia|].
    rewrite insert_app_r_alt, Nat.sub_diag by lia. reflexivity.
Qed.

Lemma repeatOp_one op (h h' : list Memory.t) :
  Bus.repeatOp op 1 h = Ret ([true], h') -> op h = Ret (true, h').
Proof.
  cbn [Bus.repeatOp]. destruct (op h) as [[b h1]|e]; [|discriminate].
  intros [= -> ->]. reflexivity.
Qed.

End ClearBreakFacts.

(** A read breakpoint set and cleared again.  Take an address [off] that
    the table of read breakpoints does not hold (neither enabled nor
    disabled), in a block whose trap state is the data model's: no read
    trap, or read traps of the debugger's own callback.  [setBreak(off)]
    takes the first free slot [i], reports it and has the bus count one more
    trap on the block; [clearBreak(i)] then reports the address cleared and
    the blocks are exactly as before [setBreak].  The table is as before
    too, unless [i] was a new slot at its end: the slot stays, as a hole,
    and the table is one entry longer. *)
Theorem setBreak_clearBreak_read (bus : Bus.t) (d : DbgIO.t) (h : list Memory.t) (off : Z)
    (l : nat) (m : Memory.t) :
  Bus.blockAt bus h (JS.shr off (Bus.blockShift bus)) = Some (l, m) ->
  (Memory.nReadTraps m = 0%nat -> Memory.readPrev m = None /\ Memory.readTrap m = None) ->
  (Memory.nReadTraps m <> 0%nat -> Memory.readTrap m = Some DbgIO.readBusCheck) ->
  DbgIO.indexOf (DbgIO.aBreakReadAddr d) (Some off) < 0 ->
  DbgIO.indexOf (DbgIO.aBreakReadAddr d) (Some (JS.shr off 0 + NumIO.TWO_POW32)) < 0 ->
  let table := DbgIO.aBreakReadAddr d in
  let i := DbgIO.firstFree table 0 in
  exists d1 h1 m1,
    DbgIO.setBreak (Some off) false bus d h = (Ret [MsgSet i "br" off], d1, h1)
    /\ 0 <= i <= Z.of_nat (length table)
    /\ DbgIO.arrayGet (DbgIO.aBreakReadAddr d1) i = Some off
    /\ h1 !! l = Some m1
    /\ Memory.nReadTraps m1 = S (Memory.nReadTraps m)
    /\ Memory.readTrap m1 = Some DbgIO.readBusCheck
    /\ DbgIO.clearBreak1 i bus d1 h1
       = (Ret [MsgCleared i "br" off],
          DbgIO.setReadTable d (if i <? Z.of_nat (length table) then table else table ++ [None]),
          h).
Proof.
  intros Hat Hnone Hsame Hnew Hnew' table i.
  fold table in Hnew, Hnew'.
  assert (Hi : 0 <= i <= Z.of_nat (length table)
               /\ (i < Z.of_nat (length table) -> table !! Z.to_nat i = Some None)).
  { destruct (firstFree_spec table 0) as [Hi Hfree]. fold i in Hi, Hfree.
    rewrite Z.sub_0_r in Hfree. split; [lia|]. intros Hlt. apply Hfree. lia. }
  destruct Hi as [Hi Hfree].
  destruct (arrayPut_cleared table i off Hi Hfree) as (Hget & Hlen & Hback).
  destruct (trap_untrap_read bus h off DbgIO.readBusCheck l m Hat 1 ltac:(lia) Hnone Hsame)
    as (h1 & m1 & Htrap & Hm1 & Hn1 & Ht1 & _ & _ & Huntrap).
  apply repeatOp_one in Htrap, Huntrap.
  exists (DbgIO.setReadTable d (DbgIO.arrayPut table i off)), h1, m1.
  assert (Hadd : DbgIO.addBreak table off = (i, DbgIO.arrayPut table i off)).
  { unfold DbgIO.addBreak.
    destruct (Z.ltb_spec (DbgIO.indexOf table (Some off)) 0) as [_|]; [|lia].
    destruct (Z.geb_spec (DbgIO.indexOf table (Some (JS.shr off 0 + NumIO.TWO_POW32))) 0);
      [lia | reflexivity]. }
  split.
  { unfold DbgIO.setBreak. fold table. rewrite Hadd.
    destruct (Z.geb_spec i 0); [|lia]. rewrite Htrap. reflexivity. }
  split; [lia|]. split; [exact Hget|]. split; [exact Hm1|].
  split; [rewrite Hn1; lia|]. split; [exact Ht1|].
  unfold DbgIO.clearBreak1.
  change (DbgIO.aBreakReadAddr (DbgIO.setReadTable d (DbgIO.arrayPut table i off)))
    with (DbgIO.arrayPut table i off).
  destruct (Z.geb_spec i (Z.of_nat (length (DbgIO.arrayPut table i off)))); [lia|].
  destruct (Z.geb_spec i 0); [|lia].
  rewrite Hget. cbn [negb]. rewrite Huntrap, Hback.
  reflexivity.
Qed.

(** On the example bus: a read breakpoint at 0x450 set in an empty table and
    cleared again; the table keeps the slot as a hole. *)
Lemma setBreak_clearBreak_read_witness :
  exists d1 h1,
    DbgIO.setBreak (Some 0x450) false Demo.bus Demo.dbg Demo.heap
      = (Ret [MsgSet 0 "br" 0x450], d1, h1)
    /\ DbgIO.clearBreak1 0 Demo.bus d1 h1
       = (Ret [MsgCleared 0 "br" 0x450], DbgIO.setReadTable Demo.dbg [None], Demo.heap).
Proof.
  assert (Hat : exists l m,
            Bus.blockAt Demo.bus Demo.heap (JS.shr 0x450 (Bus.blockShift Demo.bus)) = Some (l, m)
            /\ Memory.nReadTraps m = 0%nat
            /\ Memory.readPrev m = None /\ Memory.readTrap m = None).
  { eexists _, _. vm_compute. repeat split; reflexivity. }
  destruct Hat as (l & m & Hat & Hn & Hp & Ht).
  destruct (setBreak_clearBreak_read Demo.bus Demo.dbg Demo.heap 0x450 l m Hat)
    as (d1 & h1 & m1 & Hset & _ & _ & _ & _ & _ & Hclear).
  - intros _. split; assumption.
  - intros Hne. contradiction.
  - vm_compute. reflexivity.
  - vm_compute. reflexivity.
  - exists d1, h1. split; [exact Hset | exact Hclear].
Defined.
